(** * Wellbeing tracker: the incremental aggregation pipeline

    A shallow embedding of [processor/processor.py] (the [CategoryManager]
    and the [DataProcessor]) over the tables declared in
    [backend/models.py], followed by the properties of the specification
    that the code was checked against.

    Conventions of the embedding.
    - Text is [string] over 8-bit characters; [str.lower] is modelled on
      the ASCII letters.
    - A Python [dict] is an association list in insertion order with
      unique keys: [Dict.set] overwrites in place or appends, as CPython
      does, so that iteration order is the order of first insertion.
    - A timestamp is the number of microseconds since
      1970-01-01T00:00:00.  The events table holds the text that
      [datetime.now().isoformat()] produced
      (YYYY-MM-DDTHH:MM:SS.ffffff); on such text SQLite's byte-wise
      comparison is the comparison of these numbers, and
      STRFTIME('%Y-%m-%d') and STRFTIME('%H') are the day and the hour of
      the day.  A date is a day number (days since 1970-01-01; 19723 is
      2024-01-01) and dates compare as their YYYY-MM-DD text does.
    - The hour of a bucket is an hour of the day, 0 to 23, as in every
      row the hourly pass writes; for such rows the greatest text
      date || ' ' || hh || ':59:59' is the end of the latest hour.
    - Integers are unbounded ([Z]); SQLite's 64-bit overflow is not
      modelled.
    - The row id and the [created_at] default of a table are assigned by
      the storage engine, not by the processor; a row is modelled by the
      columns the processor writes.  The UNIQUE constraints are those of
      [backend/models.py].
    - A stage works on one sqlite3 connection: its writes are seen by its
      own later reads, reach the database file at [conn.commit()], and
      are lost when the connection goes away without a commit.  Any call
      into the storage may fail. *)

From Stdlib Require Import ZArith List String Ascii Bool Lia Permutation.
Import ListNotations.
Open Scope string_scope.
Open Scope list_scope.
Open Scope Z_scope.

Set Implicit Arguments.
Set Warnings "-register-all".

(* ================================================================= *)
(** ** Strings *)

Module Str.

(** [str.lower] on ASCII: the letters A-Z move to a-z. *)
Definition lower_char (c : ascii) : ascii :=
  let n := nat_of_ascii c in
  if andb (Nat.leb 65 n) (Nat.leb n 90) then ascii_of_nat (n + 32) else c.

Fixpoint lower (s : string) : string :=
  match s with
  | EmptyString => EmptyString
  | String c s' => String (lower_char c) (lower s')
  end.

(** Truth value of a Python string: the empty string is falsy. *)
Definition truthy (s : string) : bool :=
  match s with EmptyString => false | String _ _ => true end.

Fixpoint startswith (s p : string) {struct p} : bool :=
  match p, s with
  | EmptyString, _ => true
  | String _ _, EmptyString => false
  | String a p', String b s' => if Ascii.eqb a b then startswith s' p' else false
  end.

(** [p in s] for two strings: [p] occurs in [s] as a contiguous run. *)
Fixpoint contains (p s : string) : bool :=
  if startswith s p then true
  else match s with
       | EmptyString => false
       | String _ s' => contains p s'
       end.

(** The relation [contains] decides. *)
Definition substring_of (p s : string) : Prop :=
  exists before after, s = (before ++ p ++ after)%string.

(** The characters of a string, as [for ch in s] yields them. *)
Fixpoint chars (s : string) : list string :=
  match s with
  | EmptyString => []
  | String c s' => String c EmptyString :: chars s'
  end.

End Str.

(* ================================================================= *)
(** ** Python dictionaries with string keys *)

Module Dict.
Section Dict.
Variable V : Type.

Definition t := list (string * V).

Definition empty : t := [].

Fixpoint get (k : string) (d : t) : option V :=
  match d with
  | [] => None
  | (k', v) :: d' => if String.eqb k k' then Some v else get k d'
  end.

Definition mem (k : string) (d : t) : bool :=
  match get k d with Some _ => true | None => false end.

(** [d[k] = v]: an existing key keeps its position. *)
Fixpoint set (k : string) (v : V) (d : t) : t :=
  match d with
  | [] => [(k, v)]
  | (k', v') :: d' =>
      if String.eqb k k' then (k', v) :: d' else (k', v') :: set k v d'
  end.

Definition keys (d : t) : list string := map fst d.

Definition items (d : t) : list (string * V) := d.

(** The representation invariant of a dictionary. *)
Definition wf (d : t) : Prop := NoDup (keys d).

End Dict.
End Dict.

Arguments Dict.empty {V}.

(* ================================================================= *)
(** ** Values read from the category file *)

(** What [json.load] returns.  An object is a dictionary, with unique
    keys, in the order of the file; [PNum] stands for any number. *)
Inductive pyobj : Type :=
| PNone
| PBool (b : bool)
| PNum (n : Z)
| PStr (s : string)
| PList (l : list pyobj)
| PDict (d : list (string * pyobj)).

(** The file at [categories_path] as [load_categories] finds it. *)
Inductive Source : Type :=
| Missing                      (* [categories_path.exists()] is false *)
| Malformed                    (* [open] or [json.load] raises *)
| Content (data : pyobj).      (* [json.load] returns [data] *)

Inductive exn : Type :=
| AttributeError | TypeError | ValueError | JSONDecodeError
| OperationalError | IntegrityError.

(* ================================================================= *)
(** ** The tables of [backend/models.py] *)

Record Event : Type := mkEvent {
  timestamp : Z;
  device_type : string;
  app_name : string;
  website_url : option string;
  duration_seconds : Z
}.

Record HourlyUsage : Type := mkHourly {
  h_date : Z;
  h_hour : Z;
  h_device_type : string;
  h_app_name : string;
  h_website_url : option string;
  h_category : string;
  h_total_seconds : Z;
  h_event_count : Z
}.

Record DailyUsage : Type := mkDaily {
  d_date : Z;
  d_device_type : string;
  d_app_name : string;
  d_website_url : option string;
  d_category : string;
  d_total_seconds : Z;
  d_event_count : Z
}.

Record DailyCategoryUsage : Type := mkDailyCat {
  c_date : Z;
  c_device_type : string;
  c_category : string;
  c_total_seconds : Z
}.

Record AppCategory : Type := mkAppCategory {
  a_app_name : string;
  a_category : string
}.

Record Database : Type := mkDatabase {
  events : list Event;
  hourly_usage : list HourlyUsage;
  daily_usage : list DailyUsage;
  daily_category_usage : list DailyCategoryUsage;
  app_categories : list AppCategory
}.

Definition set_hourly_usage (t : list HourlyUsage) (db : Database) : Database :=
  mkDatabase (events db) t (daily_usage db) (daily_category_usage db)
             (app_categories db).

Definition set_daily_usage (t : list DailyUsage) (db : Database) : Database :=
  mkDatabase (events db) (hourly_usage db) t (daily_category_usage db)
             (app_categories db).

Definition set_daily_category_usage (t : list DailyCategoryUsage)
  (db : Database) : Database :=
  mkDatabase (events db) (hourly_usage db) (daily_usage db) t
             (app_categories db).

Definition set_app_categories (t : list AppCategory) (db : Database) : Database :=
  mkDatabase (events db) (hourly_usage db) (daily_usage db)
             (daily_category_usage db) t.

Definition add_event (e : Event) (db : Database) : Database :=
  mkDatabase (events db ++ [e]) (hourly_usage db) (daily_usage db)
             (daily_category_usage db) (app_categories db).

(* ================================================================= *)
(** ** The processor's world *)

Record CategoryManager : Type := mkCategoryManager {
  categories : pyobj;
  app_mappings : Dict.t string
}.

Inductive Level : Type := DEBUG | INFO | WARNING | ERROR.

(** One constructor per logging call of the processor, with the values
    its message is formatted from. *)
Inductive Message : Type :=
| Loaded_app_mappings (n_apps n_categories : nat)
| Categories_file_not_found
| Error_loading_categories (e : exn)
| Processing_hourly_data_since (ts : Z)
| No_new_hourly_data
| Processed_hourly (n_rows n_slots : nat)
| Error_processing_hourly (e : exn)
| Processing_daily_data_since (date : Z)
| No_new_daily_data
| Processed_daily (n_rows n_categories n_days : nat)
| Error_processing_daily (e : exn)
| Updated_app_categories (n : nat)
| Error_updating_app_categories (e : exn)
| Starting_cycle
| Cycle_completed
| Error_in_processing_loop (e : exn).

Definition LogRecord : Type := (Level * Message)%type.

(** The state one processing cycle runs in.
    - [source]: the category file;
    - [manager]: the [CategoryManager] of the processor;
    - [disk]: the committed content of the SQLite file;
    - [txn]: what the open connection sees, uncommitted writes included;
    - [calls]: how many storage calls were issued so far;
    - [storage_fault]: which storage calls fail (a locked or unreachable
      database raises [sqlite3.OperationalError]);
    - [log]: the records logged so far, oldest first. *)
Record World : Type := mkWorld {
  source : Source;
  manager : CategoryManager;
  disk : Database;
  txn : Database;
  calls : nat;
  storage_fault : nat -> bool;
  log : list LogRecord
}.

Definition set_manager (m : CategoryManager) (w : World) : World :=
  mkWorld (source w) m (disk w) (txn w) (calls w) (storage_fault w) (log w).

Definition set_disk (d : Database) (w : World) : World :=
  mkWorld (source w) (manager w) d (txn w) (calls w) (storage_fault w) (log w).

Definition set_txn (d : Database) (w : World) : World :=
  mkWorld (source w) (manager w) (disk w) d (calls w) (storage_fault w) (log w).

Definition set_calls (n : nat) (w : World) : World :=
  mkWorld (source w) (manager w) (disk w) (txn w) n (storage_fault w) (log w).

Definition add_log (r : LogRecord) (w : World) : World :=
  mkWorld (source w) (manager w) (disk w) (txn w) (calls w) (storage_fault w)
          (log w ++ [r]).

(* ================================================================= *)
(** ** Statements: state and exceptions *)

Inductive outcome (A : Type) : Type :=
| Done (a : A) (w : World)
| Raised (e : exn) (w : World).

Arguments Done {A} a w.
Arguments Raised {A} e w.

Definition M (A : Type) : Type := World -> outcome A.

Definition ret {A} (a : A) : M A := fun w => Done a w.

Definition bind {A B} (m : M A) (k : A -> M B) : M B :=
  fun w => match m w with
           | Done a w' => k a w'
           | Raised e w' => Raised e w'
           end.

Definition raise {A} (e : exn) : M A := fun w => Raised e w.

Definition gets {A} (f : World -> A) : M A := fun w => Done (f w) w.

Definition modify (f : World -> World) : M unit := fun w => Done tt (f w).

(** [try: body except Exception as e: handler e]. *)
Definition try_except {A} (body : M A) (handler : exn -> M A) : M A :=
  fun w => match body w with
           | Done a w' => Done a w'
           | Raised e w' => handler e w'
           end.

Declare Scope py_scope.
Delimit Scope py_scope with py.
Notation "x <- m ;; k" := (bind m (fun x => k))
  (at level 100, m at next level, right associativity) : py_scope.
Notation "m ;; k" := (bind m (fun _ => k))
  (at level 100, right associativity) : py_scope.
Open Scope py_scope.

(** [for x in xs: body x]. *)
Fixpoint for_each {A} (xs : list A) (body : A -> M unit) : M unit :=
  match xs with
  | [] => ret tt
  | x :: xs' => body x ;; for_each xs' body
  end.

Definition state_of {A} (o : outcome A) : World :=
  match o with Done _ w => w | Raised _ w => w end.

Definition logging (lvl : Level) (msg : Message) : M unit :=
  modify (add_log (lvl, msg)).

(* ================================================================= *)
(** ** CategoryManager *)

Definition set_categories (c : pyobj) (w : World) : World :=
  set_manager (mkCategoryManager c (app_mappings (manager w))) w.

Definition set_app_mappings (m : Dict.t string) (w : World) : World :=
  set_manager (mkCategoryManager (categories (manager w)) m) w.

(** [o.get(k, default)]: only a dictionary has [get]. *)
Definition py_get (k : string) (default : pyobj) (o : pyobj) : M pyobj :=
  match o with
  | PDict d => ret (match Dict.get k d with Some v => v | None => default end)
  | _ => raise AttributeError
  end.

(** [o.items()]. *)
Definition py_items (o : pyobj) : M (list (string * pyobj)) :=
  match o with
  | PDict d => ret (Dict.items d)
  | _ => raise AttributeError
  end.

(** [for x in o]: a list yields its elements, a string its characters, a
    dictionary its keys; nothing else is iterable. *)
Definition py_iter (o : pyobj) : M (list pyobj) :=
  match o with
  | PList l => ret l
  | PStr s => ret (map PStr (Str.chars s))
  | PDict d => ret (map PStr (Dict.keys d))
  | _ => raise TypeError
  end.

(** [o.lower()]: only a string has [lower]. *)
Definition py_lower (o : pyobj) : M string :=
  match o with
  | PStr s => ret (Str.lower s)
  | _ => raise AttributeError
  end.

(** [len(o)] of a container. *)
Definition py_len (o : pyobj) : M nat :=
  match o with
  | PDict d => ret (List.length d)
  | PList l => ret (List.length l)
  | PStr s => ret (String.length s)
  | _ => raise TypeError
  end.

(** The [try] block of [load_categories]. *)
Definition load_categories_body : M unit :=
  src <- gets source ;;
  match src with
  | Missing => logging WARNING Categories_file_not_found
  | Malformed => raise JSONDecodeError
  | Content data =>
      cats <- py_get "categories" (PDict []) data ;;
      modify (set_categories cats) ;;
      modify (set_app_mappings Dict.empty) ;;
      entries <- py_items cats ;;
      for_each entries (fun '(category, info) =>
        apps <- py_get "apps" (PList []) info ;;
        apps <- py_iter apps ;;
        for_each apps (fun app =>
          app_lower <- py_lower app ;;
          modify (fun w =>
            set_app_mappings
              (Dict.set app_lower category (app_mappings (manager w))) w))) ;;
      n_apps <- gets (fun w => List.length (app_mappings (manager w))) ;;
      n_categories <- py_len cats ;;
      logging INFO (Loaded_app_mappings n_apps n_categories)
  end.

Definition load_categories : M unit :=
  try_except load_categories_body
    (fun e => logging ERROR (Error_loading_categories e)).

(** [CategoryManager.__init__]. *)
Definition CategoryManager_init : M unit :=
  modify (set_manager (mkCategoryManager (PDict []) Dict.empty)) ;;
  load_categories.

(** The loop of the partial match: the first pattern, in the order of
    the dictionary, that occurs in the lowered name. *)
Fixpoint partial_match (items : list (string * string)) (app_lower : string)
  : option string :=
  match items with
  | [] => None
  | (app_pattern, category) :: rest =>
      if Str.contains app_pattern app_lower then Some category
      else partial_match rest app_lower
  end.

(** [get_category].  [None] for the name takes the first branch as the
    empty string does. *)
Definition get_category (self : CategoryManager) (app_name : string) : string :=
  if negb (Str.truthy app_name) then "Other"
  else
    let app_lower := Str.lower app_name in
    match Dict.get app_lower (app_mappings self) with
    | Some category => category
    | None =>
        match partial_match (Dict.items (app_mappings self)) app_lower with
        | Some category => category
        | None => "Other"
        end
    end.

(* ================================================================= *)
(** ** Editing the mapping *)

(** What [update_category_mapping] can raise: KeyError, and the
    exceptions of the built-in operations. *)
Inductive edit_error : Type :=
| KeyError (key : string)
| Builtin (e : exn).

(** [x == o] for a string [x]: only a string equals a string. *)
Definition py_eq_str (x : string) (o : pyobj) : bool :=
  match o with
  | PStr s => String.eqb x s
  | _ => false
  end.

(** [x in o] for a string [x]: a key of a dictionary, an element of a
    list, a substring of a string; nothing else is a container. *)
Definition py_contains (x : string) (o : pyobj) : edit_error + bool :=
  match o with
  | PDict d => inr (Dict.mem x d)
  | PList l => inr (existsb (py_eq_str x) l)
  | PStr s => inr (Str.contains x s)
  | _ => inl (Builtin TypeError)
  end.

(** [o[k]] for a string [k]: only a dictionary takes a string. *)
Definition py_getitem (k : string) (o : pyobj) : edit_error + pyobj :=
  match o with
  | PDict d =>
      match Dict.get k d with
      | Some v => inr v
      | None => inl (KeyError k)
      end
  | _ => inl (Builtin TypeError)
  end.

(** [o.append(x)]: only a list has [append]. *)
Definition py_append (x : pyobj) (o : pyobj) : edit_error + pyobj :=
  match o with
  | PList l => inr (PList (l ++ [x]))
  | _ => inl (Builtin AttributeError)
  end.

(** [cats[category]['apps']] after the list it refers to has become
    [apps]: the append works in place. *)
Definition with_apps (category : string) (apps : pyobj) (cats : pyobj)
  : pyobj :=
  match cats with
  | PDict d =>
      match Dict.get category d with
      | Some (PDict info) =>
          PDict (Dict.set category (PDict (Dict.set "apps" apps info)) d)
      | _ => cats
      end
  | _ => cats
  end.

(** What happens to the file when [save_categories] writes it: the dump
    goes through, [open] raises and leaves the file alone, or the dump
    breaks off and leaves a file that is no JSON document. *)
Inductive write_outcome : Type := Written | OpenFailed | DumpFailed.

(** The object [save_categories] dumps; [now] is
    [datetime.now().isoformat()]. *)
Definition saved_data (self : CategoryManager) (now : string) : pyobj :=
  PDict [("categories", categories self);
         ("rules", PDict [("default_category", PStr "Other");
                          ("case_sensitive", PBool false);
                          ("match_strategy", PStr "partial")]);
         ("updated_at", PStr now)].

(** [save_categories]: the file afterwards, and whether an error was
    logged. *)
Definition save_categories (write : write_outcome) (now : string)
  (self : CategoryManager) (file : Source) : Source * bool :=
  match write with
  | Written => (Content (saved_data self now), false)
  | OpenFailed => (file, true)
  | DumpFailed => (Malformed, true)
  end.

(** How a call of [update_category_mapping] ends. *)
Record edit_result : Type := mkEditResult {
  raised : option edit_error;
  manager_after : CategoryManager;
  file_after : Source;
  save_error_logged : bool
}.

(** [update_category_mapping]. *)
Definition update_category_mapping (write : write_outcome) (now : string)
  (app_name category : string) (self : CategoryManager) (file : Source)
  : edit_result :=
  let app_lower := Str.lower app_name in
  let self1 :=
    mkCategoryManager (categories self)
                      (Dict.set app_lower category (app_mappings self)) in
  let stop e := mkEditResult (Some e) self1 file false in
  let done := mkEditResult None self1 file false in
  match py_contains category (categories self1) with
  | inl e => stop e
  | inr false => done
  | inr true =>
      match py_getitem category (categories self1) with
      | inl e => stop e
      | inr info =>
          match py_getitem "apps" info with
          | inl e => stop e
          | inr apps =>
              match py_contains app_lower apps with
              | inl e => stop e
              | inr true => done
              | inr false =>
                  match py_append (PStr app_lower) apps with
                  | inl e => stop e
                  | inr apps' =>
                      let self2 :=
                        mkCategoryManager
                          (with_apps category apps' (categories self1))
                          (app_mappings self1) in
                      let '(file', logged) :=
                        save_categories write now self2 file in
                      mkEditResult None self2 file' logged
                  end
              end
          end
      end
  end.

(* ================================================================= *)
(** ** Relational operators *)

Section Relational.
Variables R K : Type.
Variable key : R -> K.
Variable K_eq_dec : forall a b : K, {a = b} + {a <> b}.

Definition same_key (k : K) (r : R) : bool :=
  if K_eq_dec (key r) k then true else false.

(** [GROUP BY key]: one group per distinct key, with the rows of the key.
    SQL leaves the order of the groups open; here they come in the order
    in which the keys occur last. *)
Definition group_by (rows : list R) : list (K * list R) :=
  map (fun k => (k, filter (same_key k) rows)) (nodup K_eq_dec (map key rows)).

(** [SUM(col)] over a group. *)
Definition sum_of (col : R -> Z) (rows : list R) : Z :=
  fold_right (fun r acc => col r + acc) 0 rows.

(** [COUNT( * )] over a group. *)
Definition count_of (rows : list R) : Z := Z.of_nat (List.length rows).

End Relational.

Section OrderBy.
Variable A : Type.
Variable leb : A -> A -> bool.

Fixpoint insert_by (x : A) (l : list A) : list A :=
  match l with
  | [] => [x]
  | y :: l' => if leb x y then x :: y :: l' else y :: insert_by x l'
  end.

(** [ORDER BY] and [sorted]: a stable insertion sort. *)
Definition order_by (l : list A) : list A := fold_right insert_by [] l.

End OrderBy.

Definition max_of (l : list Z) : option Z :=
  match l with
  | [] => None
  | x :: l' => Some (fold_left Z.max l' x)
  end.

(* ================================================================= *)
(** ** Storage calls *)

(** Every call into SQLite may fail with a storage error. *)
Definition storage_call : M unit :=
  fun w =>
    let w' := set_calls (S (calls w)) w in
    if storage_fault w (calls w) then Raised OperationalError w'
    else Done tt w'.

(** [sqlite3.connect]: the connection sees the committed database. *)
Definition _get_database_connection : M unit :=
  storage_call ;;
  modify (fun w => set_txn (disk w) w).

(** [conn.commit()]: the writes of the connection become the committed
    database, all at once. *)
Definition conn_commit : M unit :=
  storage_call ;;
  modify (fun w => set_disk (txn w) w).

(** [conn.close()].  A connection that is closed, or dropped when its
    function returns, loses its uncommitted writes: the next connection
    starts from [disk] again. *)
Definition conn_close : M unit := ret tt.

(** A read of the connection's view. *)
Definition query {A} (f : Database -> A) : M A :=
  storage_call ;;
  gets (fun w => f (txn w)).

(** A write to the connection's view. *)
Definition execute (f : Database -> Database) : M unit :=
  storage_call ;;
  modify (fun w => set_txn (f (txn w)) w).

(** An INSERT: [conflict] is the UNIQUE constraint of the table. *)
Definition insert_into {Row} (table : Database -> list Row)
  (set_table : list Row -> Database -> Database)
  (conflict : Row -> Row -> bool) (r : Row) : M unit :=
  storage_call ;;
  rows <- gets (fun w => table (txn w)) ;;
  if existsb (conflict r) rows then raise IntegrityError
  else modify (fun w => set_txn (set_table (rows ++ [r]) (txn w)) w).

(** A nullable column of a UNIQUE constraint: SQLite never takes two
    NULLs for the same value. *)
Definition unique_eqb (a b : option string) : bool :=
  match a, b with
  | Some x, Some y => String.eqb x y
  | _, _ => false
  end.

(* ================================================================= *)
(** ** Time *)

Definition usec_per_second : Z := 1000000.
Definition usec_per_hour : Z := 3600 * usec_per_second.
Definition usec_per_day : Z := 24 * usec_per_hour.

(** STRFTIME('%Y-%m-%d', timestamp). *)
Definition strftime_date (ts : Z) : Z := ts / usec_per_day.

(** CAST(STRFTIME('%H', timestamp) AS INTEGER). *)
Definition strftime_hour (ts : Z) : Z := (ts / usec_per_hour) mod 24.

(** date || ' ' || printf('%02d', hour) || ':59:59', for an hour of the
    day. *)
Definition hour_end (date hour : Z) : Z :=
  (date * 24 + hour) * usec_per_hour + 3599 * usec_per_second.

(** '1970-01-01 00:00:00' and '1970-01-01'. *)
Definition epoch_ts : Z := 0.
Definition epoch_date : Z := 0.

(** A readable constructor of timestamps for the examples. *)
Definition at_time (date hh mm ss usec : Z) : Z :=
  (((date * 24 + hh) * 60 + mm) * 60 + ss) * usec_per_second + usec.

(* ================================================================= *)
(** ** The hourly aggregation *)

Definition HourKey : Type := (Z * Z * string * string * option string)%type.

Definition HourKey_eq_dec (a b : HourKey) : {a = b} + {a <> b}.
Proof.
  repeat decide equality; try apply string_dec.
Defined.

Definition HourSlot_eq_dec (a b : Z * Z) : {a = b} + {a <> b}.
Proof. decide equality; apply Z.eq_dec. Defined.

(** The columns the SELECT over the events groups by. *)
Definition event_key (e : Event) : HourKey :=
  (strftime_date (timestamp e), strftime_hour (timestamp e),
   device_type e, app_name e, website_url e).

(** A row of [hourly_data]. *)
Record HourlyGroup : Type := mkHourlyGroup {
  g_date : Z;
  g_hour : Z;
  g_device_type : string;
  g_app_name : string;
  g_website_url : option string;
  g_event_count : Z;
  g_total_seconds : Z
}.

Definition hourly_group (g : HourKey * list Event) : HourlyGroup :=
  let '(date, hour, device, app, url, rows) := g in
  mkHourlyGroup date hour device app url
                (count_of rows) (sum_of duration_seconds rows).

Definition date_hour_leb (a b : HourlyGroup) : bool :=
  (g_date a <? g_date b) || ((g_date a =? g_date b) && (g_hour a <=? g_hour b)).

(** SELECT MAX(date || ' ' || printf('%02d', hour) || ':59:59')
    FROM hourly_usage. *)
Definition select_max_hour_end (db : Database) : option Z :=
  max_of (map (fun r => hour_end (h_date r) (h_hour r)) (hourly_usage db)).

(** SELECT ... FROM events WHERE timestamp > ? GROUP BY event_date,
    event_hour, device_type, app_name, website_url
    ORDER BY event_date, event_hour. *)
Definition select_hourly_data (start_processing_ts : Z) (db : Database)
  : list HourlyGroup :=
  order_by date_hour_leb
    (map hourly_group
       (group_by event_key HourKey_eq_dec
          (filter (fun e => start_processing_ts <? timestamp e) (events db)))).

(** DELETE FROM hourly_usage WHERE date = ? AND hour = ?. *)
Definition delete_hourly (slot : Z * Z) (db : Database) : Database :=
  set_hourly_usage
    (filter (fun r => negb ((h_date r =? fst slot) && (h_hour r =? snd slot)))
       (hourly_usage db)) db.

(** [uq_hourly]: UNIQUE (date, hour, device_type, app_name, website_url). *)
Definition uq_hourly (a b : HourlyUsage) : bool :=
  (h_date a =? h_date b) && (h_hour a =? h_hour b)
  && String.eqb (h_device_type a) (h_device_type b)
  && String.eqb (h_app_name a) (h_app_name b)
  && unique_eqb (h_website_url a) (h_website_url b).

Definition insert_hourly_usage : HourlyUsage -> M unit :=
  insert_into hourly_usage set_hourly_usage uq_hourly.

Definition lookback_hours : Z := 2.

(** The [try] block of [_process_hourly_aggregations]. *)
Definition process_hourly_body : M unit :=
  _get_database_connection ;;
  result <- query select_max_hour_end ;;
  let last_processed_ts :=
    match result with Some ts => ts | None => epoch_ts end in
  let start_processing_ts :=
    last_processed_ts - lookback_hours * usec_per_hour in
  logging DEBUG (Processing_hourly_data_since start_processing_ts) ;;
  hourly_data <- query (select_hourly_data start_processing_ts) ;;
  match hourly_data with
  | [] =>
      logging DEBUG No_new_hourly_data ;;
      conn_close
  | _ :: _ =>
      let hours_to_update :=
        nodup HourSlot_eq_dec
              (map (fun row => (g_date row, g_hour row)) hourly_data) in
      for_each hours_to_update (fun slot => execute (delete_hourly slot)) ;;
      for_each hourly_data (fun row =>
        category <- gets (fun w => get_category (manager w) (g_app_name row)) ;;
        insert_hourly_usage
          (mkHourly (g_date row) (g_hour row) (g_device_type row)
                    (g_app_name row) (g_website_url row) category
                    (g_total_seconds row) (g_event_count row))) ;;
      conn_commit ;;
      conn_close ;;
      logging INFO (Processed_hourly (List.length hourly_data)
                                     (List.length hours_to_update))
  end.

Definition _process_hourly_aggregations : M unit :=
  try_except process_hourly_body
    (fun e => logging ERROR (Error_processing_hourly e)).

(* ================================================================= *)
(** ** The daily aggregation *)

Definition DayKey : Type := (Z * string * string * option string * string)%type.

Definition DayKey_eq_dec (a b : DayKey) : {a = b} + {a <> b}.
Proof.
  repeat decide equality; try apply string_dec.
Defined.

Definition CatKey : Type := (Z * string * string)%type.

Definition CatKey_eq_dec (a b : CatKey) : {a = b} + {a <> b}.
Proof.
  repeat decide equality; try apply string_dec.
Defined.

Definition hourly_key (r : HourlyUsage) : DayKey :=
  (h_date r, h_device_type r, h_app_name r, h_website_url r, h_category r).

Definition daily_row (g : DayKey * list HourlyUsage) : DailyUsage :=
  let '(date, device, app, url, category, rows) := g in
  mkDaily date device app url category
          (sum_of h_total_seconds rows) (sum_of h_event_count rows).

Definition date_leb (a b : DailyUsage) : bool := d_date a <=? d_date b.

(** SELECT MAX(date) FROM daily_usage. *)
Definition select_max_date (db : Database) : option Z :=
  max_of (map d_date (daily_usage db)).

(** SELECT ..., SUM(total_seconds), SUM(event_count) FROM hourly_usage
    WHERE date >= ? GROUP BY date, device_type, app_name, website_url,
    category ORDER BY date. *)
Definition select_daily_data (start_processing_date : Z) (db : Database)
  : list DailyUsage :=
  order_by date_leb
    (map daily_row
       (group_by hourly_key DayKey_eq_dec
          (filter (fun r => start_processing_date <=? h_date r)
                  (hourly_usage db)))).

Definition daily_key (r : DailyUsage) : CatKey :=
  (d_date r, d_device_type r, d_category r).

Definition category_row (g : CatKey * list DailyUsage) : DailyCategoryUsage :=
  let '(date, device, category, rows) := g in
  mkDailyCat date device category (sum_of d_total_seconds rows).

(** SELECT date, device_type, category, SUM(total_seconds) FROM daily_usage
    WHERE date >= ? GROUP BY date, device_type, category. *)
Definition select_category_data (start_processing_date : Z) (db : Database)
  : list DailyCategoryUsage :=
  map category_row
    (group_by daily_key CatKey_eq_dec
       (filter (fun r => start_processing_date <=? d_date r)
               (daily_usage db))).

(** DELETE FROM daily_usage WHERE date = ?. *)
Definition delete_daily (date : Z) (db : Database) : Database :=
  set_daily_usage
    (filter (fun r => negb (d_date r =? date)) (daily_usage db)) db.

(** DELETE FROM daily_category_usage WHERE date = ?. *)
Definition delete_daily_category (date : Z) (db : Database) : Database :=
  set_daily_category_usage
    (filter (fun r => negb (c_date r =? date)) (daily_category_usage db)) db.

(** [uq_daily]: UNIQUE (date, device_type, app_name, website_url). *)
Definition uq_daily (a b : DailyUsage) : bool :=
  (d_date a =? d_date b)
  && String.eqb (d_device_type a) (d_device_type b)
  && String.eqb (d_app_name a) (d_app_name b)
  && unique_eqb (d_website_url a) (d_website_url b).

(** [uq_daily_cat]: UNIQUE (date, device_type, category). *)
Definition uq_daily_cat (a b : DailyCategoryUsage) : bool :=
  (c_date a =? c_date b)
  && String.eqb (c_device_type a) (c_device_type b)
  && String.eqb (c_category a) (c_category b).

Definition insert_daily_usage : DailyUsage -> M unit :=
  insert_into daily_usage set_daily_usage uq_daily.

Definition insert_daily_category_usage : DailyCategoryUsage -> M unit :=
  insert_into daily_category_usage set_daily_category_usage uq_daily_cat.

Definition lookback_days : Z := 1.

(** The [try] block of [_process_daily_aggregations]. *)
Definition process_daily_body : M unit :=
  _get_database_connection ;;
  result <- query select_max_date ;;
  let last_processed_date :=
    match result with Some d => d | None => epoch_date end in
  let start_processing_date := last_processed_date - lookback_days in
  logging DEBUG (Processing_daily_data_since start_processing_date) ;;
  daily_data <- query (select_daily_data start_processing_date) ;;
  match daily_data with
  | [] =>
      logging DEBUG No_new_daily_data ;;
      conn_close
  | _ :: _ =>
      let dates_to_update :=
        order_by Z.leb (nodup Z.eq_dec (map d_date daily_data)) in
      for_each dates_to_update (fun event_date =>
        execute (delete_daily event_date) ;;
        execute (delete_daily_category event_date)) ;;
      for_each daily_data insert_daily_usage ;;
      category_data <- query (select_category_data start_processing_date) ;;
      for_each category_data insert_daily_category_usage ;;
      conn_commit ;;
      conn_close ;;
      logging INFO (Processed_daily (List.length daily_data)
                                    (List.length category_data)
                                    (List.length dates_to_update))
  end.

Definition _process_daily_aggregations : M unit :=
  try_except process_daily_body
    (fun e => logging ERROR (Error_processing_daily e)).

(* ================================================================= *)
(** ** The app_categories table and the cycle *)

(** DELETE FROM app_categories. *)
Definition delete_app_categories (db : Database) : Database :=
  set_app_categories [] db.

(** [app_name] is UNIQUE. *)
Definition uq_app_category (a b : AppCategory) : bool :=
  String.eqb (a_app_name a) (a_app_name b).

Definition insert_app_category : AppCategory -> M unit :=
  insert_into app_categories set_app_categories uq_app_category.

(** The [try] block of [_update_app_categories_table]. *)
Definition update_app_categories_body : M unit :=
  _get_database_connection ;;
  execute delete_app_categories ;;
  mappings <- gets (fun w => Dict.items (app_mappings (manager w))) ;;
  for_each mappings (fun '(app_name, category) =>
    insert_app_category (mkAppCategory app_name category)) ;;
  conn_commit ;;
  conn_close ;;
  n <- gets (fun w => List.length (app_mappings (manager w))) ;;
  logging DEBUG (Updated_app_categories n).

Definition _update_app_categories_table : M unit :=
  try_except update_app_categories_body
    (fun e => logging ERROR (Error_updating_app_categories e)).

Definition process_all : M unit :=
  logging INFO Starting_cycle ;;
  load_categories ;;
  _update_app_categories_table ;;
  _process_hourly_aggregations ;;
  _process_daily_aggregations ;;
  logging INFO Cycle_completed.

(** [run_continuous], for as many ticks as [self.running] stays set; the
    sleep between two ticks is not modelled. *)
Fixpoint run_continuous (ticks : nat) : M unit :=
  match ticks with
  | O => ret tt
  | S n =>
      try_except process_all
        (fun e => logging ERROR (Error_in_processing_loop e)) ;;
      run_continuous n
  end.

Definition run_once : M unit := process_all.

Definition set_source (s : Source) (w : World) : World :=
  mkWorld s (manager w) (disk w) (txn w) (calls w) (storage_fault w) (log w).

(* ================================================================= *)
(** ** What a pass writes *)

(** The bucket the hourly pass inserts for a row of [hourly_data]. *)
Definition hourly_row (self : CategoryManager) (row : HourlyGroup)
  : HourlyUsage :=
  mkHourly (g_date row) (g_hour row) (g_device_type row) (g_app_name row)
           (g_website_url row) (get_category self (g_app_name row))
           (g_total_seconds row) (g_event_count row).

(** The lower end of the events the hourly pass selects. *)
Definition hourly_start (db : Database) : Z :=
  match select_max_hour_end db with Some ts => ts | None => epoch_ts end
  - lookback_hours * usec_per_hour.

Definition in_slots (slots : list (Z * Z)) (r : HourlyUsage) : bool :=
  existsb (fun slot => (h_date r =? fst slot) && (h_hour r =? snd slot)) slots.

(** The committed database of an hourly pass that reaches its commit:
    the buckets of every hour that has a selected event are replaced by
    the buckets of the selected events. *)
Definition hourly_pass (self : CategoryManager) (db : Database) : Database :=
  let hourly_data := select_hourly_data (hourly_start db) db in
  let slots := map (fun row => (g_date row, g_hour row)) hourly_data in
  set_hourly_usage
    (filter (fun r => negb (in_slots slots r)) (hourly_usage db)
     ++ map (hourly_row self) hourly_data) db.

(** The records an hourly pass that returns has logged. *)
Definition hourly_log (db : Database) : list LogRecord :=
  let start := hourly_start db in
  let hourly_data := select_hourly_data start db in
  (DEBUG, Processing_hourly_data_since start) ::
  match hourly_data with
  | [] => [(DEBUG, No_new_hourly_data)]
  | _ :: _ =>
      [(INFO, Processed_hourly
                (List.length hourly_data)
                (List.length
                   (nodup HourSlot_eq_dec
                      (map (fun row => (g_date row, g_hour row)) hourly_data))))]
  end.

(** The lower end of the dates the daily pass selects. *)
Definition daily_start (db : Database) : Z :=
  match select_max_date db with Some d => d | None => epoch_date end
  - lookback_days.

Definition in_dates (dates : list Z) (date : Z) : bool :=
  existsb (fun d => date =? d) dates.

(** What the daily pass writes once it has found [daily_data]. *)
Definition daily_replace (start : Z) (daily_data : list DailyUsage)
  (db : Database) : Database :=
  let dates := map d_date daily_data in
  let db1 :=
    set_daily_usage
      (filter (fun r => negb (in_dates dates (d_date r))) (daily_usage db)
       ++ daily_data) db in
  set_daily_category_usage
    (filter (fun r => negb (in_dates dates (c_date r)))
            (daily_category_usage db)
     ++ select_category_data start db1) db1.

(** The committed database of a daily pass that returns: untouched when
    no hourly bucket is selected, else with the rows of every selected
    date replaced. *)
Definition daily_pass (db : Database) : Database :=
  let start := daily_start db in
  match select_daily_data start db with
  | [] => db
  | row :: rows => daily_replace start (row :: rows) db
  end.

(** The records a daily pass that returns has logged. *)
Definition daily_log (db : Database) : list LogRecord :=
  let start := daily_start db in
  let daily_data := select_daily_data start db in
  (DEBUG, Processing_daily_data_since start) ::
  match daily_data with
  | [] => [(DEBUG, No_new_daily_data)]
  | _ :: _ =>
      [(INFO, Processed_daily
                (List.length daily_data)
                (List.length
                   (select_category_data start
                      (set_daily_usage
                         (filter (fun r => negb (in_dates (map d_date daily_data)
                                                          (d_date r)))
                                 (daily_usage db) ++ daily_data) db)))
                (List.length
                   (order_by Z.leb (nodup Z.eq_dec (map d_date daily_data)))))]
  end.

(** The row of app_categories for an entry of the flattened map. *)
Definition app_category_row (entry : string * string) : AppCategory :=
  mkAppCategory (fst entry) (snd entry).

(** The world in which the hourly stage of the second cycle starts. *)
Definition before_hourly_stage (w : World) : World :=
  state_of (_update_app_categories_table
    (state_of (load_categories (add_log (INFO, Starting_cycle) w)))).

(* ================================================================= *)
(** ** Keys, hours and the lookback window *)

(** The columns of [uq_hourly] in a row of [hourly_data]. *)
Definition group_key (g : HourlyGroup) : HourKey :=
  (g_date g, g_hour g, g_device_type g, g_app_name g, g_website_url g).

(** The key of a bucket: the columns of [uq_hourly]. *)
Definition bucket_key (r : HourlyUsage) : HourKey :=
  (h_date r, h_hour r, h_device_type r, h_app_name r, h_website_url r).

(** All events of the key of [e]. *)
Definition events_of_key (e : Event) (evs : list Event) : list Event :=
  filter (same_key event_key HourKey_eq_dec (event_key e)) evs.

(** The bucket of the key of [e] as the hourly pass writes it from the
    events [contributing]. *)
Definition bucket_of (self : CategoryManager) (e : Event)
  (contributing : list Event) : HourlyUsage :=
  mkHourly (strftime_date (timestamp e)) (strftime_hour (timestamp e))
           (device_type e) (app_name e) (website_url e)
           (get_category self (app_name e))
           (sum_of duration_seconds contributing) (count_of contributing).

(** The hour a bucket stands for, counted from 1970-01-01 00:00. *)
Definition hour_index (date hour : Z) : Z := date * 24 + hour.

(** The first hour of the lookback window of a pass. *)
Definition window_hour (db : Database) : Z :=
  (hourly_start db + usec_per_second) / usec_per_hour.

(** The buckets of the hourly data from the hour [from] on. *)
Definition from_hour (from : Z) (g : HourlyGroup) : bool :=
  from <=? hour_index (g_date g) (g_hour g).

(** An event written at or after the epoch and not in the last second of
    an hour past its start: not strictly between hh:59:59 and the next
    full hour. *)
Definition off_boundary (e : Event) : Prop :=
  0 <= timestamp e /\
  (timestamp e) mod usec_per_hour <= 3599 * usec_per_second.




(* ================================================================= *)
(** ** Predicates on runs *)

(** Everything of the world but the connection's view and the call
    counter. *)
Definition frame (w w' : World) : Prop :=
  source w' = source w /\ manager w' = manager w /\ disk w' = disk w /\
  storage_fault w' = storage_fault w /\ log w' = log w.

(** [post m w Qd Qr]: run from [w], [m] ends in a state that satisfies
    [Qd] when it returns and [Qr] when it raises. *)
Definition post {A} (m : M A) (w : World)
  (Qd : A -> World -> Prop) (Qr : exn -> World -> Prop) : Prop :=
  match m w with
  | Done a w' => Qd a w'
  | Raised e w' => Qr e w'
  end.

(** What a stage leaves untouched when its [try] block raises: all but
    the log, the connection's view and the call counter. *)
Definition rolled_back (w w' : World) : Prop :=
  source w' = source w /\ manager w' = manager w /\ disk w' = disk w /\
  storage_fault w' = storage_fault w /\
  exists records, log w' = log w ++ records /\
                  forall r, In r records -> fst r = DEBUG.

(** [m] leaves the committed database alone. *)
Definition keeps_disk {A} (m : M A) : Prop :=
  forall w, disk (state_of (m w)) = disk w.

(** A storage that never fails. *)
Definition fault_free (w : World) : Prop :=
  forall n, storage_fault w n = false.

(* ================================================================= *)
(** ** Daily totals and the states of a running pipeline *)

Definition no_fault : nat -> bool := fun _ => false.

Definition empty_database (evs : list Event) : Database :=
  mkDatabase evs [] [] [] [].

(** The world in which a [DataProcessor] is constructed over a database
    that holds [evs] and no aggregate yet. *)
Definition fresh (src : Source) (evs : list Event) (fault : nat -> bool)
  : World :=
  mkWorld src (mkCategoryManager (PDict []) Dict.empty)
          (empty_database evs) (empty_database evs) 0 fault [].

(** SUM(total_seconds) over the rows of daily_usage with [date = d]. *)
Definition usage_total_on (d : Z) (t : list DailyUsage) : Z :=
  sum_of d_total_seconds (filter (fun r => d_date r =? d) t).

(** SUM(total_seconds) over the rows of daily_category_usage with
    [date = d]. *)
Definition category_total_on (d : Z) (t : list DailyCategoryUsage) : Z :=
  sum_of c_total_seconds (filter (fun r => c_date r =? d) t).

(** What can happen to the world of a processor: the collector appends
    an event, the category file or the mapping in memory changes, a stage
    of the cycle runs, a record is logged. *)
Inductive step : World -> World -> Prop :=
| step_event (e : Event) (w : World) :
    step w (set_disk (add_event e (disk w)) w)
| step_source (s : Source) (w : World) :
    step w (set_source s w)
| step_manager (m : CategoryManager) (w : World) :
    step w (set_manager m w)
| step_log (r : LogRecord) (w : World) :
    step w (add_log r w)
| step_load (w : World) :
    step w (state_of (load_categories w))
| step_update (w : World) :
    step w (state_of (_update_app_categories_table w))
| step_hourly (w : World) :
    step w (state_of (_process_hourly_aggregations w))
| step_daily (w : World) :
    step w (state_of (_process_daily_aggregations w)).

(** The worlds a processor gets into, started over a database without
    aggregates. *)
Inductive reachable : World -> Prop :=
| reachable_fresh (src : Source) (evs : list Event) (fault : nat -> bool) :
    reachable (fresh src evs fault)
| reachable_step (w w' : World) :
    reachable w -> step w w' -> reachable w'.

(** The invariant of the daily tables: the totals per date agree, and
    every date of daily_usage is a date of hourly_usage. *)
Definition daily_consistent (db : Database) : Prop :=
  (forall d, category_total_on d (daily_category_usage db)
             = usage_total_on d (daily_usage db)) /\
  (forall r, In r (daily_usage db) ->
             exists h, In h (hourly_usage db) /\ h_date h = d_date r).

(* ================================================================= *)
(** ** Complete buckets *)

(** Every event is counted: hourly_usage holds, for each event, the
    bucket of its key built from all events of the key. *)
Definition hourly_complete (self : CategoryManager) (db : Database) : Prop :=
  forall e, In e (events db) ->
            In (bucket_of self e (events_of_key e (events db)))
               (hourly_usage db).

(** No bucket without an event: every row of hourly_usage has the key
    of an event. *)
Definition buckets_have_events (db : Database) : Prop :=
  forall r, In r (hourly_usage db) ->
            exists e, In e (events db) /\ bucket_key r = event_key e.

(** The collector appends the events [es]. *)
Definition add_events (es : list Event) (db : Database) : Database :=
  fold_left (fun db e => add_event e db) es db.

(* ================================================================= *)
(** ** Keys and totals of the daily tables *)

(** The hourly buckets the daily pass selects. *)
Definition daily_selected (db : Database) : list HourlyUsage :=
  filter (fun r => daily_start db <=? h_date r) (hourly_usage db).

(** The daily bucket the pass writes for the key of the hourly bucket
    [h], from the hourly buckets [contributing]. *)
Definition daily_bucket_of (h : HourlyUsage) (contributing : list HourlyUsage)
  : DailyUsage :=
  mkDaily (h_date h) (h_device_type h) (h_app_name h) (h_website_url h)
          (h_category h)
          (sum_of h_total_seconds contributing)
          (sum_of h_event_count contributing).

(** The columns the daily SELECT groups by. *)
Definition daily_group_key (r : DailyUsage) : DayKey :=
  (d_date r, d_device_type r, d_app_name r, d_website_url r, d_category r).


Definition category_key (r : DailyCategoryUsage) : CatKey :=
  (c_date r, c_device_type r, c_category r).

(** Two hourly buckets that the daily pass groups apart and [uq_daily]
    takes for one row: they agree on date, device_type, app_name and a
    website_url that is not NULL, and differ in category. *)
Definition splits_category (a b : HourlyUsage) : bool :=
  (h_date a =? h_date b)
  && String.eqb (h_device_type a) (h_device_type b)
  && String.eqb (h_app_name a) (h_app_name b)
  && unique_eqb (h_website_url a) (h_website_url b)
  && negb (String.eqb (h_category a) (h_category b)).

Definition category_split (rows : list HourlyUsage) : bool :=
  existsb (fun a => existsb (splits_category a) rows) rows.

(** SUM(total_seconds) over the rows of hourly_usage with [date = d]. *)
Definition hourly_total_on (d : Z) (t : list HourlyUsage) : Z :=
  sum_of h_total_seconds (filter (fun r => h_date r =? d) t).

(** SUM(duration_seconds) over the events of the date [d]. *)
Definition event_total_on (d : Z) (evs : list Event) : Z :=
  sum_of duration_seconds
         (filter (fun e => strftime_date (timestamp e) =? d) evs).

(** One row per key in each table of aggregates, rows with a NULL
    website_url included. *)
Definition one_row_per_key (db : Database) : Prop :=
  NoDup (map bucket_key (hourly_usage db)) /\
  NoDup (map daily_group_key (daily_usage db)) /\
  NoDup (map category_key (daily_category_usage db)).

(** Every bucket lies in an hour of the day and stands for at least one
    event. *)
Definition well_formed_buckets (db : Database) : Prop :=
  (forall r, In r (hourly_usage db) ->
             0 <= h_hour r < 24 /\ 1 <= h_event_count r) /\
  (forall r, In r (daily_usage db) -> 1 <= d_event_count r).

(* ================================================================= *)
(** ** The flattened map *)

(** [m] leaves the part [proj] of the world alone. *)
Definition preserves {A B} (proj : World -> B) (m : M A) : Prop :=
  forall w, proj (state_of (m w)) = proj w.

(** Everything of the world that is neither the manager nor the log. *)
Definition outside_manager (w : World)
  : Source * Database * Database * nat * (nat -> bool) :=
  (source w, disk w, txn w, calls w, storage_fault w).

(** The keys of a flattened map are lowered names. *)
Definition lowered (m : Dict.t string) : Prop :=
  forall k, In k (Dict.keys m) -> Str.lower k = k.

(** What the two loops of [load_categories] build from categories that
    list the apps [apps], in the order of the file. *)
Definition flatten_apps (category : string) (apps : list string)
  (m : Dict.t string) : Dict.t string :=
  fold_left (fun m app => Dict.set (Str.lower app) category m) apps m.

Definition flatten_from (cats : list (string * list string))
  (m : Dict.t string) : Dict.t string :=
  fold_left (fun m '(category, apps) => flatten_apps category apps m) cats m.

Definition flatten (cats : list (string * list string)) : Dict.t string :=
  flatten_from cats Dict.empty.

(** [info] is an object whose "apps" is the list of the strings [apps]. *)
Definition lists_apps (info : pyobj) (apps : list string) : Prop :=
  exists d, info = PDict d /\
            Dict.get "apps" d = Some (PList (map PStr apps)).

(** [entries] are the categories [cats], name by name. *)
Definition categories_of (entries : list (string * pyobj))
  (cats : list (string * list string)) : Prop :=
  Forall2 (fun e c => fst e = fst c /\ lists_apps (snd e) (snd c))
          entries cats.

(* ================================================================= *)
(** ** Example inputs *)

(** The category file
    {"categories": {"Work": {"apps": ["code"]},
                    "Browsers": {"apps": ["codefire"]}}}. *)
Definition priority_rules : Source :=
  Content (PDict [("categories",
    PDict [("Work", PDict [("apps", PList [PStr "code"])]);
           ("Browsers", PDict [("apps", PList [PStr "codefire"])])])]).

(** A processor that loaded [priority_rules], after which the category
    file was removed. *)
Definition source_removed : World :=
  set_source Missing
    (state_of (CategoryManager_init (fresh priority_rules [] no_fault))).

(** One event at 10:05 on 2024-01-01 and one at 10:50 whose duration is
    negative. *)
Definition negative_duration_events : list Event :=
  [mkEvent (at_time 19723 10 5 0 0) "desktop" "firefox" None 30;
   mkEvent (at_time 19723 10 50 0 0) "desktop" "firefox" None (-20)].

(** A database with one bucket, and a storage that fails on the fifth
    call of the pass (the INSERT, after the DELETE went through). *)
Definition interrupted_pass : World :=
  mkWorld Missing (mkCategoryManager (PDict []) Dict.empty)
    (mkDatabase negative_duration_events
       [mkHourly 19723 10 "desktop" "firefox" None "Other" 30 1] [] [] [])
    (mkDatabase [] [] [] [] [])
    0 (fun n => Nat.eqb n 4) [].

(** One event at 10:05 on 2024-01-01. *)
Definition one_event : list Event :=
  [mkEvent (at_time 19723 10 5 0 0) "desktop" "firefox" None 30].

(** A processor over [one_event] whose storage fails twice: on the tenth
    call, which is the connect of the daily stage of the first cycle, and
    on the fourteenth, the connect of the hourly stage of the second. *)
Definition after_first_cycle : World :=
  state_of (process_all
    (fresh Missing one_event (fun n => Nat.eqb n 9 || Nat.eqb n 13))).

(** Three events of 2024-01-01, as the collector writes them: at
    08:30:00, at 08:59:59.500000 and at 10:05:00. *)
Definition boundary_events : list Event :=
  [mkEvent (at_time 19723 8 30 0 0) "desktop" "firefox" None 10;
   mkEvent (at_time 19723 8 59 59 500000) "desktop" "firefox" None 10;
   mkEvent (at_time 19723 10 5 0 0) "desktop" "firefox" None 10].

(** Two events, at 08:30:00 and at 10:05:00, and an event that is written
    late, at 08:59:59.500000. *)
Definition early_events : list Event :=
  [mkEvent (at_time 19723 8 30 0 0) "desktop" "firefox" None 10;
   mkEvent (at_time 19723 10 5 0 0) "desktop" "firefox" None 10].

Definition late_event : Event :=
  mkEvent (at_time 19723 8 59 59 500000) "desktop" "firefox" None 7.

(** The bucket of an hour of 2024-01-01 for firefox on the desktop. *)
Definition firefox_bucket (hour total count : Z) : HourlyUsage :=
  mkHourly 19723 hour "desktop" "firefox" None "Other" total count.

(** A database whose only event, at 08:30, lies before the lookback
    window of its buckets (hours 8 and 10 of 2024-01-01). *)
Definition settled_world : World :=
  mkWorld Missing (mkCategoryManager (PDict []) Dict.empty)
    (mkDatabase
       [mkEvent (at_time 19723 8 30 0 0) "desktop" "firefox" None 10]
       [firefox_bucket 8 10 1; firefox_bucket 10 10 1] [] [] [])
    (mkDatabase [] [] [] [] [])
    0 no_fault [].

(** Two buckets of one page of 2024-01-01, written under different
    category files: hour 8 as Other, hour 10 as Browsers. *)
Definition split_category_world : World :=
  mkWorld Missing (mkCategoryManager (PDict []) Dict.empty)
    (mkDatabase []
       [mkHourly 19723 8 "desktop" "firefox" (Some "github.com") "Other" 10 1;
        mkHourly 19723 10 "desktop" "firefox" (Some "github.com") "Browsers"
                 10 1]
       [] [] [])
    (mkDatabase [] [] [] [] [])
    0 no_fault [].

(** Two events of 2024-01-01 at 09:10 and 10:05, and one of the same app
    that is written late, at 09:20. *)
Definition morning_events : list Event :=
  [mkEvent (at_time 19723 9 10 0 0) "desktop" "firefox" None 10;
   mkEvent (at_time 19723 10 5 0 0) "desktop" "firefox" None 10].

Definition late_morning_event : Event :=
  mkEvent (at_time 19723 9 20 0 0) "desktop" "firefox" None 7.

(** The categories {"Browsers": {"apps": ["firefox"]},
                    "Work": {"apps": ["chrome"]}} in memory. *)
Definition chrome_at_work : CategoryManager :=
  mkCategoryManager
    (PDict [("Browsers", PDict [("apps", PList [PStr "firefox"])]);
            ("Work", PDict [("apps", PList [PStr "chrome"])])])
    [("firefox", "Browsers"); ("chrome", "Work")].

(** A processor whose app_categories table was written under an older
    category file, while the file now reads [priority_rules]. *)
Definition stale_app_categories : World :=
  mkWorld priority_rules (mkCategoryManager (PDict []) Dict.empty)
    (mkDatabase one_event [] [] []
       [mkAppCategory "slack" "Chat"; mkAppCategory "code" "Games"])
    (mkDatabase [] [] [] [] [])
    0 no_fault [].


(* ================================================================= *)
(** * Properties *)

(* ================================================================= *)
(** ** Strings and dictionaries *)

Lemma startswith_app (p s : string) :
  Str.startswith s p = true <-> exists after, s = (p ++ after)%string.
Proof.
  revert s; induction p as [|a p IH]; intros s; simpl.
  - split; [intros _; exists s; reflexivity | reflexivity].
  - destruct s as [|b s].
    + split; [discriminate | intros [x Hx]; discriminate].
    + destruct (Ascii.eqb a b) eqn:E.
      * apply Ascii.eqb_eq in E; subst b. rewrite IH.
        split; intros [x Hx]; exists x; [now rewrite Hx | now inversion Hx].
      * apply Ascii.eqb_neq in E.
        split; [discriminate | intros [x Hx]; inversion Hx; congruence].
Qed.

Lemma contains_unfold (p s : string) :
  Str.contains p s =
  if Str.startswith s p then true
  else match s with
       | EmptyString => false
       | String _ s' => Str.contains p s'
       end.
Proof. destruct s; reflexivity. Qed.

Lemma contains_substring_of (p s : string) :
  Str.contains p s = true <-> Str.substring_of p s.
Proof.
  unfold Str.substring_of; split.
  - induction s as [|c s IH]; rewrite contains_unfold;
      destruct (Str.startswith _ p) eqn:E.
    + intros _. apply startswith_app in E as [x ->]. now exists EmptyString, x.
    + discriminate.
    + intros _. apply startswith_app in E as [x ->]. now exists EmptyString, x.
    + intros H. destruct (IH H) as (b & a & ->). now exists (String c b), a.
  - intros (b & a & ->). induction b as [|c b IH]; rewrite contains_unfold.
    + replace (Str.startswith _ p) with true; [reflexivity|].
      symmetry. apply startswith_app. now exists a.
    + simpl String.append. destruct (Str.startswith _ p); [reflexivity | exact IH].
Qed.

Lemma contains_false (p s : string) :
  Str.contains p s = false <-> ~ Str.substring_of p s.
Proof.
  rewrite <- contains_substring_of. destruct (Str.contains p s); intuition congruence.
Qed.

Lemma dict_get_in {V} (k : string) (v : V) (d : Dict.t V) :
  Dict.get k d = Some v -> In (k, v) d.
Proof.
  induction d as [|[k' v'] d IH]; simpl; [discriminate|].
  destruct (String.eqb k k') eqn:E.
  - apply String.eqb_eq in E; subst. intros [= ->]. now left.
  - intros H. right. now apply IH.
Qed.

Lemma dict_get_none {V} (k : string) (d : Dict.t V) :
  Dict.get k d = None <-> ~ In k (Dict.keys d).
Proof.
  induction d as [|[k' v'] d IH]; simpl; [tauto|].
  destruct (String.eqb k k') eqn:E.
  - apply String.eqb_eq in E; subst. split; [discriminate | tauto].
  - apply String.eqb_neq in E. rewrite IH. intuition congruence.
Qed.

Lemma dict_in_get {V} (k : string) (v : V) (d : Dict.t V) :
  Dict.wf d -> In (k, v) d -> Dict.get k d = Some v.
Proof.
  unfold Dict.wf, Dict.keys.
  induction d as [|[k' v'] d IH]; simpl; [tauto|].
  intros Hnd Hin. inversion Hnd as [|? ? Hk' Hd]; subst.
  destruct Hin as [[= -> ->] | Hin].
  - now rewrite String.eqb_refl.
  - destruct (String.eqb k k') eqn:E; [|now apply IH].
    apply String.eqb_eq in E; subst k'.
    exfalso. apply Hk'. change k with (fst (k, v)). now apply in_map.
Qed.

Lemma dict_keys_set {V} (k : string) (v : V) (d : Dict.t V) :
  Dict.keys (Dict.set k v d) =
  if Dict.mem k d then Dict.keys d else Dict.keys d ++ [k].
Proof.
  unfold Dict.mem, Dict.keys.
  induction d as [|[k' v'] d IH]; simpl; [reflexivity|].
  destruct (String.eqb k k') eqn:E; simpl; [reflexivity|].
  rewrite IH. now destruct (Dict.get k d).
Qed.

Lemma dict_wf_set {V} (k : string) (v : V) (d : Dict.t V) :
  Dict.wf d -> Dict.wf (Dict.set k v d).
Proof.
  unfold Dict.wf. rewrite dict_keys_set. unfold Dict.mem.
  destruct (Dict.get k d) eqn:E; [tauto|].
  intros H. apply dict_get_none in E.
  apply NoDup_app; [assumption | repeat constructor; simpl; tauto |].
  intros x Hx [<-|[]]. tauto.
Qed.

Lemma partial_match_first (items before after : list (string * string))
  (pattern category s : string) :
  items = before ++ (pattern, category) :: after ->
  Str.contains pattern s = true ->
  (forall p c, In (p, c) before -> Str.contains p s = false) ->
  partial_match items s = Some category.
Proof.
  intros -> Hp. induction before as [|[p c] before IH]; simpl; intros Hb.
  - now rewrite Hp.
  - rewrite (Hb p c) by now left. apply IH. intros p' c' H'; apply (Hb p' c'); now right.
Qed.

Lemma partial_match_none (items : list (string * string)) (s : string) :
  (forall p c, In (p, c) items -> Str.contains p s = false) ->
  partial_match items s = None.
Proof.
  induction items as [|[p c] items IH]; simpl; intros H; [reflexivity|].
  rewrite (H p c) by now left. apply IH. intros p' c' H'; apply (H p' c'); now right.
Qed.

Lemma truthy_false (s : string) : Str.truthy s = false <-> s = EmptyString.
Proof. destruct s; simpl; split; congruence. Qed.

(* ================================================================= *)
(** ** Category resolution *)

(** C3.  [get_category] returns "Other" for the empty name; for any other
    name it resolves in this order: the category stored under the lowered
    name when that is a key of the flattened map; otherwise the category
    of the first pattern, in the order of the map, that occurs in the
    lowered name; otherwise "Other". *)
Theorem get_category_resolution_order (self : CategoryManager)
  (name : string) :
  Dict.wf (app_mappings self) ->
  let m := app_mappings self in
  let app_lower := Str.lower name in
  (name = EmptyString -> get_category self name = "Other") /\
  (name <> EmptyString ->
     (forall category,
        In (app_lower, category) (Dict.items m) ->
        get_category self name = category) /\
     (~ In app_lower (Dict.keys m) ->
        (forall before pattern category after,
           Dict.items m = before ++ (pattern, category) :: after ->
           Str.substring_of pattern app_lower ->
           (forall p c, In (p, c) before -> ~ Str.substring_of p app_lower) ->
           get_category self name = category) /\
        ((forall p c, In (p, c) (Dict.items m) ->
                      ~ Str.substring_of p app_lower) ->
         get_category self name = "Other"))).
Proof.
  intros Hwf. cbv zeta. unfold get_category. split.
  - intros ->. reflexivity.
  - intros Hne.
    assert (Ht : Str.truthy name = true).
    { destruct (Str.truthy name) eqn:E; [reflexivity|].
      apply truthy_false in E. contradiction. }
    rewrite Ht; cbn [negb]. split.
    + intros category Hin. unfold Dict.items in Hin.
      now rewrite (dict_in_get _ _ Hwf Hin).
    + intros Hkey. apply dict_get_none in Hkey. rewrite Hkey. split.
      * intros before pattern category after Hm Hsub Hbefore.
        erewrite partial_match_first; eauto.
        -- now apply contains_substring_of.
        -- intros p c Hin. apply contains_false. eauto.
      * intros Hnone. rewrite partial_match_none; [reflexivity|].
        intros p c Hin. apply contains_false. eauto.
Qed.

Lemma get_category_resolution_order_witness :
  Dict.wf [("code", "Work"); ("fire", "Browsers")] /\
  get_category (mkCategoryManager (PDict [])
                  [("code", "Work"); ("fire", "Browsers")]) "FireFox"
  = "Browsers".
Proof.
  assert (Hwf : Dict.wf [("code", "Work"); ("fire", "Browsers")]).
  { unfold Dict.wf; simpl. repeat constructor; simpl; intuition discriminate. }
  split; [exact Hwf|].
  pose proof (get_category_resolution_order
                (mkCategoryManager (PDict [])
                   [("code", "Work"); ("fire", "Browsers")]) "FireFox" Hwf)
    as [_ H].
  destruct H as [_ H]; [discriminate|].
  destruct H as [H _]; [simpl; intuition discriminate|].
  apply (H [("code", "Work")] "fire" "Browsers" []).
  - reflexivity.
  - now exists EmptyString, "fox".
  - intros p c [[= <- <-]|[]]. apply contains_false. reflexivity.
Defined.

(** C4 (as stated).  With the rules {"Work": ["code"], "Browsers":
    ["codefire"]} loaded, [get_category] does not return "Work" for
    "CodeFire". *)
Lemma codefire_is_not_work :
  let w := state_of (load_categories (fresh priority_rules [] no_fault)) in
  app_mappings (manager w) = [("code", "Work"); ("codefire", "Browsers")] /\
  get_category (manager w) "CodeFire" <> "Work".
Proof. split; [reflexivity | discriminate]. Qed.

(** C4 (amended).  With the rules {"Work": ["code"], "Browsers":
    ["codefire"]} loaded, whatever was loaded before, the flattened map
    sends "code" to "Work" and "codefire" to "Browsers", and
    [get_category] returns "Browsers" for "CodeFire": the lowered name is
    a key of the map, and the exact match wins over the pattern "code". *)
Theorem codefire_is_browsers (w : World) :
  let w' := state_of (load_categories (set_source priority_rules w)) in
  app_mappings (manager w') = [("code", "Work"); ("codefire", "Browsers")] /\
  get_category (manager w') "CodeFire" = "Browsers".
Proof. split; reflexivity. Qed.

(** Without the entry for "codefire" the pattern "code" decides. *)
Lemma codefire_by_pattern :
  get_category (mkCategoryManager (PDict []) [("code", "Work")]) "CodeFire"
  = "Work".
Proof. reflexivity. Qed.

(** C7 (as stated).  After a load that finds the file missing, a rule
    loaded earlier is still in effect: "code" resolves to "Work", not to
    "Other". *)
Lemma missing_source_keeps_rules :
  source source_removed = Missing /\
  get_category (manager (state_of (load_categories source_removed))) "code"
  <> "Other".
Proof. split; [reflexivity | discriminate]. Qed.

Lemma logging_done (lvl : Level) (msg : Message) (w : World) :
  logging lvl msg w = Done tt (add_log (lvl, msg) w).
Proof. reflexivity. Qed.

(** C7 (amended).  [load_categories] never raises.  When the file is
    missing, cannot be parsed, or holds a value that is not an object,
    the categories and the flattened map stay as they were before the
    call and one record is logged; for a processor that has just been
    constructed that is the empty rule set, under which [get_category]
    returns "Other" for every name. *)
Theorem load_categories_fails_soft (w : World) :
  (exists w', load_categories w = Done tt w') /\
  ((source w = Missing \/ source w = Malformed \/
    (exists data, source w = Content data /\ forall d, data <> PDict d)) ->
   (exists r, state_of (load_categories w) = add_log r w) /\
   manager (state_of (load_categories w)) = manager w /\
   forall name,
     get_category (manager (state_of (CategoryManager_init w))) name = "Other").
Proof.
  split.
  - unfold load_categories, try_except.
    destruct (load_categories_body w) as [[] w' | e w'];
      eexists; reflexivity.
  - intros H.
    assert (Hsrc : forall m,
      exists r, state_of (load_categories (set_manager m w))
                = add_log r (set_manager m w)).
    { intros m. destruct w as [src mgr dk tx cl sf lg]; simpl in H.
      unfold load_categories, try_except, load_categories_body, bind, gets.
      destruct H as [-> | [-> | (data & -> & Hd)]]; simpl; eauto.
      destruct data; simpl; eauto. now destruct (Hd d). }
    assert (Hrun : exists r, state_of (load_categories w) = add_log r w).
    { destruct (Hsrc (manager w)) as [r Hr]. exists r.
      destruct w; exact Hr. }
    split; [exact Hrun|]. split.
    + destruct Hrun as [r ->]. reflexivity.
    + intros name.
      destruct (Hsrc (mkCategoryManager (PDict []) Dict.empty)) as [r Hr].
      unfold CategoryManager_init, bind, modify. rewrite Hr.
      unfold get_category; simpl. now destruct (Str.truthy name).
Qed.

Lemma load_categories_fails_soft_witness :
  source source_removed = Missing /\
  manager (state_of (load_categories source_removed)) = manager source_removed.
Proof.
  split; [reflexivity|].
  apply (load_categories_fails_soft source_removed). now left.
Defined.

(* ================================================================= *)
(** ** Reasoning about statements *)

Lemma frame_refl (w : World) : frame w w.
Proof. repeat split. Qed.

Lemma frame_trans (w1 w2 w3 : World) : frame w1 w2 -> frame w2 w3 -> frame w1 w3.
Proof. unfold frame. intuition congruence. Qed.

Lemma frame_add_log (r : LogRecord) (w w' : World) :
  frame w w' -> frame (add_log r w) (add_log r w').
Proof. unfold frame; simpl. intuition congruence. Qed.

#[local] Hint Resolve frame_refl frame_trans : core.

Lemma post_bind {A B} (m : M A) (k : A -> M B) (w : World)
  (Qd : B -> World -> Prop) (Qr : exn -> World -> Prop) :
  post m w (fun a w1 => post (k a) w1 Qd Qr) Qr -> post (bind m k) w Qd Qr.
Proof. unfold post, bind. destruct (m w); auto. Qed.

Lemma post_weaken {A} (m : M A) (w : World)
  (Qd Qd' : A -> World -> Prop) (Qr Qr' : exn -> World -> Prop) :
  post m w Qd Qr ->
  (forall a w', Qd a w' -> Qd' a w') ->
  (forall e w', Qr e w' -> Qr' e w') ->
  post m w Qd' Qr'.
Proof. unfold post. destruct (m w); auto. Qed.

(** Sequencing with a known behaviour of the first statement. *)
Lemma post_seq {A B} (m : M A) (k : A -> M B) (w : World)
  (Pd : A -> World -> Prop) (Pr : exn -> World -> Prop)
  (Qd : B -> World -> Prop) (Qr : exn -> World -> Prop) :
  post m w Pd Pr ->
  (forall a w1, Pd a w1 -> post (k a) w1 Qd Qr) ->
  (forall e w1, Pr e w1 -> Qr e w1) ->
  post (bind m k) w Qd Qr.
Proof. intros H Hd Hr. apply post_bind. eapply post_weaken; eauto. Qed.

Lemma post_ret {A} (a : A) (w : World)
  (Qd : A -> World -> Prop) (Qr : exn -> World -> Prop) :
  Qd a w -> post (ret a) w Qd Qr.
Proof. auto. Qed.

Lemma post_storage_call (w : World) :
  post storage_call w (fun _ w' => frame w w' /\ txn w' = txn w)
       (fun _ w' => frame w w').
Proof.
  unfold post, storage_call. destruct (storage_fault w (calls w));
    repeat split.
Qed.

Lemma post_connect (w : World) :
  post _get_database_connection w
       (fun _ w' => frame w w' /\ txn w' = disk w) (fun _ w' => frame w w').
Proof.
  unfold post, _get_database_connection, bind, storage_call, modify.
  destruct (storage_fault w (calls w)); repeat split.
Qed.

Lemma post_query {A} (f : Database -> A) (w : World) :
  post (query f) w
       (fun a w' => a = f (txn w) /\ frame w w' /\ txn w' = txn w)
       (fun _ w' => frame w w').
Proof.
  unfold post, query, bind, storage_call, gets.
  destruct (storage_fault w (calls w)); repeat split.
Qed.

Lemma post_execute (f : Database -> Database) (w : World) :
  post (execute f) w
       (fun _ w' => frame w w' /\ txn w' = f (txn w))
       (fun _ w' => frame w w').
Proof.
  unfold post, execute, bind, storage_call, modify.
  destruct (storage_fault w (calls w)); repeat split.
Qed.

Lemma post_insert_into {Row} (table : Database -> list Row)
  (set_table : list Row -> Database -> Database)
  (conflict : Row -> Row -> bool) (r : Row) (w : World) :
  post (insert_into table set_table conflict r) w
       (fun _ w' => frame w w' /\
                    existsb (conflict r) (table (txn w)) = false /\
                    txn w' = set_table (table (txn w) ++ [r]) (txn w))
       (fun _ w' => frame w w').
Proof.
  unfold post, insert_into, bind, storage_call, modify, gets, raise.
  destruct (storage_fault w (calls w)); simpl; [repeat split|].
  destruct (existsb (conflict r) (table (txn w))) eqn:E; repeat split; auto.
Qed.

Lemma post_commit (w : World) :
  post conn_commit w
       (fun _ w' => disk w' = txn w /\ source w' = source w /\
                    manager w' = manager w /\
                    storage_fault w' = storage_fault w /\ log w' = log w)
       (fun _ w' => frame w w').
Proof.
  unfold post, conn_commit, bind, storage_call, modify.
  destruct (storage_fault w (calls w)); repeat split.
Qed.

Lemma post_logging (lvl : Level) (msg : Message) (w : World)
  (Qd : unit -> World -> Prop) (Qr : exn -> World -> Prop) :
  Qd tt (add_log (lvl, msg) w) -> post (logging lvl msg) w Qd Qr.
Proof. auto. Qed.

(** A loop of writes: [Done] after all of them, in order. *)
Lemma post_for_each_execute {A} (f : A -> Database -> Database)
  (xs : list A) (w : World) :
  post (for_each xs (fun x => execute (f x))) w
       (fun _ w' => frame w w' /\
                    txn w' = fold_left (fun db x => f x db) xs (txn w))
       (fun _ w' => frame w w').
Proof.
  revert w; induction xs as [|x xs IH]; intros w; simpl.
  - apply post_ret; auto.
  - eapply post_seq; [apply post_execute | | eauto].
    intros _ w1 [Hf Ht]. eapply post_weaken; [apply IH | |]; simpl.
    + intros _ w2 [Hf2 Ht2]. split; [eauto | congruence].
    + eauto.
Qed.

(** A loop of inserts: [Done] only if none of them hit the constraint. *)
Lemma post_for_each_insert {Row} (table : Database -> list Row)
  (set_table : list Row -> Database -> Database)
  (conflict : Row -> Row -> bool) (rows : list Row) (w : World) :
  (forall t db, table (set_table t db) = t) ->
  (forall t t' db, set_table t (set_table t' db) = set_table t db) ->
  (forall db, set_table (table db) db = db) ->
  post (for_each rows (insert_into table set_table conflict)) w
       (fun _ w' => frame w w' /\
                    txn w' = set_table (table (txn w) ++ rows) (txn w))
       (fun _ w' => frame w w').
Proof.
  intros Hget Hset Hid.
  revert w; induction rows as [|r rows IH]; intros w; simpl.
  - apply post_ret. split; [auto|]. now rewrite app_nil_r, Hid.
  - eapply post_seq; [apply post_insert_into | | eauto].
    intros _ w1 (Hf & _ & Ht). eapply post_weaken; [apply IH | |]; simpl.
    + intros _ w2 [Hf2 Ht2]. split; [eauto|].
      rewrite Ht2, Ht, Hget, Hset, <- app_assoc. reflexivity.
    + eauto.
Qed.

(* ================================================================= *)
(** ** The hourly pass *)

Lemma set_hourly_usage_id (db : Database) :
  set_hourly_usage (hourly_usage db) db = db.
Proof. now destruct db. Qed.

Lemma filter_filter {A} (f g : A -> bool) (l : list A) :
  filter f (filter g l) = filter (fun x => g x && f x) l.
Proof.
  induction l as [|x l IH]; simpl; [reflexivity|].
  destruct (g x); simpl; [destruct (f x)|]; now rewrite IH.
Qed.

Lemma filter_true {A} (l : list A) : filter (fun _ => true) l = l.
Proof. induction l; simpl; congruence. Qed.

Lemma existsb_same_members {A} (f : A -> bool) (l l' : list A) :
  (forall x, In x l <-> In x l') -> existsb f l = existsb f l'.
Proof.
  intros H. destruct (existsb f l') eqn:E.
  - apply existsb_exists in E as (x & Hx & Hf).
    apply existsb_exists. exists x. split; [now apply H | assumption].
  - destruct (existsb f l) eqn:E'; [|reflexivity].
    apply existsb_exists in E' as (x & Hx & Hf).
    rewrite <- E. symmetry. apply existsb_exists. exists x.
    split; [now apply H | assumption].
Qed.

Lemma fold_delete_hourly (slots : list (Z * Z)) (db : Database) :
  fold_left (fun db slot => delete_hourly slot db) slots db =
  set_hourly_usage
    (filter (fun r => negb (in_slots slots r)) (hourly_usage db)) db.
Proof.
  revert db; induction slots as [|s slots IH]; intros db; simpl.
  - now rewrite filter_true, set_hourly_usage_id.
  - rewrite IH. unfold delete_hourly at 1 2; simpl.
    rewrite filter_filter. unfold set_hourly_usage; simpl. f_equal.
    apply filter_ext. intros r. now rewrite negb_orb.
Qed.

Lemma in_slots_nodup (slots : list (Z * Z)) (r : HourlyUsage) :
  in_slots (nodup HourSlot_eq_dec slots) r = in_slots slots r.
Proof.
  unfold in_slots. apply existsb_same_members. intros x. apply nodup_In.
Qed.

Lemma post_for_each_hourly_insert (data : list HourlyGroup) (w : World) :
  post (for_each data (fun row =>
          category <- gets (fun w => get_category (manager w) (g_app_name row)) ;;
          insert_hourly_usage
            (mkHourly (g_date row) (g_hour row) (g_device_type row)
                      (g_app_name row) (g_website_url row) category
                      (g_total_seconds row) (g_event_count row)))) w
       (fun _ w' =>
          frame w w' /\
          txn w' = set_hourly_usage
                     (hourly_usage (txn w) ++ map (hourly_row (manager w)) data)
                     (txn w))
       (fun _ w' => frame w w').
Proof.
  revert w; induction data as [|row data IH]; intros w;
    cbn [for_each map].
  - apply post_ret. split; [auto|].
    now rewrite app_nil_r, set_hourly_usage_id.
  - eapply post_seq with
      (Pd := fun _ w1 =>
         frame w w1 /\
         txn w1 = set_hourly_usage
                    (hourly_usage (txn w) ++ [hourly_row (manager w) row])
                    (txn w))
      (Pr := fun _ w1 => frame w w1).
    + pose proof (post_insert_into hourly_usage set_hourly_usage uq_hourly
                    (hourly_row (manager w) row) w) as H.
      unfold post in *. unfold bind at 1, gets at 1.
      unfold insert_hourly_usage. fold (hourly_row (manager w) row).
      destruct (insert_into _ _ _ _ w); tauto.
    + intros _ w1 [Hf Ht]. eapply post_weaken; [apply IH | |]; simpl.
      * intros _ w2 [Hf2 Ht2]. split; [eauto|].
        destruct Hf as (_ & Hm & _). rewrite Ht2, Ht, Hm. simpl.
        now rewrite <- app_assoc.
      * eauto.
    + auto.
Qed.

Lemma hourly_pass_no_data (self : CategoryManager) (db : Database) :
  select_hourly_data (hourly_start db) db = [] -> hourly_pass self db = db.
Proof.
  intros H. unfold hourly_pass. rewrite H. simpl.
  now rewrite filter_true, app_nil_r, set_hourly_usage_id.
Qed.

Lemma frame_rolled_back (w w' : World) : frame w w' -> rolled_back w w'.
Proof.
  intros (? & ? & ? & ? & Hl). repeat split; try assumption.
  exists []. rewrite app_nil_r. split; [assumption | intros r []].
Qed.

Lemma frame_rolled_back_log (w w' : World) (msg : Message) :
  frame (add_log (DEBUG, msg) w) w' -> rolled_back w w'.
Proof.
  intros (? & ? & ? & ? & Hl). repeat split; try assumption.
  exists [(DEBUG, msg)]. split; [assumption|].
  intros r [<-|[]]. reflexivity.
Qed.

(** The [try] block of the hourly pass: when it returns, the committed
    database is [hourly_pass] of the one it started from; when it raises,
    the committed database is the one it started from. *)
Lemma process_hourly_body_post (w : World) :
  post process_hourly_body w
       (fun _ w' =>
          disk w' = hourly_pass (manager w) (disk w) /\
          source w' = source w /\ manager w' = manager w /\
          storage_fault w' = storage_fault w /\
          log w' = log w ++ hourly_log (disk w))
       (fun _ w' => rolled_back w w').
Proof.
  unfold process_hourly_body.
  eapply post_seq; [apply post_connect | | intros; now apply frame_rolled_back].
  intros _ w1 [Hf1 Ht1].
  eapply post_seq; [apply post_query | |
    intros; apply frame_rolled_back; eauto].
  intros result w2 (-> & Hf2 & Ht2).
  assert (Hf : frame w w2) by eauto.
  assert (Ht : txn w2 = disk w) by congruence.
  rewrite Ht1. fold (hourly_start (disk w)).
  set (start := hourly_start (disk w)).
  apply post_bind, post_logging.
  set (w3 := add_log (DEBUG, Processing_hourly_data_since start) w2).
  assert (Hf3 : frame (add_log (DEBUG, Processing_hourly_data_since start) w) w3)
    by now apply frame_add_log.
  eapply post_seq; [apply post_query | |
    intros e w' H; eapply frame_rolled_back_log; eauto].
  intros hourly_data w4 (-> & Hf4 & Ht4).
  change (txn w3) with (txn w2) in *. rewrite Ht in *.
  assert (Hf' : frame (add_log (DEBUG, Processing_hourly_data_since start) w) w4)
    by eauto.
  destruct (select_hourly_data start (disk w)) as [|g data] eqn:Hdata.
  - apply post_bind, post_logging. apply post_ret.
    destruct Hf' as (Hs & Hm & Hd & Hsf & Hl); simpl in *.
    rewrite hourly_pass_no_data by assumption.
    unfold hourly_log. fold start. rewrite Hdata.
    repeat split; try assumption.
    rewrite Hl, <- app_assoc. reflexivity.
  - rewrite <- Hdata.
    eapply post_seq; [apply post_for_each_execute | |
      intros e w' H; eapply frame_rolled_back_log; eauto].
    intros _ w5 [Hf5 Ht5].
    eapply post_seq; [apply post_for_each_hourly_insert | |
      intros e w' H; eapply frame_rolled_back_log; eauto].
    intros _ w6 [Hf6 Ht6].
    eapply post_seq; [apply post_commit | |
      intros e w' H; eapply frame_rolled_back_log; eauto].
    intros _ w7 (Hd7 & Hs7 & Hm7 & Hsf7 & Hl7).
    apply post_bind, post_ret, post_logging.
    assert (Hf'' : frame (add_log (DEBUG, Processing_hourly_data_since start) w) w6)
      by eauto.
    destruct Hf'' as (Hs & Hm & Hd & Hsf & Hl); simpl in *.
    destruct Hf5 as (_ & Hm5 & _).
    destruct Hf' as (_ & Hm4 & _); simpl in Hm4.
    repeat split; try congruence.
    + rewrite Hd7, Ht6, Ht5, Ht4, fold_delete_hourly. simpl.
      unfold hourly_pass. fold start. unfold set_hourly_usage; simpl.
      f_equal. f_equal; [|congruence].
      apply filter_ext. intros r. now rewrite in_slots_nodup.
    + rewrite Hl7, Hl, <- app_assoc. unfold hourly_log. fold start.
      rewrite Hdata. reflexivity.
Qed.

(* ================================================================= *)
(** ** The daily pass *)

Lemma set_daily_usage_id (db : Database) :
  set_daily_usage (daily_usage db) db = db.
Proof. now destruct db. Qed.

Lemma set_daily_category_usage_id (db : Database) :
  set_daily_category_usage (daily_category_usage db) db = db.
Proof. now destruct db. Qed.

Lemma in_insert_by {A} (leb : A -> A -> bool) (x y : A) (l : list A) :
  In y (insert_by leb x l) <-> y = x \/ In y l.
Proof.
  induction l as [|z l IH]; simpl; [intuition|].
  destruct (leb x z); simpl; [intuition|]. rewrite IH. intuition.
Qed.

Lemma in_order_by {A} (leb : A -> A -> bool) (y : A) (l : list A) :
  In y (order_by leb l) <-> In y l.
Proof.
  induction l as [|x l IH]; simpl; [tauto|].
  rewrite in_insert_by, IH. intuition.
Qed.

Lemma in_dates_spec (dates : list Z) (d : Z) :
  in_dates dates d = true <-> In d dates.
Proof.
  unfold in_dates. rewrite existsb_exists. split.
  - intros (x & Hx & E). apply Z.eqb_eq in E. now subst.
  - intros H. exists d. split; [assumption | apply Z.eqb_refl].
Qed.

Lemma in_dates_same_members (l l' : list Z) (d : Z) :
  (forall x, In x l <-> In x l') -> in_dates l d = in_dates l' d.
Proof. intros H. now apply existsb_same_members. Qed.

Lemma fold_delete_daily (dates : list Z) (db : Database) :
  fold_left (fun db d => delete_daily_category d (delete_daily d db)) dates db =
  set_daily_category_usage
    (filter (fun r => negb (in_dates dates (c_date r)))
            (daily_category_usage db))
    (set_daily_usage
       (filter (fun r => negb (in_dates dates (d_date r))) (daily_usage db))
       db).
Proof.
  revert db; induction dates as [|d dates IH]; intros db; simpl.
  - rewrite !filter_true. now destruct db.
  - rewrite IH. unfold delete_daily, delete_daily_category; simpl.
    rewrite !filter_filter.
    unfold set_daily_usage, set_daily_category_usage; simpl. f_equal.
    + apply filter_ext. intros r. now rewrite negb_orb.
    + apply filter_ext. intros r. now rewrite negb_orb.
Qed.

Lemma post_for_each_execute2 {A} (f g : A -> Database -> Database)
  (xs : list A) (w : World) :
  post (for_each xs (fun x => execute (f x) ;; execute (g x))) w
       (fun _ w' =>
          frame w w' /\
          txn w' = fold_left (fun db x => g x (f x db)) xs (txn w))
       (fun _ w' => frame w w').
Proof.
  revert w; induction xs as [|x xs IH]; intros w; simpl.
  - apply post_ret; auto.
  - apply post_bind.
    eapply post_seq; [apply post_execute | | eauto].
    intros _ w1 [Hf1 Ht1].
    eapply post_weaken; [apply post_execute | | eauto].
    intros _ w2 [Hf2 Ht2].
    eapply post_weaken; [apply IH | |]; simpl.
    + intros _ w3 [Hf3 Ht3]. split; [eauto | congruence].
    + eauto.
Qed.

Lemma process_daily_body_post (w : World) :
  post process_daily_body w
       (fun _ w' =>
          disk w' = daily_pass (disk w) /\
          source w' = source w /\ manager w' = manager w /\
          storage_fault w' = storage_fault w /\
          log w' = log w ++ daily_log (disk w))
       (fun _ w' => rolled_back w w').
Proof.
  unfold process_daily_body.
  eapply post_seq; [apply post_connect | | intros; now apply frame_rolled_back].
  intros _ w1 [Hf1 Ht1].
  eapply post_seq; [apply post_query | |
    intros; apply frame_rolled_back; eauto].
  intros result w2 (-> & Hf2 & Ht2).
  assert (Hf : frame w w2) by eauto.
  assert (Ht : txn w2 = disk w) by congruence.
  rewrite Ht1. fold (daily_start (disk w)).
  set (start := daily_start (disk w)).
  apply post_bind, post_logging.
  set (w3 := add_log (DEBUG, Processing_daily_data_since start) w2).
  assert (Hf3 : frame (add_log (DEBUG, Processing_daily_data_since start) w) w3)
    by now apply frame_add_log.
  eapply post_seq; [apply post_query | |
    intros e w' H; eapply frame_rolled_back_log; eauto].
  intros daily_data w4 (-> & Hf4 & Ht4).
  change (txn w3) with (txn w2) in *. rewrite Ht in *.
  assert (Hf' : frame (add_log (DEBUG, Processing_daily_data_since start) w) w4)
    by eauto.
  unfold daily_pass, daily_log. fold start.
  destruct (select_daily_data start (disk w)) as [|g data] eqn:Hdata.
  - apply post_bind, post_logging. apply post_ret.
    destruct Hf' as (Hs & Hm & Hd & Hsf & Hl); simpl in *.
    repeat split; try assumption.
    rewrite Hl, <- app_assoc. reflexivity.
  - set (daily_data := g :: data) in *.
    eapply post_seq; [apply post_for_each_execute2 | |
      intros e w' H; eapply frame_rolled_back_log; eauto].
    intros _ w5 [Hf5 Ht5].
    eapply post_seq;
      [apply (post_for_each_insert daily_usage set_daily_usage uq_daily);
       intros; now try destruct db | |
       intros e w' H; eapply frame_rolled_back_log; eauto].
    intros _ w6 [Hf6 Ht6].
    eapply post_seq; [apply post_query | |
      intros e w' H; eapply frame_rolled_back_log; eauto].
    intros category_data w7 (-> & Hf7 & Ht7).
    eapply post_seq;
      [apply (post_for_each_insert daily_category_usage
                set_daily_category_usage uq_daily_cat);
       intros; now try destruct db | |
       intros e w' H; eapply frame_rolled_back_log; eauto 6].
    intros _ w8 [Hf8 Ht8].
    eapply post_seq; [apply post_commit | |
      intros e w' H; eapply frame_rolled_back_log; eauto 7].
    intros _ w9 (Hd9 & Hs9 & Hm9 & Hsf9 & Hl9).
    apply post_bind, post_ret, post_logging.
    assert (Hf'' : frame (add_log (DEBUG, Processing_daily_data_since start) w) w8)
      by eauto 7.
    destruct Hf'' as (Hs & Hm & Hd & Hsf & Hl); simpl in *.
    assert (Hdates : forall d,
      in_dates (order_by Z.leb (nodup Z.eq_dec (map d_date daily_data))) d
      = in_dates (map d_date daily_data) d).
    { intros d. apply in_dates_same_members. intros x.
      rewrite in_order_by. apply nodup_In. }
    assert (Hdb1 : txn w6 =
      set_daily_usage
        (filter (fun r => negb (in_dates (map d_date daily_data) (d_date r)))
                (daily_usage (disk w)) ++ daily_data)
        (set_daily_category_usage
           (filter (fun r => negb (in_dates (map d_date daily_data) (c_date r)))
                   (daily_category_usage (disk w))) (disk w))).
    { rewrite Ht6, Ht5, Ht4, fold_delete_daily.
      unfold set_daily_usage, set_daily_category_usage; simpl.
      f_equal.
      - f_equal. apply filter_ext. intros r. now rewrite Hdates.
      - apply filter_ext. intros r. now rewrite Hdates. }
    repeat split; try congruence.
    + rewrite Hd9, Ht8, Ht7, Hdb1. unfold daily_replace.
      unfold select_category_data, set_daily_category_usage, set_daily_usage;
        simpl. reflexivity.
    + rewrite Hl9, Hl, <- app_assoc. simpl. rewrite Hdb1.
      unfold select_category_data, set_daily_category_usage, set_daily_usage;
        simpl. reflexivity.
Qed.

(** The hourly stage never raises; it leaves either the database it
    found, with an ERROR record, or [hourly_pass] of it. *)
Lemma hourly_stage_cases (w : World) :
  exists w', _process_hourly_aggregations w = Done tt w' /\
    source w' = source w /\ manager w' = manager w /\
    storage_fault w' = storage_fault w /\
    ((process_hourly_body w = Done tt w' /\
      disk w' = hourly_pass (manager w) (disk w) /\
      log w' = log w ++ hourly_log (disk w))
     \/
     (exists e w1, process_hourly_body w = Raised e w1 /\
        w' = add_log (ERROR, Error_processing_hourly e) w1 /\
        disk w' = disk w)).
Proof.
  pose proof (process_hourly_body_post w) as H.
  unfold _process_hourly_aggregations, try_except, post in *.
  destruct (process_hourly_body w) as [[] w1 | e w1].
  - exists w1. intuition.
  - exists (add_log (ERROR, Error_processing_hourly e) w1).
    destruct H as (Hs & Hm & Hd & Hsf & _).
    repeat split; try assumption. right. now exists e, w1.
Qed.

Lemma daily_stage_cases (w : World) :
  exists w', _process_daily_aggregations w = Done tt w' /\
    source w' = source w /\ manager w' = manager w /\
    storage_fault w' = storage_fault w /\
    ((process_daily_body w = Done tt w' /\
      disk w' = daily_pass (disk w) /\
      log w' = log w ++ daily_log (disk w))
     \/
     (exists e w1, process_daily_body w = Raised e w1 /\
        w' = add_log (ERROR, Error_processing_daily e) w1 /\
        disk w' = disk w)).
Proof.
  pose proof (process_daily_body_post w) as H.
  unfold _process_daily_aggregations, try_except, post in *.
  destruct (process_daily_body w) as [[] w1 | e w1].
  - exists w1. intuition.
  - exists (add_log (ERROR, Error_processing_daily e) w1).
    destruct H as (Hs & Hm & Hd & Hsf & _).
    repeat split; try assumption. right. now exists e, w1.
Qed.

(** C9.  The deletes and inserts of an hourly pass are committed as one
    unit: when the pass raises at any point, the committed database, and
    with it every bucket that existed, is as before the pass and the
    error is logged; and whatever happens, the committed database after
    the pass is either the one before it or the one with all deletes and
    all inserts of the pass applied. *)
Theorem hourly_pass_is_atomic (w : World) :
  let w' := state_of (_process_hourly_aggregations w) in
  (forall e w1,
     process_hourly_body w = Raised e w1 ->
     disk w' = disk w /\
     hourly_usage (disk w') = hourly_usage (disk w) /\
     log w' = log w1 ++ [(ERROR, Error_processing_hourly e)]) /\
  (disk w' = disk w \/ disk w' = hourly_pass (manager w) (disk w)).
Proof.
  destruct (hourly_stage_cases w) as (w' & Hrun & _ & _ & _ & Hcase).
  rewrite Hrun; simpl. split.
  - intros e w1 Hraise.
    destruct Hcase as [(Hdone & _) | (e' & w1' & Hr & -> & Hd)];
      [congruence|].
    rewrite Hraise in Hr. injection Hr as <- <-.
    rewrite Hd. repeat split.
  - destruct Hcase as [(_ & Hd & _) | (e' & w1' & _ & _ & Hd)]; auto.
Qed.

Lemma hourly_pass_is_atomic_witness :
  (exists w1, process_hourly_body interrupted_pass
              = Raised OperationalError w1) /\
  hourly_usage (disk (state_of (_process_hourly_aggregations interrupted_pass)))
  = [mkHourly 19723 10 "desktop" "firefox" None "Other" 30 1].
Proof.
  split; [eexists; vm_compute; reflexivity|].
  destruct (process_hourly_body interrupted_pass) as [[] w1 | e w1] eqn:E;
    [vm_compute in E; discriminate|].
  destruct (hourly_pass_is_atomic interrupted_pass) as [H _].
  destruct (H e w1 E) as (_ & -> & _). reflexivity.
Defined.

Lemma in_group_by {R K} (key : R -> K)
  (dec : forall a b : K, {a = b} + {a <> b}) (rows : list R) (r : R) :
  In r rows ->
  In (key r, filter (same_key key dec (key r)) rows) (group_by key dec rows).
Proof.
  intros H. unfold group_by. apply in_map_iff. exists (key r).
  split; [reflexivity|]. apply nodup_In. now apply in_map.
Qed.

Lemma same_key_refl {R K} (key : R -> K)
  (dec : forall a b : K, {a = b} + {a <> b}) (r : R) :
  same_key key dec (key r) r = true.
Proof. unfold same_key. now destruct (dec (key r) (key r)). Qed.

(** C8 (as stated).  Two events of the same hour, one with a duration of
    -20 seconds: the pass puts both into the bucket (count 2, total
    30 - 20 = 10) and logs nothing about the row. *)
Lemma negative_duration_is_aggregated :
  let w := fresh Missing negative_duration_events no_fault in
  let w' := state_of (_process_hourly_aggregations w) in
  hourly_usage (disk w')
  = [mkHourly 19723 10 "desktop" "firefox" None "Other" 10 2] /\
  log w' = [(DEBUG, Processing_hourly_data_since (-7200000000));
            (INFO, Processed_hourly 1 1)].
Proof. split; vm_compute; reflexivity. Qed.

(** C8 (amended).  The hourly pass validates no row.  When the pass
    returns, every event of its selection window, whatever the sign of
    its duration, counts in the bucket of its key: the bucket's
    total_seconds is the sum of the durations, and its event_count the
    number, of the selected events with that key, the event among them.
    The pass logs its two records and none about a row. *)
Theorem hourly_pass_aggregates_every_selected_event
  (w w' : World) (e : Event) :
  process_hourly_body w = Done tt w' ->
  In e (events (disk w)) ->
  hourly_start (disk w) < timestamp e ->
  let selected :=
    filter (fun x => hourly_start (disk w) <? timestamp x) (events (disk w)) in
  let contributing :=
    filter (same_key event_key HourKey_eq_dec (event_key e)) selected in
  In e contributing /\
  In (mkHourly (strftime_date (timestamp e)) (strftime_hour (timestamp e))
               (device_type e) (app_name e) (website_url e)
               (get_category (manager w) (app_name e))
               (sum_of duration_seconds contributing)
               (count_of contributing))
     (hourly_usage (disk w')) /\
  log w' = log w ++ hourly_log (disk w).
Proof.
  intros Hrun Hin Hts selected contributing.
  pose proof (process_hourly_body_post w) as H.
  unfold post in H. rewrite Hrun in H.
  destruct H as (Hd & _ & _ & _ & Hl).
  assert (Hsel : In e selected).
  { apply filter_In. split; [assumption | now apply Z.ltb_lt]. }
  split; [|split; [|assumption]].
  - apply filter_In. split; [assumption | apply same_key_refl].
  - rewrite Hd. unfold hourly_pass; simpl. apply in_or_app. right.
    apply in_map_iff.
    exists (hourly_group (event_key e, contributing)).
    split; [reflexivity|].
    unfold select_hourly_data. apply in_order_by. apply in_map.
    now apply in_group_by.
Qed.

Lemma hourly_pass_aggregates_every_selected_event_witness :
  let w := fresh Missing negative_duration_events no_fault in
  In (mkHourly 19723 10 "desktop" "firefox" None "Other" 10 2)
     (hourly_usage (disk (state_of (process_hourly_body w)))).
Proof.
  intros w.
  destruct (process_hourly_body w) as [[] w' | x w'] eqn:E;
    [|vm_compute in E; discriminate].
  assert (Hin : In (mkEvent (at_time 19723 10 50 0 0) "desktop" "firefox"
                            None (-20)) (events (disk w)))
    by (right; left; reflexivity).
  assert (Hts : hourly_start (disk w) < at_time 19723 10 50 0 0)
    by (vm_compute; reflexivity).
  destruct (hourly_pass_aggregates_every_selected_event w _ E Hin Hts)
    as (_ & H & _).
  exact H.
Defined.

(* ================================================================= *)
(** ** The app_categories table *)

Lemma for_each_ext {A} (xs : list A) (f g : A -> M unit) :
  (forall x w, f x w = g x w) ->
  forall w, for_each xs f w = for_each xs g w.
Proof.
  intros H. induction xs as [|x xs IH]; intros w; simpl; [reflexivity|].
  unfold bind. rewrite H. destruct (g x w); auto.
Qed.

Lemma for_each_map {A B} (h : A -> B) (xs : list A) (f : B -> M unit) :
  forall w, for_each (map h xs) f w = for_each xs (fun x => f (h x)) w.
Proof.
  induction xs as [|x xs IH]; intros w; simpl; [reflexivity|].
  unfold bind. destruct (f (h x) w); auto.
Qed.

Lemma post_gets {A B} (f : World -> A) (k : A -> M B) (w : World)
  (Qd : B -> World -> Prop) (Qr : exn -> World -> Prop) :
  post (k (f w)) w Qd Qr -> post (bind (gets f) k) w Qd Qr.
Proof. auto. Qed.

Lemma update_app_categories_body_post (w : World) :
  post update_app_categories_body w
       (fun _ w' =>
          disk w' = set_app_categories
                      (map app_category_row (Dict.items (app_mappings (manager w))))
                      (disk w) /\
          source w' = source w /\ manager w' = manager w /\
          storage_fault w' = storage_fault w /\
          log w' = log w ++ [(DEBUG, Updated_app_categories
                                       (List.length (app_mappings (manager w))))])
       (fun _ w' => rolled_back w w').
Proof.
  unfold update_app_categories_body.
  eapply post_seq; [apply post_connect | | intros; now apply frame_rolled_back].
  intros _ w1 [Hf1 Ht1].
  eapply post_seq; [apply post_execute | |
    intros; apply frame_rolled_back; eauto].
  intros _ w2 [Hf2 Ht2].
  apply post_gets.
  assert (Hm2 : manager w2 = manager w).
  { destruct Hf1 as (_ & H1 & _), Hf2 as (_ & H2 & _). congruence. }
  rewrite Hm2.
  set (mappings := Dict.items (app_mappings (manager w))).
  eapply post_seq with
    (Pd := fun _ w3 =>
       frame w2 w3 /\
       txn w3 = set_app_categories
                  (app_categories (txn w2) ++ map app_category_row mappings)
                  (txn w2))
    (Pr := fun _ w3 => frame w2 w3).
  - pose proof (post_for_each_insert app_categories set_app_categories
                  uq_app_category (map app_category_row mappings) w2) as H.
    unfold post in *.
    rewrite (for_each_ext mappings _
               (fun x => insert_app_category (app_category_row x))).
    + rewrite <- for_each_map. apply H; intros; now try destruct db.
    + now intros [a c] w0.
  - intros _ w3 [Hf3 Ht3].
    eapply post_seq; [apply post_commit | |
      intros; apply frame_rolled_back; eauto].
    intros _ w4 (Hd4 & Hs4 & Hm4 & Hsf4 & Hl4).
    apply post_bind, post_ret.
    apply post_gets, post_logging.
    assert (Hf : frame w w3) by eauto.
    destruct Hf as (Hs & Hm & Hd & Hsf & Hl); simpl.
    repeat split; try congruence.
    + rewrite Hd4, Ht3, Ht2, Ht1. reflexivity.
    + rewrite Hm4, Hm, Hl4, Hl. reflexivity.
  - intros; apply frame_rolled_back; eauto.
Qed.

(* ================================================================= *)
(** ** The cycle *)

Lemma try_except_logging_done (body : M unit) (lvl : Level)
  (msg : exn -> Message) (w : World) :
  try_except body (fun e => logging lvl (msg e)) w
  = Done tt (state_of (try_except body (fun e => logging lvl (msg e)) w)).
Proof. unfold try_except. now destruct (body w) as [[] w' | e w']. Qed.

Lemma load_categories_done (w : World) :
  load_categories w = Done tt (state_of (load_categories w)).
Proof. apply try_except_logging_done. Qed.

Lemma update_app_categories_done (w : World) :
  _update_app_categories_table w
  = Done tt (state_of (_update_app_categories_table w)).
Proof. apply try_except_logging_done. Qed.

Lemma process_hourly_done (w : World) :
  _process_hourly_aggregations w
  = Done tt (state_of (_process_hourly_aggregations w)).
Proof. apply try_except_logging_done. Qed.

Lemma process_daily_done (w : World) :
  _process_daily_aggregations w
  = Done tt (state_of (_process_daily_aggregations w)).
Proof. apply try_except_logging_done. Qed.

(** A cycle never raises, and runs its four stages whatever the earlier
    ones did. *)
Lemma process_all_done (w : World) :
  process_all w
  = Done tt
      (add_log (INFO, Cycle_completed)
         (state_of (_process_daily_aggregations
            (state_of (_process_hourly_aggregations
               (before_hourly_stage w)))))).
Proof.
  unfold process_all, before_hourly_stage, bind.
  rewrite logging_done, load_categories_done, update_app_categories_done,
    process_hourly_done, process_daily_done.
  reflexivity.
Qed.

(** C2 (as stated).  In the second cycle of [after_first_cycle] the
    hourly stage fails on its connect, and the daily stage of the same
    cycle runs all the same: it writes the daily buckets the database
    did not have and logs its pass. *)
Lemma daily_stage_runs_after_hourly_failure :
  let w := after_first_cycle in
  let w' := state_of (process_all w) in
  (exists w2, process_hourly_body (before_hourly_stage w)
              = Raised OperationalError w2) /\
  daily_usage (disk w) = [] /\
  daily_usage (disk w')
  = [mkDaily 19723 "desktop" "firefox" None "Other" 30 1] /\
  daily_category_usage (disk w')
  = [mkDailyCat 19723 "desktop" "Other" 30] /\
  In (ERROR, Error_processing_hourly OperationalError) (log w') /\
  In (INFO, Processed_daily 1 1 1) (log w').
Proof.
  cbv zeta. split; [eexists; vm_compute; reflexivity|].
  vm_compute. intuition.
Qed.

(** C2 (amended).  When the hourly stage of a cycle fails, the failure is
    logged by the stage itself and no table is changed by it; the error
    does not reach [process_all], so the daily stage runs in the same
    cycle, over the tables as they were, and leaves them either as they
    were or with its own pass applied; the cycle returns normally and the
    next tick of [run_continuous] runs the whole sequence again. *)
Theorem hourly_failure_is_logged_and_daily_still_runs
  (w : World) (e : exn) (w2 : World) :
  let w1 := before_hourly_stage w in
  process_hourly_body w1 = Raised e w2 ->
  let w3 := add_log (ERROR, Error_processing_hourly e) w2 in
  let w4 := state_of (_process_daily_aggregations w3) in
  let w5 := add_log (INFO, Cycle_completed) w4 in
  process_all w = Done tt w5 /\
  _process_hourly_aggregations w1 = Done tt w3 /\
  disk w3 = disk w1 /\
  In (ERROR, Error_processing_hourly e) (log w5) /\
  (disk w5 = disk w1 \/ disk w5 = daily_pass (disk w1)) /\
  forall ticks,
    run_continuous (S ticks) w = run_continuous ticks w5.
Proof.
  intros w1 Hraise w3 w4 w5.
  assert (Hstage : _process_hourly_aggregations w1 = Done tt w3).
  { unfold _process_hourly_aggregations, try_except. now rewrite Hraise. }
  assert (Hall : process_all w = Done tt w5).
  { rewrite process_all_done. fold w1. now rewrite Hstage. }
  assert (Hd3 : disk w3 = disk w1).
  { pose proof (process_hourly_body_post w1) as H. unfold post in H.
    rewrite Hraise in H. destruct H as (_ & _ & Hd & _). exact Hd. }
  destruct (daily_stage_cases w3) as (w4' & Hrun & _ & _ & _ & Hcase).
  assert (E4 : w4 = w4') by (unfold w4; now rewrite Hrun).
  repeat split; try assumption.
  - unfold w5; simpl. apply in_or_app. left. rewrite E4.
    destruct Hcase as [(_ & _ & Hl) | (e' & w' & Hr & -> & _)].
    + rewrite Hl. apply in_or_app. left. unfold w3; simpl.
      apply in_or_app. right. now left.
    + simpl. apply in_or_app. left.
      pose proof (process_daily_body_post w3) as H. unfold post in H.
      rewrite Hr in H. destruct H as (_ & _ & _ & _ & recs & -> & _).
      apply in_or_app. left. unfold w3; simpl.
      apply in_or_app. right. now left.
  - unfold w5; simpl. rewrite E4, <- Hd3.
    destruct Hcase as [(_ & Hd & _) | (e' & w' & _ & _ & Hd)]; auto.
  - intros ticks. simpl. unfold bind, try_except. now rewrite Hall.
Qed.

Lemma hourly_failure_is_logged_and_daily_still_runs_witness :
  let w1 := before_hourly_stage after_first_cycle in
  let w2 := state_of (process_hourly_body w1) in
  process_hourly_body w1 = Raised OperationalError w2 /\
  In (ERROR, Error_processing_hourly OperationalError)
     (log (add_log (INFO, Cycle_completed)
             (state_of (_process_daily_aggregations
                (add_log (ERROR, Error_processing_hourly OperationalError)
                         w2))))).
Proof.
  intros w1 w2.
  assert (E : process_hourly_body w1 = Raised OperationalError w2)
    by (vm_compute; reflexivity).
  split; [exact E|].
  exact (proj1 (proj2 (proj2 (proj2
    (hourly_failure_is_logged_and_daily_still_runs after_first_cycle E))))).
Defined.

(* ================================================================= *)
(** ** Statements that do not touch the database *)

Lemma keeps_disk_ret {A} (a : A) : keeps_disk (ret a).
Proof. intros w; reflexivity. Qed.

Lemma keeps_disk_raise {A} (e : exn) : keeps_disk (@raise A e).
Proof. intros w; reflexivity. Qed.

Lemma keeps_disk_gets {A} (f : World -> A) : keeps_disk (gets f).
Proof. intros w; reflexivity. Qed.

Lemma keeps_disk_modify (f : World -> World) :
  (forall w, disk (f w) = disk w) -> keeps_disk (modify f).
Proof. intros H w; apply H. Qed.

Lemma keeps_disk_bind {A B} (m : M A) (k : A -> M B) :
  keeps_disk m -> (forall a, keeps_disk (k a)) -> keeps_disk (bind m k).
Proof.
  intros Hm Hk w. unfold bind. specialize (Hm w).
  destruct (m w) as [a w1 | e w1]; simpl in *; [|assumption].
  now rewrite Hk.
Qed.

Lemma keeps_disk_for_each {A} (xs : list A) (body : A -> M unit) :
  (forall x, keeps_disk (body x)) -> keeps_disk (for_each xs body).
Proof.
  intros H. induction xs as [|x xs IH]; simpl.
  - apply keeps_disk_ret.
  - apply keeps_disk_bind; auto.
Qed.

Lemma keeps_disk_try_except {A} (body : M A) (handler : exn -> M A) :
  keeps_disk body -> (forall e, keeps_disk (handler e)) ->
  keeps_disk (try_except body handler).
Proof.
  intros Hb Hh w. unfold try_except. specialize (Hb w).
  destruct (body w) as [a w1 | e w1]; simpl in *; [assumption|].
  now rewrite Hh.
Qed.

Lemma keeps_disk_logging (lvl : Level) (msg : Message) :
  keeps_disk (logging lvl msg).
Proof. intros w; reflexivity. Qed.

Create HintDb keeps.

#[local] Hint Resolve keeps_disk_ret keeps_disk_raise keeps_disk_gets
  keeps_disk_logging : keeps.

Ltac keeps_disk_tac :=
  repeat first
    [ apply keeps_disk_bind; [|intros ?]
    | apply keeps_disk_for_each; intros ?
    | apply keeps_disk_modify; intros ?; reflexivity
    | solve [auto with keeps]
    | match goal with
      | |- keeps_disk (match ?x with _ => _ end) => destruct x
      | |- keeps_disk (let '(_, _) := ?x in _) => destruct x
      end ].

Lemma keeps_disk_load_categories : keeps_disk load_categories.
Proof.
  apply keeps_disk_try_except; [|intros e; apply keeps_disk_logging].
  unfold load_categories_body, py_get, py_items, py_iter, py_lower, py_len.
  keeps_disk_tac.
Qed.

(* ================================================================= *)
(** ** Sums over groups *)

Lemma sum_of_app {R} (col : R -> Z) (l1 l2 : list R) :
  sum_of col (l1 ++ l2) = sum_of col l1 + sum_of col l2.
Proof. induction l1 as [|x l1 IH]; simpl; [reflexivity | rewrite IH; lia]. Qed.

Lemma sum_of_map {A R} (f : A -> R) (col : R -> Z) (l : list A) :
  sum_of col (map f l) = sum_of (fun a => col (f a)) l.
Proof. induction l as [|x l IH]; simpl; congruence. Qed.

Lemma sum_of_ext {R} (col col' : R -> Z) (l : list R) :
  (forall r, In r l -> col r = col' r) -> sum_of col l = sum_of col' l.
Proof.
  induction l as [|x l IH]; simpl; intros H; [reflexivity|].
  rewrite H, IH; auto.
Qed.

Lemma sum_of_zero {R} (col : R -> Z) (l : list R) :
  (forall r, In r l -> col r = 0) -> sum_of col l = 0.
Proof.
  induction l as [|x l IH]; simpl; intros H; [reflexivity|].
  rewrite H, IH; auto.
Qed.

Lemma filter_map_swap {A B} (f : A -> B) (p : B -> bool) (l : list A) :
  filter p (map f l) = map f (filter (fun a => p (f a)) l).
Proof.
  induction l as [|x l IH]; simpl; [reflexivity|].
  destruct (p (f x)); simpl; now rewrite IH.
Qed.

Lemma filter_none {A} (p : A -> bool) (l : list A) :
  (forall x, In x l -> p x = false) -> filter p l = [].
Proof.
  induction l as [|x l IH]; simpl; intros H; [reflexivity|].
  rewrite H by auto. apply IH. auto.
Qed.

Lemma filter_all {A} (p : A -> bool) (l : list A) :
  (forall x, In x l -> p x = true) -> filter p l = l.
Proof.
  induction l as [|x l IH]; simpl; intros H; [reflexivity|].
  rewrite H by auto. f_equal. apply IH. auto.
Qed.

Section GroupSums.
Variables R K : Type.
Variable key : R -> K.
Variable dec : forall a b : K, {a = b} + {a <> b}.
Variable val : R -> Z.
Variable P : K -> bool.

(** Among distinct keys, one key is met once. *)
Lemma sum_single (k0 : K) (v : Z) (ks : list K) :
  NoDup ks ->
  sum_of (fun k => if dec k0 k then v else 0) (filter P ks)
  = if in_dec dec k0 ks then (if P k0 then v else 0) else 0.
Proof.
  induction ks as [|k ks IH]; intros Hnd; simpl; [reflexivity|].
  inversion Hnd as [|? ? Hk Hks]; subst.
  specialize (IH Hks).
  destruct (dec k k0) as [->|Hne].
  - destruct (P k0); simpl.
    + destruct (dec k0 k0); [|contradiction]. rewrite IH.
      destruct (in_dec dec k0 ks); [contradiction | lia].
    + rewrite IH. destruct (in_dec dec k0 ks); [contradiction | reflexivity].
  - destruct (P k); simpl.
    + destruct (dec k0 k); [congruence|]. rewrite IH.
      destruct (in_dec dec k0 ks); reflexivity.
    + rewrite IH. destruct (in_dec dec k0 ks); reflexivity.
Qed.

(** Summing the groups of the keys that satisfy [P] is summing the rows
    whose key satisfies [P]. *)
Lemma sum_of_groups (ks : list K) (rows : list R) :
  NoDup ks ->
  (forall r, In r rows -> In (key r) ks) ->
  sum_of (fun k => sum_of val (filter (same_key key dec k) rows)) (filter P ks)
  = sum_of val (filter (fun r => P (key r)) rows).
Proof.
  intros Hnd. induction rows as [|r rows IH]; intros Hin.
  - simpl. apply sum_of_zero. reflexivity.
  - assert (Hsplit :
      sum_of (fun k => sum_of val (filter (same_key key dec k) (r :: rows)))
             (filter P ks)
      = sum_of (fun k => if dec (key r) k then val r else 0) (filter P ks)
        + sum_of (fun k => sum_of val (filter (same_key key dec k) rows))
                 (filter P ks)).
    { clear. induction (filter P ks) as [|k l IHl]; simpl; [reflexivity|].
      simpl in IHl. rewrite IHl. unfold same_key at 1.
      destruct (dec (key r) k); simpl; lia. }
    rewrite Hsplit, IH, sum_single by (auto; intros; apply Hin; now right).
    destruct (in_dec dec (key r) ks) as [_|Hn];
      [|exfalso; apply Hn, Hin; now left].
    simpl. destruct (P (key r)); simpl; lia.
Qed.

Lemma sum_of_group_by (rows : list R) :
  sum_of (fun g => sum_of val (snd g))
         (filter (fun g => P (fst g)) (group_by key dec rows))
  = sum_of val (filter (fun r => P (key r)) rows).
Proof.
  unfold group_by. rewrite filter_map_swap, sum_of_map. simpl.
  apply sum_of_groups.
  - apply NoDup_nodup.
  - intros r Hr. apply nodup_In. now apply in_map.
Qed.

Lemma group_by_key_in (rows : list R) (g : K * list R) :
  In g (group_by key dec rows) -> exists r, In r rows /\ key r = fst g.
Proof.
  unfold group_by. rewrite in_map_iff. intros (k & <- & Hk).
  apply nodup_In, in_map_iff in Hk as (r & <- & Hr). now exists r.
Qed.

End GroupSums.

(* ================================================================= *)
(** ** Consistency of the daily totals *)

Lemma category_total_select (start d : Z) (db : Database) :
  category_total_on d (select_category_data start db)
  = usage_total_on d (filter (fun r => start <=? d_date r) (daily_usage db)).
Proof.
  unfold category_total_on, select_category_data, usage_total_on.
  set (rows := filter (fun r => start <=? d_date r) (daily_usage db)).
  rewrite filter_map_swap, sum_of_map.
  rewrite (filter_ext _
             (fun g : CatKey * list DailyUsage => fst (fst (fst g)) =? d))
    by (intros [[[a b] c] l]; reflexivity).
  rewrite (sum_of_ext _
             (fun g : CatKey * list DailyUsage =>
                sum_of d_total_seconds (snd g)))
    by (intros [[[a b] c] l] _; reflexivity).
  apply (sum_of_group_by daily_key CatKey_eq_dec d_total_seconds
           (fun k => fst (fst k) =? d)).
Qed.

Lemma select_daily_data_from_hourly (start : Z) (db : Database)
  (r : DailyUsage) :
  In r (select_daily_data start db) ->
  exists h, In h (hourly_usage db) /\ h_date h = d_date r /\ start <= d_date r.
Proof.
  unfold select_daily_data. rewrite in_order_by, in_map_iff.
  intros (g & <- & Hg).
  apply group_by_key_in in Hg as (h & Hh & Hk).
  apply filter_In in Hh as [Hh Hs]. apply Z.leb_le in Hs.
  exists h. destruct g as [[[[[a b] c] u] cat] l]; simpl in *.
  unfold hourly_key in Hk. injection Hk as <- _ _ _ _.
  auto.
Qed.

Lemma select_daily_data_covers (start : Z) (db : Database)
  (h : HourlyUsage) :
  In h (hourly_usage db) -> start <= h_date h ->
  In (h_date h) (map d_date (select_daily_data start db)).
Proof.
  intros Hh Hs. apply in_map_iff.
  set (rows := filter (fun r => start <=? h_date r) (hourly_usage db)).
  exists (daily_row (hourly_key h,
                     filter (same_key hourly_key DayKey_eq_dec (hourly_key h))
                            rows)).
  split; [reflexivity|].
  unfold select_daily_data. apply in_order_by, in_map, in_group_by.
  apply filter_In. split; [assumption | now apply Z.leb_le].
Qed.

Lemma usage_total_on_app (d : Z) (l1 l2 : list DailyUsage) :
  usage_total_on d (l1 ++ l2) = usage_total_on d l1 + usage_total_on d l2.
Proof. unfold usage_total_on. now rewrite filter_app, sum_of_app. Qed.

Lemma category_total_on_app (d : Z) (l1 l2 : list DailyCategoryUsage) :
  category_total_on d (l1 ++ l2)
  = category_total_on d l1 + category_total_on d l2.
Proof. unfold category_total_on. now rewrite filter_app, sum_of_app. Qed.

Lemma usage_total_on_none (d : Z) (l : list DailyUsage) :
  (forall r, In r l -> d_date r <> d) -> usage_total_on d l = 0.
Proof.
  intros H. unfold usage_total_on. rewrite filter_none; [reflexivity|].
  intros r Hr. apply Z.eqb_neq. auto.
Qed.

Lemma category_total_on_none (d : Z) (l : list DailyCategoryUsage) :
  (forall r, In r l -> c_date r <> d) -> category_total_on d l = 0.
Proof.
  intros H. unfold category_total_on. rewrite filter_none; [reflexivity|].
  intros r Hr. apply Z.eqb_neq. auto.
Qed.

Lemma in_dates_false (dates : list Z) (d : Z) :
  in_dates dates d = false <-> ~ In d dates.
Proof.
  rewrite <- in_dates_spec. destruct (in_dates dates d); intuition congruence.
Qed.

(** A daily pass that replaces rows re-establishes the agreement of the
    totals on the dates it touches and keeps it on the others. *)
Lemma daily_replace_consistent (db : Database) :
  daily_consistent db ->
  daily_consistent
    (daily_replace (daily_start db) (select_daily_data (daily_start db) db) db).
Proof.
  intros [Htot Hsrc].
  set (start := daily_start db).
  set (data := select_daily_data start db).
  set (dates := map d_date data).
  set (kept := filter (fun r => negb (in_dates dates (d_date r))) (daily_usage db)).
  assert (Hkept : forall r, In r kept -> In r (daily_usage db) /\ ~ In (d_date r) dates).
  { intros r Hr. apply filter_In in Hr as [Hr Hn]. split; [assumption|].
    apply in_dates_false. now destruct (in_dates dates (d_date r)). }
  assert (Hdata : forall r, In r data -> start <= d_date r).
  { intros r Hr. apply select_daily_data_from_hourly in Hr as (h & _ & _ & H).
    exact H. }
  assert (Hold : forall r, In r kept -> d_date r < start).
  { intros r Hr. destruct (Hkept r Hr) as [Hin Hnot].
    destruct (Hsrc r Hin) as (h & Hh & Hd).
    destruct (Z.lt_ge_cases (d_date r) start) as [|Hge]; [assumption|].
    exfalso. apply Hnot. rewrite <- Hd.
    apply select_daily_data_covers; [assumption | lia]. }
  split.
  - intros d. unfold daily_replace. fold data dates kept. simpl.
    rewrite category_total_on_app, usage_total_on_app, category_total_select.
    simpl. rewrite filter_app.
    rewrite (filter_none _ kept)
      by (intros r Hr; apply Z.leb_gt; auto).
    rewrite (filter_all _ data)
      by (intros r Hr; apply Z.leb_le; auto).
    simpl.
    enough (E : category_total_on d
                  (filter (fun r => negb (in_dates dates (c_date r)))
                          (daily_category_usage db))
                = usage_total_on d kept) by lia.
    destruct (in_dec Z.eq_dec d dates) as [Hd | Hd].
    + rewrite category_total_on_none, usage_total_on_none; [reflexivity | |].
      * intros r Hr. destruct (Hkept r Hr) as [_ Hn]. congruence.
      * intros r Hr. apply filter_In in Hr as [_ Hn].
        intros E. rewrite E in Hn.
        apply in_dates_spec in Hd. rewrite Hd in Hn. discriminate.
    + apply in_dates_false in Hd.
      unfold category_total_on, usage_total_on, kept.
      rewrite !filter_filter.
      rewrite (filter_ext (fun x => negb (in_dates dates (c_date x))
                                    && (c_date x =? d))
                          (fun r => c_date r =? d)).
      * rewrite (filter_ext (fun x => negb (in_dates dates (d_date x))
                                      && (d_date x =? d))
                            (fun r => d_date r =? d)).
        -- apply Htot.
        -- intros r. destruct (Z.eqb_spec (d_date r) d) as [->|];
             [now rewrite Hd | now rewrite andb_false_r].
      * intros r. destruct (Z.eqb_spec (c_date r) d) as [->|];
          [now rewrite Hd | now rewrite andb_false_r].
  - intros r. unfold daily_replace. fold data dates kept. simpl.
    intros Hr. apply in_app_or in Hr as [Hr | Hr].
    + apply Hsrc. now apply Hkept.
    + apply select_daily_data_from_hourly in Hr as (h & Hh & Hd & _).
      now exists h.
Qed.

Lemma daily_pass_consistent (db : Database) :
  daily_consistent db -> daily_consistent (daily_pass db).
Proof.
  intros H. unfold daily_pass.
  destruct (select_daily_data (daily_start db) db) eqn:E; [assumption|].
  rewrite <- E. now apply daily_replace_consistent.
Qed.

(** The hourly pass drops no date from hourly_usage. *)
Lemma hourly_pass_keeps_dates (self : CategoryManager) (db : Database)
  (h : HourlyUsage) :
  In h (hourly_usage db) ->
  exists h', In h' (hourly_usage (hourly_pass self db)) /\ h_date h' = h_date h.
Proof.
  intros Hh. unfold hourly_pass; simpl.
  set (data := select_hourly_data (hourly_start db) db).
  set (slots := map (fun row => (g_date row, g_hour row)) data).
  destruct (in_slots slots h) eqn:E.
  - unfold in_slots in E. apply existsb_exists in E as (slot & Hs & Hm).
    apply in_map_iff in Hs as (g & <- & Hg). simpl in Hm.
    apply andb_true_iff in Hm as [Hd _]. apply Z.eqb_eq in Hd.
    exists (hourly_row self g). split; [|simpl; congruence].
    apply in_or_app. right. now apply in_map.
  - exists h. split; [|reflexivity].
    apply in_or_app. left. apply filter_In. now rewrite E.
Qed.

Lemma hourly_pass_consistent (self : CategoryManager) (db : Database) :
  daily_consistent db -> daily_consistent (hourly_pass self db).
Proof.
  intros [Htot Hsrc]. split; [exact Htot|].
  intros r Hr. destruct (Hsrc r Hr) as (h & Hh & Hd).
  destruct (hourly_pass_keeps_dates self db h Hh) as (h' & Hh' & Hd').
  exists h'. split; [assumption | congruence].
Qed.

Lemma update_stage_disk (w : World) :
  exists t, disk (state_of (_update_app_categories_table w))
            = set_app_categories t (disk w).
Proof.
  pose proof (update_app_categories_body_post w) as H.
  unfold _update_app_categories_table, try_except, post in *.
  destruct (update_app_categories_body w) as [[] w1 | e w1]; simpl.
  - destruct H as (-> & _). eauto.
  - destruct H as (_ & _ & -> & _). exists (app_categories (disk w)).
    now destruct (disk w).
Qed.

Lemma step_consistent (w w' : World) :
  step w w' -> daily_consistent (disk w) -> daily_consistent (disk w').
Proof.
  intros Hstep H. destruct Hstep; simpl; try assumption.
  - now rewrite keeps_disk_load_categories.
  - destruct (update_stage_disk w) as [t ->]. exact H.
  - destruct (hourly_stage_cases w) as (w' & -> & _ & _ & _ & Hc); simpl.
    destruct Hc as [(_ & -> & _) | (e & w1 & _ & _ & ->)];
      [now apply hourly_pass_consistent | assumption].
  - destruct (daily_stage_cases w) as (w' & -> & _ & _ & _ & Hc); simpl.
    destruct Hc as [(_ & -> & _) | (e & w1 & _ & _ & ->)];
      [now apply daily_pass_consistent | assumption].
Qed.

Lemma reachable_consistent (w : World) :
  reachable w -> daily_consistent (disk w).
Proof.
  induction 1 as [src evs fault | w w' _ IH Hstep].
  - split; [reflexivity | intros r []].
  - eapply step_consistent; eauto.
Qed.

(** A cycle, and any number of ticks, lead from a reachable world to a
    reachable world. *)
Lemma reachable_process_all (w : World) :
  reachable w -> reachable (state_of (process_all w)).
Proof.
  intros H. rewrite process_all_done. simpl. unfold before_hourly_stage.
  repeat (eapply reachable_step; [|constructor]). exact H.
Qed.

(** C5.  In every world a processor gets into from a database without
    aggregates, and so after every daily pass, the total_seconds of the
    daily_category_usage rows of a date add up to the total_seconds of
    the daily_usage rows of that date, for every date. *)
Theorem daily_category_totals_agree (w : World) :
  reachable w ->
  let w' := state_of (_process_daily_aggregations w) in
  forall d,
    category_total_on d (daily_category_usage (disk w'))
    = usage_total_on d (daily_usage (disk w')).
Proof.
  intros H w' d.
  assert (Hr : reachable w') by (eapply reachable_step; [exact H | constructor]).
  apply reachable_consistent in Hr. now destruct Hr as [Htot _].
Qed.

Lemma daily_category_totals_agree_witness :
  reachable (state_of (_process_hourly_aggregations
                         (fresh Missing boundary_events no_fault))) /\
  usage_total_on 19723
    (daily_usage (disk (state_of (_process_daily_aggregations
       (state_of (_process_hourly_aggregations
                    (fresh Missing boundary_events no_fault)))))))
  = 30 /\
  category_total_on 19723
    (daily_category_usage (disk (state_of (_process_daily_aggregations
       (state_of (_process_hourly_aggregations
                    (fresh Missing boundary_events no_fault)))))))
  = usage_total_on 19723
      (daily_usage (disk (state_of (_process_daily_aggregations
         (state_of (_process_hourly_aggregations
                      (fresh Missing boundary_events no_fault))))))).
Proof.
  assert (Hr : reachable (state_of (_process_hourly_aggregations
                                      (fresh Missing boundary_events no_fault))))
    by exact (reachable_step
                (reachable_fresh Missing boundary_events no_fault)
                (step_hourly _)).
  split; [exact Hr|]. split; [vm_compute; reflexivity|].
  exact (daily_category_totals_agree Hr 19723).
Defined.

(* ================================================================= *)
(** ** The lookback boundary *)

(** C1 (the code at the failing input).  Over [boundary_events] the
    first pass puts the two events of hour 8 into one bucket (20 seconds,
    2 events).  The second pass, with no event added, selects the events
    later than 08:59:59: of hour 8 only the event at 08:59:59.500000.  It
    deletes the bucket of hour 8 and writes it again from that one event
    (10 seconds, 1 event): the table is not the one the first pass
    left. *)
Theorem second_hourly_pass_changes_buckets :
  let w0 := fresh Missing boundary_events no_fault in
  let w1 := state_of (_process_hourly_aggregations w0) in
  let w2 := state_of (_process_hourly_aggregations w1) in
  events (disk w1) = boundary_events /\
  manager w1 = manager w0 /\
  hourly_usage (disk w1) = [firefox_bucket 8 20 2; firefox_bucket 10 10 1] /\
  hourly_start (disk w1) = at_time 19723 8 59 59 0 /\
  hourly_usage (disk w2) = [firefox_bucket 8 10 1; firefox_bucket 10 10 1] /\
  ~ Permutation (hourly_usage (disk w1)) (hourly_usage (disk w2)).
Proof.
  cbv zeta.
  set (w1 := state_of (_process_hourly_aggregations
                         (fresh Missing boundary_events no_fault))).
  assert (E1 : hourly_usage (disk w1)
               = [firefox_bucket 8 20 2; firefox_bucket 10 10 1])
    by (vm_compute; reflexivity).
  assert (E2 : hourly_usage (disk (state_of (_process_hourly_aggregations w1)))
               = [firefox_bucket 8 10 1; firefox_bucket 10 10 1])
    by (vm_compute; reflexivity).
  repeat split; try assumption; try (vm_compute; reflexivity).
  rewrite E1, E2. intros HP.
  apply (Permutation_in (firefox_bucket 8 20 2)) in HP; [|now left].
  unfold firefox_bucket in HP.
  destruct HP as [HP | [HP | []]]; discriminate HP.
Qed.

(** C6 (the code at the failing input).  After a pass over
    [early_events] the bucket of hour 8 holds 10 seconds and 1 event, and
    the pass would next select the events later than 08:59:59.  The late
    event at 08:59:59.500000 is later than that.  The next pass selects,
    of hour 8, only the late event, and replaces the bucket by one of 7
    seconds and 1 event, where 17 seconds and 2 events were due. *)
Theorem late_event_replaces_bucket :
  let w0 := fresh Missing early_events no_fault in
  let w1 := state_of (_process_hourly_aggregations w0) in
  let w1' := set_disk (add_event late_event (disk w1)) w1 in
  let w2 := state_of (_process_hourly_aggregations w1') in
  hourly_usage (disk w1) = [firefox_bucket 8 10 1; firefox_bucket 10 10 1] /\
  hourly_start (disk w1') < timestamp late_event /\
  event_key late_event = (19723, 8, "desktop", "firefox", None) /\
  hourly_usage (disk w2) = [firefox_bucket 8 7 1; firefox_bucket 10 10 1] /\
  ~ In (firefox_bucket 8 17 2) (hourly_usage (disk w2)).
Proof.
  cbv zeta.
  set (w1 := state_of (_process_hourly_aggregations
                         (fresh Missing early_events no_fault))).
  set (w2 := state_of (_process_hourly_aggregations
                         (set_disk (add_event late_event (disk w1)) w1))).
  assert (E2 : hourly_usage (disk w2)
               = [firefox_bucket 8 7 1; firefox_bucket 10 10 1])
    by (vm_compute; reflexivity).
  repeat split; try assumption; try (vm_compute; reflexivity).
  rewrite E2. unfold firefox_bucket.
  intros [H | [H | []]]; discriminate H.
Qed.

(* ================================================================= *)
(** ** Re-running the hourly pass away from the boundary *)

Lemma strftime_hour_index (ts : Z) :
  hour_index (strftime_date ts) (strftime_hour ts) = ts / usec_per_hour.
Proof.
  unfold hour_index, strftime_date, strftime_hour, usec_per_day.
  rewrite (Z.mul_comm 24), <- Z.div_div by (unfold usec_per_hour, usec_per_second; lia).
  pose proof (Z.div_mod (ts / usec_per_hour) 24). lia.
Qed.

Lemma strftime_hour_range (ts : Z) : 0 <= strftime_hour ts < 24.
Proof. unfold strftime_hour. apply Z.mod_pos_bound. lia. Qed.

Lemma hour_end_index (date hour : Z) :
  hour_end date hour
  = hour_index date hour * usec_per_hour + 3599 * usec_per_second.
Proof. reflexivity. Qed.

(** Later than the lookback start of the hour [i], for an event off the
    boundary, is: in the hour before [i] or later. *)
Lemma after_lookback_start (e : Event) (i : Z) :
  off_boundary e ->
  (i * usec_per_hour + 3599 * usec_per_second - lookback_hours * usec_per_hour
   < timestamp e
   <-> i - 1 <= timestamp e / usec_per_hour).
Proof.
  intros [_ Hb].
  pose proof (Z.div_mod (timestamp e) usec_per_hour) as Hdm.
  pose proof (Z.mod_pos_bound (timestamp e) usec_per_hour) as Hm.
  unfold lookback_hours, usec_per_hour, usec_per_second in *.
  lia.
Qed.

Lemma fold_max_spec (l : list Z) (x : Z) :
  let m := fold_left Z.max l x in
  (m = x \/ In m l) /\ x <= m /\ forall y, In y l -> y <= m.
Proof.
  revert x; induction l as [|a l IH]; intros x; simpl.
  - repeat split; [now left | lia | intros y []].
  - destruct (IH (Z.max x a)) as (Hin & Hle & Hall).
    repeat split.
    + destruct Hin as [-> | Hin]; [|right; now right].
      destruct (Z.max_spec x a) as [[_ ->] | [_ ->]]; [right; now left | now left].
    + lia.
    + intros y [<- | Hy]; [lia | auto].
Qed.

Lemma max_of_spec (l : list Z) (m : Z) :
  max_of l = Some m -> In m l /\ forall y, In y l -> y <= m.
Proof.
  destruct l as [|x l]; simpl; [discriminate|]. intros [= <-].
  destruct (fold_max_spec l x) as (Hin & Hle & Hall). split.
  - destruct Hin as [-> | Hin]; [now left | now right].
  - intros y [<- | Hy]; auto.
Qed.

Lemma max_of_none (l : list Z) : max_of l = None -> l = [].
Proof. destruct l; [reflexivity | discriminate]. Qed.

Lemma in_select_hourly_data (start : Z) (db : Database) (g : HourlyGroup) :
  In g (select_hourly_data start db) <->
  exists e,
    In e (events db) /\ start < timestamp e /\
    g = hourly_group
          (event_key e,
           filter (same_key event_key HourKey_eq_dec (event_key e))
                  (filter (fun x => start <? timestamp x) (events db))).
Proof.
  unfold select_hourly_data. rewrite in_order_by, in_map_iff. split.
  - intros (gr & <- & Hg). unfold group_by in Hg.
    apply in_map_iff in Hg as (k & <- & Hk).
    apply nodup_In, in_map_iff in Hk as (e & <- & He).
    apply filter_In in He as [He Hs]. apply Z.ltb_lt in Hs.
    now exists e.
  - intros (e & He & Hs & ->). eexists. split; [reflexivity|].
    apply in_group_by. apply filter_In. split; [assumption | now apply Z.ltb_lt].
Qed.

Lemma Permutation_order_by {A} (leb : A -> A -> bool) (l : list A) :
  Permutation (order_by leb l) l.
Proof.
  induction l as [|x l IH]; simpl; [constructor|].
  transitivity (x :: order_by leb l); [|now constructor].
  clear IH. induction (order_by leb l) as [|y l' IH]; simpl; [reflexivity|].
  destruct (leb x y); [reflexivity|].
  transitivity (y :: x :: l'); [now constructor | constructor].
Qed.

Lemma hourly_group_key (k k' : HourKey) (l l' : list Event) :
  hourly_group (k, l) = hourly_group (k', l') -> k = k'.
Proof.
  destruct k as [[[[a b] c] d] u], k' as [[[[a' b'] c'] d'] u']; simpl.
  intros [= -> -> -> -> ->]. reflexivity.
Qed.

(** The groups of a selection are distinct. *)
Lemma NoDup_select_hourly_data (start : Z) (db : Database) :
  NoDup (select_hourly_data start db).
Proof.
  unfold select_hourly_data.
  eapply Permutation_NoDup; [symmetry; apply Permutation_order_by|].
  unfold group_by. rewrite map_map.
  set (rows := filter _ (events db)).
  assert (H : NoDup (nodup HourKey_eq_dec (map event_key rows)))
    by apply NoDup_nodup.
  induction H as [|k ks Hk Hks IH]; simpl; constructor; [|exact IH].
  intros Hin. apply in_map_iff in Hin as (k' & E & Hk').
  apply hourly_group_key in E. now subst.
Qed.

Lemma hourly_pass_keeps_slots (self : CategoryManager) (db : Database)
  (h : HourlyUsage) :
  In h (hourly_usage db) ->
  exists h', In h' (hourly_usage (hourly_pass self db)) /\
             h_date h' = h_date h /\ h_hour h' = h_hour h.
Proof.
  intros Hh. unfold hourly_pass; simpl.
  set (data := select_hourly_data (hourly_start db) db).
  set (slots := map (fun row => (g_date row, g_hour row)) data).
  destruct (in_slots slots h) eqn:E.
  - unfold in_slots in E. apply existsb_exists in E as (slot & Hs & Hm).
    apply in_map_iff in Hs as (g & <- & Hg). simpl in Hm.
    apply andb_true_iff in Hm as [Hd Hhr].
    apply Z.eqb_eq in Hd. apply Z.eqb_eq in Hhr.
    exists (hourly_row self g). repeat split; simpl; try congruence.
    apply in_or_app. right. now apply in_map.
  - exists h. repeat split.
    apply in_or_app. left. apply filter_In. now rewrite E.
Qed.

(** Where the hourly pass starts: two hours before the epoch on an empty
    table, else two hours before the end of the latest hour. *)
Lemma hourly_start_cases (db : Database) :
  (hourly_usage db = [] /\
   hourly_start db = epoch_ts - lookback_hours * usec_per_hour)
  \/
  (exists r, In r (hourly_usage db) /\
     hourly_start db
     = hour_end (h_date r) (h_hour r) - lookback_hours * usec_per_hour /\
     forall h, In h (hourly_usage db) ->
               hour_index (h_date h) (h_hour h)
               <= hour_index (h_date r) (h_hour r)).
Proof.
  unfold hourly_start, select_max_hour_end.
  destruct (max_of _) as [m|] eqn:E.
  - right. apply max_of_spec in E as [Hin Hmax].
    apply in_map_iff in Hin as (r & <- & Hr).
    exists r. repeat split; [assumption|].
    intros h Hh.
    assert (Hle : hour_end (h_date h) (h_hour h)
                  <= hour_end (h_date r) (h_hour r)).
    { apply Hmax. apply in_map_iff. now exists h. }
    rewrite !hour_end_index in Hle.
    unfold usec_per_hour, usec_per_second in Hle. lia.
  - left. apply max_of_none, map_eq_nil in E. now split.
Qed.

Lemma event_key_hour_index (e e' : Event) :
  event_key e' = event_key e ->
  timestamp e' / usec_per_hour = timestamp e / usec_per_hour.
Proof.
  unfold event_key. intros [= Hd Hh _ _ _].
  rewrite <- !strftime_hour_index. congruence.
Qed.

(** The group of a key is made of all the events of the key as soon as
    the selection takes each of them. *)
Lemma group_of_selected_key (start : Z) (evs : list Event) (e : Event) :
  (forall e', In e' evs -> event_key e' = event_key e ->
              start < timestamp e') ->
  filter (same_key event_key HourKey_eq_dec (event_key e))
         (filter (fun x => start <? timestamp x) evs)
  = filter (same_key event_key HourKey_eq_dec (event_key e)) evs.
Proof.
  intros H. rewrite filter_filter. apply filter_ext_in. intros e' He'.
  unfold same_key. destruct (HourKey_eq_dec (event_key e') (event_key e)) as [E|];
    [|apply andb_false_r].
  rewrite andb_true_r. apply Z.ltb_lt. auto.
Qed.

Lemma Permutation_filter_split {A} (p : A -> bool) (l : list A) :
  Permutation (filter (fun x => negb (p x)) l ++ filter p l) l.
Proof.
  induction l as [|x l IH]; simpl; [constructor|].
  destruct (p x); simpl.
  - symmetry. apply Permutation_cons_app. now symmetry.
  - now constructor.
Qed.

(** Re-run over the same events, a pass selects the groups of the first
    pass from one hour on, as the first pass built them. *)
Lemma rerun_selects_whole_hours (self : CategoryManager) (db : Database) :
  (forall e, In e (events db) -> off_boundary e) ->
  select_hourly_data (hourly_start db) db <> [] ->
  exists from,
    forall g,
      In g (select_hourly_data (hourly_start (hourly_pass self db))
                               (hourly_pass self db))
      <-> In g (select_hourly_data (hourly_start db) db) /\
          from_hour from g = true.
Proof.
  intros Hoff Hdata.
  set (db1 := hourly_pass self db).
  destruct (hourly_start_cases db1) as [[Hnil _] | (r & Hr & Hs1 & _)].
  { exfalso. unfold db1, hourly_pass in Hnil; simpl in Hnil.
    apply app_eq_nil in Hnil as [_ Hnil]. apply map_eq_nil in Hnil.
    contradiction. }
  set (M := hour_index (h_date r) (h_hour r)) in *.
  assert (Hmax : forall h, In h (hourly_usage db) ->
                           hour_index (h_date h) (h_hour h) <= M).
  { intros h Hh.
    destruct (hourly_pass_keeps_slots self db h Hh) as (h' & Hh' & Ed & Eh).
    rewrite <- Ed, <- Eh.
    destruct (hourly_start_cases db1) as [[Hnil _] | (r' & Hr' & Hs' & Hm')].
    - fold db1 in Hh'. rewrite Hnil in Hh'. destruct Hh'.
    - rewrite Hs1 in Hs'. rewrite !hour_end_index in Hs'.
      assert (hour_index (h_date r') (h_hour r') = M)
        by (unfold usec_per_hour, usec_per_second in Hs'; unfold M; lia).
      rewrite <- H. now apply Hm'. }
  assert (Hsel1 : forall e, In e (events db) ->
            (hourly_start db1 < timestamp e
             <-> M - 1 <= timestamp e / usec_per_hour)).
  { intros e He. rewrite Hs1, hour_end_index. fold M.
    apply after_lookback_start. auto. }
  assert (Hsel0 : forall e, In e (events db) ->
            M - 1 <= timestamp e / usec_per_hour ->
            hourly_start db < timestamp e).
  { intros e He Hi. destruct (Hoff e He) as [Hpos _].
    pose proof (Z.div_mod (timestamp e) usec_per_hour) as Hdm.
    pose proof (Z.mod_pos_bound (timestamp e) usec_per_hour) as Hm.
    destruct (hourly_start_cases db) as [[_ ->] | (r0 & Hr0 & -> & _)].
    - unfold epoch_ts, lookback_hours, usec_per_hour, usec_per_second. lia.
    - specialize (Hmax r0 Hr0). rewrite hour_end_index.
      unfold lookback_hours, usec_per_hour, usec_per_second in *. lia. }
  assert (Hgroup : forall start e, In e (events db) ->
            (forall e', In e' (events db) ->
                        M - 1 <= timestamp e' / usec_per_hour ->
                        start < timestamp e') ->
            M - 1 <= timestamp e / usec_per_hour ->
            filter (same_key event_key HourKey_eq_dec (event_key e))
                   (filter (fun x => start <? timestamp x) (events db))
            = filter (same_key event_key HourKey_eq_dec (event_key e))
                     (events db)).
  { intros start e He Hstart Hi. apply group_of_selected_key.
    intros e' He' Ek. apply Hstart; [assumption|].
    now rewrite (event_key_hour_index Ek). }
  exists (M - 1). intros g.
  rewrite !in_select_hourly_data. fold db1.
  change (events db1) with (events db).
  split.
  - intros (e & He & Hs & ->).
    assert (Hi : M - 1 <= timestamp e / usec_per_hour) by now apply Hsel1.
    split.
    + exists e. repeat split; [assumption | now apply Hsel0 |].
      rewrite !Hgroup; auto. intros e' He' Hi'. now apply Hsel1.
    + unfold from_hour, event_key; simpl.
      rewrite strftime_hour_index. now apply Z.leb_le.
  - intros [(e & He & Hs & ->) Hfrom].
    unfold from_hour, event_key in Hfrom; simpl in Hfrom.
    rewrite strftime_hour_index in Hfrom. apply Z.leb_le in Hfrom.
    exists e. repeat split; [assumption | now apply Hsel1 |].
    rewrite !Hgroup; auto. intros e' He' Hi'. now apply Hsel1.
Qed.

Lemma in_slots_spec (slots : list (Z * Z)) (r : HourlyUsage) :
  in_slots slots r = true <-> In (h_date r, h_hour r) slots.
Proof.
  unfold in_slots. rewrite existsb_exists. split.
  - intros ([d h] & Hin & E). simpl in E.
    apply andb_true_iff in E as [Ed Eh].
    apply Z.eqb_eq in Ed. apply Z.eqb_eq in Eh. now subst.
  - intros H. exists (h_date r, h_hour r). split; [assumption|].
    simpl. now rewrite !Z.eqb_refl.
Qed.

(** Idempotence away from the boundary.  When no event lies strictly
    between hh:59:59 and the next full hour (and none before the epoch),
    a second hourly pass over the same events and the same rules leaves
    the set of buckets of the first pass. *)
Lemma hourly_pass_rerun_off_boundary (self : CategoryManager) (db : Database) :
  (forall e, In e (events db) -> off_boundary e) ->
  Permutation (hourly_usage (hourly_pass self (hourly_pass self db)))
              (hourly_usage (hourly_pass self db)).
Proof.
  intros Hoff.
  destruct (select_hourly_data (hourly_start db) db) as [|g0 rest] eqn:Hdata.
  { rewrite !(hourly_pass_no_data self db Hdata). reflexivity. }
  assert (Hne : select_hourly_data (hourly_start db) db <> [])
    by (rewrite Hdata; discriminate).
  clear Hdata g0 rest.
  destruct (@rerun_selects_whole_hours self db Hoff Hne) as [from Hmem].
  set (db1 := hourly_pass self db) in *.
  set (data0 := select_hourly_data (hourly_start db) db) in *.
  set (data1 := select_hourly_data (hourly_start db1) db1) in *.
  set (slot := fun row : HourlyGroup => (g_date row, g_hour row)).
  set (keep0 := filter (fun r => negb (in_slots (map slot data0) r))
                       (hourly_usage db)).
  assert (E1 : hourly_usage db1 = keep0 ++ map (hourly_row self) data0)
    by reflexivity.
  assert (E2 : hourly_usage (hourly_pass self db1)
               = filter (fun r => negb (in_slots (map slot data1) r))
                        (hourly_usage db1)
                 ++ map (hourly_row self) data1) by reflexivity.
  assert (P1 : Permutation data1 (filter (from_hour from) data0)).
  { apply NoDup_Permutation.
    - apply NoDup_select_hourly_data.
    - apply NoDup_filter, NoDup_select_hourly_data.
    - intros g. rewrite filter_In. apply Hmem. }
  assert (Hkeep : filter (fun r => negb (in_slots (map slot data1) r)) keep0
                  = keep0).
  { apply filter_all. intros h Hh.
    apply filter_In in Hh as [_ Hn].
    destruct (in_slots (map slot data1) h) eqn:E; [|reflexivity].
    apply in_slots_spec, in_map_iff in E as (g1 & Eg & Hg1).
    apply Hmem in Hg1 as [Hg1 _].
    assert (in_slots (map slot data0) h = true) as Hin.
    { apply in_slots_spec. rewrite <- Eg. now apply in_map. }
    rewrite Hin in Hn. discriminate. }
  assert (Hrows : filter (fun r => negb (in_slots (map slot data1) r))
                         (map (hourly_row self) data0)
                  = map (hourly_row self)
                        (filter (fun g => negb (from_hour from g)) data0)).
  { rewrite filter_map_swap. f_equal. apply filter_ext_in. intros g Hg.
    f_equal.
    destruct (from_hour from g) eqn:Ef.
    - apply in_slots_spec. simpl.
      change (g_date g, g_hour g) with (slot g). apply in_map.
      apply Hmem. now split.
    - destruct (in_slots (map slot data1) (hourly_row self g)) eqn:E;
        [|reflexivity].
      apply in_slots_spec, in_map_iff in E as (g1 & Eg & Hg1).
      apply Hmem in Hg1 as [_ Hf1]. simpl in Eg.
      unfold from_hour in *. injection Eg as Ed Eh.
      rewrite Ed, Eh in Hf1. congruence. }
  rewrite E2, E1, filter_app, Hkeep, Hrows, <- app_assoc.
  apply Permutation_app_head.
  transitivity (map (hourly_row self)
                  (filter (fun g => negb (from_hour from g)) data0
                   ++ filter (from_hour from) data0)).
  - rewrite map_app. apply Permutation_app_head. now apply Permutation_map.
  - apply Permutation_map, Permutation_filter_split.
Qed.

(** The same for two runs of the stage whose [try] blocks return. *)
Lemma hourly_stage_rerun_off_boundary (w w1 w2 : World) :
  process_hourly_body w = Done tt w1 ->
  process_hourly_body w1 = Done tt w2 ->
  (forall e, In e (events (disk w)) -> off_boundary e) ->
  Permutation (hourly_usage (disk w2)) (hourly_usage (disk w1)).
Proof.
  intros H1 H2 Hoff.
  pose proof (process_hourly_body_post w) as P1.
  pose proof (process_hourly_body_post w1) as P2.
  unfold post in *. rewrite H1 in P1. rewrite H2 in P2.
  destruct P1 as (D1 & _ & M1 & _), P2 as (D2 & _).
  rewrite D2, M1, D1. now apply hourly_pass_rerun_off_boundary.
Qed.

(** Every bucket the pass writes stands for an hour of the day. *)
Lemma select_hourly_data_hour_range (start : Z) (db : Database)
  (g : HourlyGroup) :
  In g (select_hourly_data start db) -> 0 <= g_hour g < 24.
Proof.
  intros H. apply in_select_hourly_data in H as (e & _ & _ & ->).
  unfold event_key; simpl. apply strftime_hour_range.
Qed.

(* ================================================================= *)
(** ** The hourly pass returns unless the storage fails *)

Lemma bind_raised {A B} (m : M A) (k : A -> M B) (w w' : World) (e : exn) :
  bind m k w = Raised e w' ->
  m w = Raised e w' \/ exists a w1, m w = Done a w1 /\ k a w1 = Raised e w'.
Proof.
  unfold bind. destruct (m w) as [a w1 | e1 w1]; intros H.
  - right. now exists a, w1.
  - left. injection H as -> ->. reflexivity.
Qed.

Lemma frame_fault_free (w w' : World) :
  frame w w' -> fault_free w -> fault_free w'.
Proof. intros (_ & _ & _ & Hsf & _) H n. rewrite Hsf. apply H. Qed.

Lemma storage_call_returns (w w' : World) (e : exn) :
  fault_free w -> storage_call w <> Raised e w'.
Proof. intros H. unfold storage_call. now rewrite H. Qed.

Lemma connect_returns (w w' : World) (e : exn) :
  fault_free w -> _get_database_connection w <> Raised e w'.
Proof.
  intros H. unfold _get_database_connection, bind, storage_call, modify.
  now rewrite H.
Qed.

Lemma query_returns {A} (f : Database -> A) (w w' : World) (e : exn) :
  fault_free w -> query f w <> Raised e w'.
Proof. intros H. unfold query, bind, storage_call, gets. now rewrite H. Qed.

Lemma execute_returns (f : Database -> Database) (w w' : World) (e : exn) :
  fault_free w -> execute f w <> Raised e w'.
Proof. intros H. unfold execute, bind, storage_call, modify. now rewrite H. Qed.

Lemma commit_returns (w w' : World) (e : exn) :
  fault_free w -> conn_commit w <> Raised e w'.
Proof. intros H. unfold conn_commit, bind, storage_call, modify. now rewrite H. Qed.

Lemma insert_into_returns {Row} (table : Database -> list Row)
  (set_table : list Row -> Database -> Database)
  (conflict : Row -> Row -> bool) (r : Row) (w w' : World) (e : exn) :
  fault_free w ->
  existsb (conflict r) (table (txn w)) = false ->
  insert_into table set_table conflict r w <> Raised e w'.
Proof.
  intros H Hc. unfold insert_into, bind, storage_call, gets, modify.
  rewrite H; simpl. now rewrite Hc.
Qed.




Lemma group_key_hourly_group (k : HourKey) (l : list Event) :
  group_key (hourly_group (k, l)) = k.
Proof. now destruct k as [[[[a b] c] d] u]. Qed.

Lemma NoDup_group_keys (start : Z) (db : Database) :
  NoDup (map group_key (select_hourly_data start db)).
Proof.
  unfold select_hourly_data.
  eapply Permutation_NoDup;
    [symmetry; apply Permutation_map, Permutation_order_by|].
  unfold group_by. rewrite !map_map.
  rewrite (map_ext _ (fun k => k)) by (intros k; apply group_key_hourly_group).
  rewrite map_id. apply NoDup_nodup.
Qed.


(** Inserts of rows with distinct keys into a table that holds none of
    the keys meet no constraint. *)
Lemma for_each_insert_returns {Row K} (table : Database -> list Row)
  (set_table : list Row -> Database -> Database)
  (conflict : Row -> Row -> bool) (keyf : Row -> K)
  (rows : list Row) (w w' : World) (e : exn) :
  (forall t db, table (set_table t db) = t) ->
  (forall a b, conflict a b = true -> keyf a = keyf b) ->
  fault_free w ->
  NoDup (map keyf rows) ->
  (forall r x, In r rows -> In x (table (txn w)) -> conflict r x = false) ->
  for_each rows (insert_into table set_table conflict) w <> Raised e w'.
Proof.
  intros Hget Hkey.
  revert w; induction rows as [|r rows IH]; intros w Hff Hnd Hold;
    cbn [for_each]; [discriminate|].
  intros H. apply bind_raised in H as [H | ([] & w1 & Hd & H)].
  - revert H. apply insert_into_returns; [assumption|].
    destruct (existsb _ _) eqn:E; [|reflexivity].
    apply existsb_exists in E as (x & Hx & Hc).
    rewrite (Hold r x) in Hc; [discriminate | now left | assumption].
  - pose proof (post_insert_into table set_table conflict r w) as P.
    unfold post in P. rewrite Hd in P. destruct P as (Hf & _ & Ht).
    inversion Hnd as [|? ? Hr Hnd']; subst.
    apply (IH w1); try assumption.
    + eapply frame_fault_free; eauto.
    + intros r' x Hr' Hx. rewrite Ht, Hget in Hx.
      apply in_app_or in Hx as [Hx | [<- | []]].
      * apply Hold; [now right | assumption].
      * destruct (conflict r' r) eqn:E; [|reflexivity].
        exfalso. apply Hr. rewrite <- (Hkey _ _ E). now apply in_map.
Qed.

(** The update of app_categories succeeds unless the storage fails. *)
Lemma update_app_categories_returns (w : World) :
  fault_free w ->
  Dict.wf (app_mappings (manager w)) ->
  exists w', update_app_categories_body w = Done tt w'.
Proof.
  intros Hff Hwf.
  destruct (update_app_categories_body w) as [[] w' | e w'] eqn:Hrun; [eauto|].
  exfalso. revert Hrun. unfold update_app_categories_body.
  intros H. apply bind_raised in H as [H | ([] & w1 & Hd1 & H)];
    [now apply connect_returns in H|].
  pose proof (post_connect w) as P1. unfold post in P1. rewrite Hd1 in P1.
  destruct P1 as [Hf1 Ht1].
  assert (Hff1 : fault_free w1) by (eapply frame_fault_free; eauto).
  apply bind_raised in H as [H | ([] & w2 & Hd2 & H)];
    [now apply execute_returns in H|].
  pose proof (post_execute delete_app_categories w1) as P2. unfold post in P2.
  rewrite Hd2 in P2. destruct P2 as [Hf2 Ht2].
  assert (Hff2 : fault_free w2) by (eapply frame_fault_free; eauto).
  assert (Hm2 : manager w2 = manager w).
  { destruct Hf1 as (_ & H1 & _), Hf2 as (_ & H2 & _). congruence. }
  unfold bind at 1, gets at 1 in H. rewrite Hm2 in H.
  set (mappings := Dict.items (app_mappings (manager w))) in *.
  apply bind_raised in H as [H | ([] & w3 & Hd3 & H)].
  - rewrite (for_each_ext mappings _
               (fun x => insert_app_category (app_category_row x)))
      in H by (now intros [a c] w0).
    rewrite <- for_each_map in H. revert H.
    apply for_each_insert_returns with (keyf := a_app_name); try assumption.
    + reflexivity.
    + intros a b E. now apply String.eqb_eq in E.
    + rewrite map_map. exact Hwf.
    + intros r x _ Hx. rewrite Ht2 in Hx. destruct Hx.
  - rewrite (for_each_ext mappings _
               (fun x => insert_app_category (app_category_row x)))
      in Hd3 by (now intros [a c] w0).
    rewrite <- for_each_map in Hd3.
    pose proof (post_for_each_insert app_categories set_app_categories
                  uq_app_category (map app_category_row mappings) w2) as P3.
    unfold post, insert_app_category in *. rewrite Hd3 in P3.
    destruct P3 as [Hf3 _]; try (intros; now try destruct db).
    assert (Hff3 : fault_free w3) by (eapply frame_fault_free; eauto).
    apply bind_raised in H as [H | ([] & w4 & Hd4 & H)];
      [now apply commit_returns in H|].
    discriminate H.
Qed.

Lemma flatten_apps_wf (category : string) (apps : list pyobj) (w : World) :
  Dict.wf (app_mappings (manager w)) ->
  post (for_each apps (fun app =>
          app_lower <- py_lower app ;;
          modify (fun w =>
            set_app_mappings
              (Dict.set app_lower category (app_mappings (manager w))) w))) w
       (fun _ w' => Dict.wf (app_mappings (manager w')))
       (fun _ w' => Dict.wf (app_mappings (manager w'))).
Proof.
  revert w; induction apps as [|app apps IH]; intros w Hwf;
    cbn [for_each]; [exact Hwf|].
  apply post_bind.
  destruct app; try exact Hwf. simpl py_lower.
  apply post_bind, post_ret. unfold modify, post at 1.
  apply IH. simpl. now apply dict_wf_set.
Qed.

Lemma flatten_categories_wf (entries : list (string * pyobj)) (w : World) :
  Dict.wf (app_mappings (manager w)) ->
  post (for_each entries (fun '(category, info) =>
          apps <- py_get "apps" (PList []) info ;;
          apps <- py_iter apps ;;
          for_each apps (fun app =>
            app_lower <- py_lower app ;;
            modify (fun w =>
              set_app_mappings
                (Dict.set app_lower category (app_mappings (manager w))) w)))) w
       (fun _ w' => Dict.wf (app_mappings (manager w')))
       (fun _ w' => Dict.wf (app_mappings (manager w'))).
Proof.
  revert w; induction entries as [|[category info] entries IH]; intros w Hwf;
    cbn [for_each]; [exact Hwf|].
  eapply post_seq with
    (Pd := fun _ w' => Dict.wf (app_mappings (manager w')))
    (Pr := fun _ w' => Dict.wf (app_mappings (manager w')));
    [|intros _ w2 H2; now apply IH | auto].
  destruct info; try exact Hwf. simpl py_get.
  apply post_bind, post_ret.
  destruct (match Dict.get "apps" d with
            | Some v => v | None => PList [] end);
    try exact Hwf; simpl py_iter; apply post_bind, post_ret;
    now apply flatten_apps_wf.
Qed.

(** The flattened map that [load_categories] builds is a dictionary. *)
Lemma load_categories_wf (w : World) :
  Dict.wf (app_mappings (manager w)) ->
  Dict.wf (app_mappings (manager (state_of (load_categories w)))).
Proof.
  intros Hwf.
  assert (Hpost : post load_categories_body w
                    (fun _ w' => Dict.wf (app_mappings (manager w')))
                    (fun _ w' => Dict.wf (app_mappings (manager w')))).
  { unfold load_categories_body.
    apply post_gets. destruct (source w) as [| |data];
      [exact Hwf | exact Hwf |].
    destruct data; try exact Hwf. simpl py_get.
    apply post_bind, post_ret.
    apply post_bind. unfold modify at 1, post at 1.
    apply post_bind. unfold modify at 1, post at 1.
    set (w1 := set_app_mappings Dict.empty _).
    assert (Hwf1 : Dict.wf (app_mappings (manager w1))) by constructor.
    clearbody w1.
    destruct (match Dict.get "categories" d with
              | Some v => v | None => PDict [] end) as [| | | | |entries];
      try exact Hwf1.
    simpl py_items. apply post_bind, post_ret.
    eapply post_seq with
      (Pd := fun _ w' => Dict.wf (app_mappings (manager w')))
      (Pr := fun _ w' => Dict.wf (app_mappings (manager w')));
      [now apply flatten_categories_wf | | auto].
    intros _ w2 H2. apply post_gets. simpl py_len.
    apply post_bind, post_ret. exact H2. }
  unfold post in Hpost. unfold load_categories, try_except.
  destruct (load_categories_body w) as [[] w' | e w']; simpl; assumption.
Qed.

(* ================================================================= *)
(** ** A late event away from the boundary *)

(** Off the boundary the selection of a pass is by whole hours: the
    events of the hours from [window_hour] on. *)
Lemma selected_from_window_hour (db : Database) (e : Event) :
  off_boundary e ->
  (hourly_start db < timestamp e
   <-> window_hour db <= timestamp e / usec_per_hour).
Proof.
  intros Hoff. unfold window_hour.
  destruct (hourly_start_cases db) as [[_ ->] | (r & _ & -> & _)].
  - destruct Hoff as [Hpos _].
    pose proof (Z.div_mod (timestamp e) usec_per_hour) as Hdm.
    pose proof (Z.mod_pos_bound (timestamp e) usec_per_hour) as Hm.
    change ((epoch_ts - lookback_hours * usec_per_hour + usec_per_second)
            / usec_per_hour) with (-2).
    unfold epoch_ts, lookback_hours, usec_per_hour, usec_per_second in *.
    lia.
  - rewrite hour_end_index.
    set (i := hour_index (h_date r) (h_hour r)).
    replace (i * usec_per_hour + 3599 * usec_per_second
             - lookback_hours * usec_per_hour + usec_per_second)
      with ((i - 1) * usec_per_hour)
      by (unfold lookback_hours, usec_per_hour, usec_per_second; lia).
    rewrite Z.div_mul by (unfold usec_per_hour, usec_per_second; lia).
    now apply after_lookback_start.
Qed.

(** A pass never moves the start of the window back. *)
Lemma hourly_start_monotone (self : CategoryManager) (db : Database) :
  (forall e, In e (events db) -> off_boundary e) ->
  hourly_start db <= hourly_start (hourly_pass self db).
Proof.
  intros Hoff.
  destruct (hourly_start_cases (hourly_pass self db))
    as [[Hnil ->] | (r & Hr & -> & Hmax)].
  - destruct (hourly_start_cases db) as [[_ ->] | (r0 & Hr0 & _)];
      [reflexivity|].
    destruct (hourly_pass_keeps_slots self db r0 Hr0) as (h' & Hh' & _).
    rewrite Hnil in Hh'. destruct Hh'.
  - destruct (hourly_start_cases db) as [[Hnil ->] | (r0 & Hr0 & -> & _)].
    + unfold hourly_pass in Hr; simpl in Hr. rewrite Hnil in Hr; simpl in Hr.
      apply in_map_iff in Hr as (g & <- & Hg).
      apply in_select_hourly_data in Hg as (e & He & _ & ->).
      destruct (Hoff e He) as [Hpos _].
      unfold event_key; simpl.
      rewrite hour_end_index, strftime_hour_index.
      pose proof (Z.div_pos (timestamp e) usec_per_hour Hpos).
      unfold epoch_ts, lookback_hours, usec_per_hour, usec_per_second in *.
      lia.
    + destruct (hourly_pass_keeps_slots self db r0 Hr0) as (h' & Hh' & Ed & Eh).
      specialize (Hmax h' Hh'). rewrite Ed, Eh in Hmax.
      rewrite !hour_end_index.
      unfold lookback_hours, usec_per_hour, usec_per_second in *. lia.
Qed.

Lemma window_hour_monotone (self : CategoryManager) (db : Database) :
  (forall e, In e (events db) -> off_boundary e) ->
  window_hour db <= window_hour (hourly_pass self db).
Proof.
  intros Hoff. unfold window_hour.
  apply Z.div_le_mono; [unfold usec_per_hour, usec_per_second; lia|].
  pose proof (hourly_start_monotone self db Hoff). lia.
Qed.

Lemma NoDup_map_injective {A B} (f : A -> B) (l : list A) (a b : A) :
  NoDup (map f l) -> In a l -> In b l -> f a = f b -> a = b.
Proof.
  induction l as [|x l IH]; simpl; intros Hnd Ha Hb E; [destruct Ha|].
  inversion Hnd as [|? ? Hx Hnd']; subst.
  destruct Ha as [-> | Ha], Hb as [-> | Hb]; auto.
  - exfalso. apply Hx. rewrite E. now apply in_map.
  - exfalso. apply Hx. rewrite <- E. now apply in_map.
Qed.

(** The pass writes the bucket of a selected event whose key has all its
    events in the window, from all events of the key, and the table holds
    no other row of the key. *)
Lemma hourly_pass_bucket (self : CategoryManager) (db : Database) (e : Event) :
  In e (events db) ->
  (forall e', In e' (events db) -> event_key e' = event_key e ->
              hourly_start db < timestamp e') ->
  let bucket := bucket_of self e (events_of_key e (events db)) in
  In bucket (hourly_usage (hourly_pass self db)) /\
  forall r, In r (hourly_usage (hourly_pass self db)) ->
            bucket_key r = event_key e -> r = bucket.
Proof.
  intros He Hall bucket.
  set (data := select_hourly_data (hourly_start db) db).
  set (g := hourly_group (event_key e, events_of_key e (events db))).
  assert (Hg : In g data).
  { apply in_select_hourly_data. exists e. repeat split; auto.
    unfold g, events_of_key. now rewrite group_of_selected_key. }
  assert (Hrow : hourly_row self g = bucket) by reflexivity.
  split.
  - unfold hourly_pass; simpl. apply in_or_app. right.
    rewrite <- Hrow. now apply in_map.
  - intros r Hr Hk. unfold hourly_pass in Hr; simpl in Hr. fold data in Hr.
    apply in_app_or in Hr as [Hr | Hr].
    + exfalso. apply filter_In in Hr as [_ Hn].
      assert (Hin : in_slots (map (fun row => (g_date row, g_hour row)) data) r
                    = true).
      { apply in_slots_spec. apply in_map_iff. exists g.
        split; [|assumption]. unfold bucket_key, event_key in Hk.
        injection Hk as -> -> _ _ _. reflexivity. }
      rewrite Hin in Hn. discriminate.
    + apply in_map_iff in Hr as (g' & <- & Hg').
      rewrite <- Hrow. f_equal.
      apply (NoDup_map_injective group_key data);
        [apply NoDup_group_keys | assumption | assumption |].
      unfold g. rewrite group_key_hourly_group. exact Hk.
Qed.

(** A late event away from the boundary.  After a pass over events off
    the boundary, an event off the boundary is appended whose timestamp
    is later than the start of the lookback window, and the pass is run
    again.  Then the bucket of the event's key holds the durations and
    the number of the earlier events of the key and of the late event:
    its total_seconds is up by the duration and its event_count by 1 on
    the bucket the first pass wrote, and no other row has the key. *)
Lemma late_event_off_boundary (self : CategoryManager) (db : Database)
  (e : Event) :
  (forall x, In x (events db) -> off_boundary x) ->
  off_boundary e ->
  let db1 := hourly_pass self db in
  hourly_start db1 < timestamp e ->
  let db2 := hourly_pass self (add_event e db1) in
  let earlier := events_of_key e (events db) in
  (earlier <> [] -> In (bucket_of self e earlier) (hourly_usage db1)) /\
  In (bucket_of self e (earlier ++ [e])) (hourly_usage db2) /\
  h_total_seconds (bucket_of self e (earlier ++ [e]))
  = h_total_seconds (bucket_of self e earlier) + duration_seconds e /\
  h_event_count (bucket_of self e (earlier ++ [e]))
  = h_event_count (bucket_of self e earlier) + 1 /\
  forall r, In r (hourly_usage db2) -> bucket_key r = event_key e ->
            r = bucket_of self e (earlier ++ [e]).
Proof.
  intros Hoff Hoffe db1 Hlate db2 earlier.
  assert (Hwin : window_hour db1 <= timestamp e / usec_per_hour)
    by now apply selected_from_window_hour.
  assert (Hsame : forall x, In x (events db) -> event_key x = event_key e ->
                            window_hour db1 <= timestamp x / usec_per_hour).
  { intros x _ Ek. now rewrite (event_key_hour_index Ek). }
  assert (Hnew :
    In (bucket_of self e (earlier ++ [e])) (hourly_usage db2) /\
    forall r, In r (hourly_usage db2) -> bucket_key r = event_key e ->
              r = bucket_of self e (earlier ++ [e])).
  { assert (Ek : events_of_key e (events (add_event e db1)) = earlier ++ [e]).
    { unfold events_of_key, earlier. simpl events. rewrite filter_app.
      cbn [filter]. now rewrite same_key_refl. }
    rewrite <- Ek. apply hourly_pass_bucket.
    - simpl. apply in_or_app. right. now left.
    - intros e' He' Ek'. simpl in He'.
      apply in_app_or in He' as [He' | [<- | []]]; [|exact Hlate].
      change (hourly_start (add_event e db1)) with (hourly_start db1).
      apply selected_from_window_hour; auto. }
  split; [|split; [|split; [|split]]].
  - intros Hne.
    destruct earlier as [|x rest] eqn:Eearlier; [contradiction|].
    assert (Hx : In x (events_of_key e (events db)))
      by (fold earlier; rewrite Eearlier; now left).
    apply filter_In in Hx as [Hx Hkx].
    unfold same_key in Hkx.
    destruct (HourKey_eq_dec (event_key x) (event_key e)) as [Ekx|];
      [|discriminate].
    rewrite <- Eearlier. unfold earlier.
    assert (Hb := @hourly_pass_bucket self db x Hx).
    assert (Hsel : forall e', In e' (events db) ->
                     event_key e' = event_key x ->
                     hourly_start db < timestamp e').
    { intros e' He' Ek'. apply selected_from_window_hour; [auto|].
      pose proof (window_hour_monotone self db Hoff).
      assert (window_hour db1 <= timestamp e' / usec_per_hour)
        by (apply Hsame; [assumption | congruence]).
      fold db1 in H. lia. }
    destruct (Hb Hsel) as [Hin _].
    unfold bucket_of, events_of_key in *. rewrite Ekx in Hin.
    unfold event_key in Ekx. injection Ekx as E1 E2 E3 E4 E5.
    rewrite E1, E2, E3, E4, E5 in Hin. exact Hin.
  - destruct Hnew as [Hin _]. exact Hin.
  - unfold bucket_of; simpl. rewrite sum_of_app. simpl. lia.
  - unfold bucket_of, count_of; simpl. rewrite length_app. simpl. lia.
  - destruct Hnew as [_ Huniq]. exact Huniq.
Qed.

(* ================================================================= *)
(** ** A cycle replaces app_categories *)

Lemma hourly_stage_tables (w : World) :
  let db := disk (state_of (_process_hourly_aggregations w)) in
  events db = events (disk w) /\
  daily_usage db = daily_usage (disk w) /\
  daily_category_usage db = daily_category_usage (disk w) /\
  app_categories db = app_categories (disk w).
Proof.
  destruct (hourly_stage_cases w) as (w' & -> & _ & _ & _ & Hc); simpl.
  destruct Hc as [(_ & -> & _) | (e & w1 & _ & _ & ->)]; repeat split.
Qed.

Lemma daily_stage_tables (w : World) :
  let db := disk (state_of (_process_daily_aggregations w)) in
  events db = events (disk w) /\
  hourly_usage db = hourly_usage (disk w) /\
  app_categories db = app_categories (disk w).
Proof.
  destruct (daily_stage_cases w) as (w' & -> & _ & _ & _ & Hc); simpl.
  destruct Hc as [(_ & -> & _) | (e & w1 & _ & _ & ->)]; [|repeat split].
  unfold daily_pass.
  destruct (select_daily_data (daily_start (disk w)) (disk w));
    repeat split.
Qed.

(** The two aggregation stages leave the manager as they found it. *)
Lemma hourly_stage_manager (w : World) :
  manager (state_of (_process_hourly_aggregations w)) = manager w.
Proof.
  now destruct (hourly_stage_cases w) as (w' & -> & _ & Hm & _).
Qed.

Lemma daily_stage_manager (w : World) :
  manager (state_of (_process_daily_aggregations w)) = manager w.
Proof.
  now destruct (daily_stage_cases w) as (w' & -> & _ & Hm & _).
Qed.

(** C10.  Every cycle replaces the contents of app_categories.
    [process_all] reloads the category file and then runs
    [_update_app_categories_table] over the map it has just reloaded.
    When that update succeeds, app_categories holds one row per entry of
    this map, in the order of the map, and nothing else, whatever the
    table held before the cycle, and the other tables are as the cycle
    found them.  The two stages that follow touch neither the table nor
    the map: at the end of the cycle app_categories holds the rows of the
    map the processor then has, which is the map reloaded in this
    cycle. *)
Theorem app_categories_table_is_replaced (w w1 : World) :
  let reloaded :=
    state_of (load_categories (add_log (INFO, Starting_cycle) w)) in
  update_app_categories_body reloaded = Done tt w1 ->
  let w' := state_of (process_all w) in
  process_all w = Done tt w' /\
  _update_app_categories_table reloaded = Done tt w1 /\
  before_hourly_stage w = w1 /\
  app_categories (disk w1)
  = map app_category_row (Dict.items (app_mappings (manager reloaded))) /\
  disk w1 = set_app_categories (app_categories (disk w1)) (disk w) /\
  app_categories (disk w')
  = map app_category_row (Dict.items (app_mappings (manager w'))) /\
  manager w' = manager reloaded.
Proof.
  intros reloaded Hrun w'.
  pose proof (update_app_categories_body_post reloaded) as H.
  unfold post in H. rewrite Hrun in H. destruct H as (Hd & _ & Hm & _).
  assert (Hdisk : disk reloaded = disk w).
  { unfold reloaded. now rewrite keeps_disk_load_categories. }
  assert (Hstage : _update_app_categories_table reloaded = Done tt w1).
  { unfold _update_app_categories_table, try_except. now rewrite Hrun. }
  assert (Hstart : before_hourly_stage w = w1).
  { unfold before_hourly_stage. fold reloaded. now rewrite Hstage. }
  assert (Hend : w' = add_log (INFO, Cycle_completed)
                   (state_of (_process_daily_aggregations
                      (state_of (_process_hourly_aggregations w1))))).
  { unfold w'. now rewrite process_all_done, Hstart. }
  assert (Htable : app_categories (disk w') = app_categories (disk w1)).
  { rewrite Hend. simpl.
    destruct (daily_stage_tables
                (state_of (_process_hourly_aggregations w1)))
      as (_ & _ & ->).
    now destruct (hourly_stage_tables w1) as (_ & _ & _ & ->). }
  assert (Hmap : manager w' = manager reloaded).
  { rewrite Hend. simpl.
    now rewrite daily_stage_manager, hourly_stage_manager. }
  repeat split.
  - unfold w'. now rewrite process_all_done.
  - exact Hstage.
  - exact Hstart.
  - now rewrite Hd.
  - now rewrite Hd, Hdisk.
  - now rewrite Htable, Hmap, Hd.
  - exact Hmap.
Qed.

Lemma app_categories_table_is_replaced_witness :
  app_categories (disk stale_app_categories)
  = [mkAppCategory "slack" "Chat"; mkAppCategory "code" "Games"] /\
  app_categories (disk (state_of (process_all stale_app_categories)))
  = [mkAppCategory "code" "Work"; mkAppCategory "codefire" "Browsers"].
Proof.
  split; [reflexivity|].
  assert (E : update_app_categories_body
                (state_of (load_categories
                   (add_log (INFO, Starting_cycle) stale_app_categories)))
              = Done tt (before_hourly_stage stale_app_categories))
    by (vm_compute; reflexivity).
  destruct (@app_categories_table_is_replaced stale_app_categories _ E)
    as (_ & _ & _ & _ & _ & Htable & Hmap).
  rewrite Htable, Hmap. vm_compute. reflexivity.
Defined.

(* ================================================================= *)
(** * Further properties of the processor *)

(* ================================================================= *)
(** ** What a stage leaves alone *)

Lemma update_stage_tables (w : World) :
  let db := disk (state_of (_update_app_categories_table w)) in
  events db = events (disk w) /\
  hourly_usage db = hourly_usage (disk w) /\
  daily_usage db = daily_usage (disk w) /\
  daily_category_usage db = daily_category_usage (disk w).
Proof.
  destruct (update_stage_disk w) as [t Ht]. cbv zeta. rewrite Ht.
  repeat split.
Qed.

(** X1.  The processor only reads the events: a whole cycle, whatever
    fails in it, leaves the events table as it found it.  Each stage
    writes its own tables only: the update of app_categories no bucket
    table, the hourly stage neither the daily tables nor app_categories,
    the daily stage neither hourly_usage nor app_categories. *)
Theorem stages_write_only_their_tables (w : World) :
  events (disk (state_of (process_all w))) = events (disk w) /\
  (let db := disk (state_of (_update_app_categories_table w)) in
   hourly_usage db = hourly_usage (disk w) /\
   daily_usage db = daily_usage (disk w) /\
   daily_category_usage db = daily_category_usage (disk w)) /\
  (let db := disk (state_of (_process_hourly_aggregations w)) in
   daily_usage db = daily_usage (disk w) /\
   daily_category_usage db = daily_category_usage (disk w) /\
   app_categories db = app_categories (disk w)) /\
  (let db := disk (state_of (_process_daily_aggregations w)) in
   hourly_usage db = hourly_usage (disk w) /\
   app_categories db = app_categories (disk w)).
Proof.
  split; [|split; [|split]].
  - rewrite process_all_done. unfold before_hourly_stage. simpl.
    destruct (daily_stage_tables
                (state_of (_process_hourly_aggregations
                   (state_of (_update_app_categories_table
                      (state_of (load_categories
                         (add_log (INFO, Starting_cycle) w)))))))) as (-> & _).
    destruct (hourly_stage_tables
                (state_of (_update_app_categories_table
                   (state_of (load_categories
                      (add_log (INFO, Starting_cycle) w)))))) as (-> & _).
    destruct (update_stage_tables
                (state_of (load_categories
                   (add_log (INFO, Starting_cycle) w)))) as (-> & _).
    now rewrite keeps_disk_load_categories.
  - apply update_stage_tables.
  - apply hourly_stage_tables.
  - apply daily_stage_tables.
Qed.

(* ================================================================= *)
(** ** Passes that find nothing to do *)

Lemma bind_done {A B} (m : M A) (k : A -> M B) (w w2 : World) (b : B) :
  bind m k w = Done b w2 ->
  exists a w1, m w = Done a w1 /\ k a w1 = Done b w2.
Proof.
  unfold bind. destruct (m w) as [a w1 | e w1]; [|discriminate].
  intros H. now exists a, w1.
Qed.

Lemma storage_call_done (w w' : World) :
  storage_call w = Done tt w' -> w' = set_calls (S (calls w)) w.
Proof.
  unfold storage_call. cbv zeta.
  destruct (storage_fault w (calls w)); [discriminate|].
  now intros [= <-].
Qed.

Lemma connect_done (w w' : World) :
  _get_database_connection w = Done tt w' ->
  txn w' = disk w /\ calls w' = S (calls w).
Proof.
  unfold _get_database_connection. intros H.
  apply bind_done in H as ([] & w1 & H1 & H).
  apply storage_call_done in H1. subst w1. injection H as <-. now split.
Qed.

Lemma query_done {A} (f : Database -> A) (w w' : World) (a : A) :
  query f w = Done a w' ->
  a = f (txn w) /\ txn w' = txn w /\ calls w' = S (calls w).
Proof.
  unfold query. intros H.
  apply bind_done in H as ([] & w1 & H1 & H).
  apply storage_call_done in H1. subst w1. injection H as <- <-.
  now repeat split.
Qed.

Lemma select_nothing (start : Z) (db : Database) :
  (forall e, In e (events db) -> timestamp e <= start) ->
  select_hourly_data start db = [].
Proof.
  intros H. unfold select_hourly_data.
  rewrite filter_none; [reflexivity|].
  intros e He. apply Z.ltb_ge. auto.
Qed.

(** X2.  An hourly pass that finds no event later than its start is a
    no-op: it issues the connect and its two SELECTs and nothing else,
    writes and commits nothing, and logs that there is no new data. *)
Theorem hourly_pass_without_new_events (w : World) :
  (forall e, In e (events (disk w)) -> timestamp e <= hourly_start (disk w)) ->
  disk (state_of (_process_hourly_aggregations w)) = disk w /\
  forall w',
    process_hourly_body w = Done tt w' ->
    disk w' = disk w /\
    calls w' = (calls w + 3)%nat /\
    log w' = log w ++
             [(DEBUG, Processing_hourly_data_since (hourly_start (disk w)));
              (DEBUG, No_new_hourly_data)].
Proof.
  intros Hnone. apply select_nothing in Hnone.
  split.
  - destruct (hourly_stage_cases w) as (w' & -> & _ & _ & _ & Hc); simpl.
    destruct Hc as [(_ & -> & _) | (e & w1 & _ & _ & ->)]; [|reflexivity].
    now apply hourly_pass_no_data.
  - intros w' Hrun.
    pose proof (process_hourly_body_post w) as P. unfold post in P.
    rewrite Hrun in P. destruct P as (Hd & _ & _ & _ & Hl).
    rewrite hourly_pass_no_data in Hd by assumption.
    unfold hourly_log in Hl. rewrite Hnone in Hl.
    repeat split; try assumption.
    revert Hrun. unfold process_hourly_body.
    intros H. apply bind_done in H as ([] & w1 & H1 & H).
    apply connect_done in H1 as [Ht1 Hc1].
    apply bind_done in H as (result & w2 & H2 & H).
    apply query_done in H2 as (-> & Ht2 & Hc2).
    apply bind_done in H as ([] & w3 & H3 & H). injection H3 as <-.
    apply bind_done in H as (data & w4 & H4 & H).
    apply query_done in H4 as (-> & Ht4 & Hc4).
    cbn [txn calls add_log] in Ht4, Hc4, H. rewrite Ht2, Ht1 in H.
    fold (hourly_start (disk w)) in H. rewrite Hnone in H.
    injection H as <-. simpl. lia.
Qed.

Lemma hourly_pass_without_new_events_witness :
  disk (state_of (_process_hourly_aggregations settled_world))
  = disk settled_world /\
  calls (state_of (process_hourly_body settled_world)) = 3%nat.
Proof.
  assert (H : forall e, In e (events (disk settled_world)) ->
                        timestamp e <= hourly_start (disk settled_world)).
  { intros e [<- | []]. apply Z.leb_le. vm_compute. reflexivity. }
  assert (Hrun : process_hourly_body settled_world
                 = Done tt (state_of (process_hourly_body settled_world)))
    by (vm_compute; reflexivity).
  destruct (hourly_pass_without_new_events settled_world H) as [Hd Hbody].
  split; [exact Hd|].
  exact (proj1 (proj2 (Hbody _ Hrun))).
Defined.

(* ================================================================= *)
(** ** Stages that succeed *)

Lemma fresh_fault_free (src : Source) (evs : list Event) :
  fault_free (fresh src evs no_fault).
Proof. intros n. reflexivity. Qed.



(** X4.  When no storage call fails, the update of app_categories
    succeeds for every flattened map: its keys are distinct, so no INSERT
    meets the UNIQUE constraint on app_name, and afterwards the table
    holds the rows of the map and no ERROR record is logged. *)
Theorem app_categories_update_succeeds (w : World) :
  fault_free w ->
  Dict.wf (app_mappings (manager w)) ->
  let w' := state_of (_update_app_categories_table w) in
  app_categories (disk w')
  = map app_category_row (Dict.items (app_mappings (manager w))) /\
  log w' = log w ++ [(DEBUG, Updated_app_categories
                               (List.length (app_mappings (manager w))))].
Proof.
  intros Hff Hwf. destruct (update_app_categories_returns Hff Hwf) as [w1 Hrun].
  pose proof (update_app_categories_body_post w) as P. unfold post in P.
  rewrite Hrun in P. destruct P as (Hd & _ & _ & _ & Hl).
  unfold _update_app_categories_table, try_except. rewrite Hrun. simpl.
  rewrite Hd. now split.
Qed.

Lemma app_categories_update_succeeds_witness :
  let w := state_of (load_categories (fresh priority_rules [] no_fault)) in
  fault_free w /\ Dict.wf (app_mappings (manager w)) /\
  app_categories (disk (state_of (_update_app_categories_table w)))
  = map app_category_row (Dict.items (app_mappings (manager w))).
Proof.
  intros w.
  assert (Hff : fault_free w) by (intros n; reflexivity).
  assert (Hwf : Dict.wf (app_mappings (manager w))).
  { unfold Dict.wf. vm_compute.
    repeat constructor; simpl; intuition discriminate. }
  split; [exact Hff|]. split; [exact Hwf|].
  exact (proj1 (app_categories_update_succeeds Hff Hwf)).
Defined.

(** X5.  The hourly stage never drops an hour: every (date, hour) that
    has a bucket before the stage has a bucket after it, whether the
    stage succeeds or fails. *)
Theorem hourly_stage_keeps_every_hour (w : World) (h : HourlyUsage) :
  In h (hourly_usage (disk w)) ->
  exists h',
    In h' (hourly_usage (disk (state_of (_process_hourly_aggregations w)))) /\
    h_date h' = h_date h /\ h_hour h' = h_hour h.
Proof.
  intros Hh.
  destruct (hourly_stage_cases w) as (w' & -> & _ & _ & _ & Hc); simpl.
  destruct Hc as [(_ & -> & _) | (e & w1 & _ & _ & ->)].
  - now apply hourly_pass_keeps_slots.
  - now exists h.
Qed.

Lemma hourly_stage_keeps_every_hour_witness :
  exists h',
    In h' (hourly_usage
             (disk (state_of (_process_hourly_aggregations settled_world)))) /\
    h_date h' = 19723 /\ h_hour h' = 8.
Proof.
  apply (hourly_stage_keeps_every_hour settled_world (firefox_bucket 8 10 1)).
  now left.
Defined.

(** X6.  The deletes and inserts of a daily pass are committed as one
    unit: when the pass raises at any point (a storage error, or an
    INSERT that meets a UNIQUE constraint), daily_usage and
    daily_category_usage are as before the pass and the error is logged;
    whatever happens, the committed database after the stage is the one
    before it or the one with the whole pass applied. *)
Theorem daily_pass_is_atomic (w : World) :
  let w' := state_of (_process_daily_aggregations w) in
  (forall e w1,
     process_daily_body w = Raised e w1 ->
     disk w' = disk w /\
     log w' = log w1 ++ [(ERROR, Error_processing_daily e)]) /\
  (disk w' = disk w \/ disk w' = daily_pass (disk w)).
Proof.
  destruct (daily_stage_cases w) as (w' & Hrun & _ & _ & _ & Hcase).
  rewrite Hrun; simpl. split.
  - intros e w1 Hraise.
    destruct Hcase as [(Hdone & _) | (e' & w1' & Hr & -> & Hd)];
      [congruence|].
    rewrite Hraise in Hr. injection Hr as <- <-.
    now split.
  - destruct Hcase as [(_ & Hd & _) | (e' & w1' & _ & _ & Hd)]; auto.
Qed.

(* ================================================================= *)
(** ** What the daily pass computes *)

Lemma select_no_hourly (start : Z) (db : Database) :
  (forall h, In h (hourly_usage db) -> h_date h < start) ->
  select_daily_data start db = [].
Proof.
  intros H. unfold select_daily_data.
  rewrite filter_none; [reflexivity|].
  intros h Hh. apply Z.leb_gt. auto.
Qed.

(** X7.  A daily pass that finds no hourly bucket from its start date on
    is a no-op: it writes and commits nothing and logs that there is no
    new data. *)
Theorem daily_pass_without_new_buckets (w : World) :
  (forall h, In h (hourly_usage (disk w)) -> h_date h < daily_start (disk w)) ->
  disk (state_of (_process_daily_aggregations w)) = disk w /\
  forall w',
    process_daily_body w = Done tt w' ->
    log w' = log w ++
             [(DEBUG, Processing_daily_data_since (daily_start (disk w)));
              (DEBUG, No_new_daily_data)].
Proof.
  intros Hnone. apply select_no_hourly in Hnone. split.
  - destruct (daily_stage_cases w) as (w' & -> & _ & _ & _ & Hc); simpl.
    destruct Hc as [(_ & -> & _) | (e & w1 & _ & _ & ->)]; [|reflexivity].
    unfold daily_pass. now rewrite Hnone.
  - intros w' Hrun.
    pose proof (process_daily_body_post w) as P. unfold post in P.
    rewrite Hrun in P. destruct P as (_ & _ & _ & _ & Hl).
    unfold daily_log in Hl. now rewrite Hnone in Hl.
Qed.

Lemma daily_pass_without_new_buckets_witness :
  let w := fresh Missing one_event no_fault in
  disk (state_of (_process_daily_aggregations w)) = disk w /\
  log (state_of (process_daily_body w))
  = [(DEBUG, Processing_daily_data_since (daily_start (disk w)));
     (DEBUG, No_new_daily_data)].
Proof.
  intros w.
  assert (H : forall h, In h (hourly_usage (disk w)) ->
                        h_date h < daily_start (disk w))
    by (intros h []).
  assert (Hrun : process_daily_body w
                 = Done tt (state_of (process_daily_body w)))
    by (vm_compute; reflexivity).
  destruct (daily_pass_without_new_buckets w H) as [Hd Hbody].
  split; [exact Hd | exact (Hbody _ Hrun)].
Defined.

Lemma sum_of_filter_Permutation {R} (col : R -> Z) (p : R -> bool)
  (l l' : list R) :
  Permutation l l' -> sum_of col (filter p l) = sum_of col (filter p l').
Proof.
  induction 1 as [|x l l' _ IH|x y l|l1 l2 l3 _ IH1 _ IH2]; simpl.
  - reflexivity.
  - destruct (p x); simpl; now rewrite IH.
  - destruct (p x), (p y); simpl; lia.
  - congruence.
Qed.

(** The daily rows of a date add up to the selected hourly rows of the
    date. *)
Lemma select_daily_data_total (start d : Z) (db : Database) :
  usage_total_on d (select_daily_data start db)
  = sum_of h_total_seconds
      (filter (fun h => h_date h =? d)
         (filter (fun h => start <=? h_date h) (hourly_usage db))).
Proof.
  unfold usage_total_on, select_daily_data.
  set (rows := filter (fun h => start <=? h_date h) (hourly_usage db)).
  rewrite (sum_of_filter_Permutation _ _ (Permutation_order_by date_leb _)).
  rewrite filter_map_swap, sum_of_map.
  rewrite (filter_ext _
             (fun g : DayKey * list HourlyUsage =>
                fst (fst (fst (fst (fst g)))) =? d))
    by (intros [[[[[a b] c] u] cat] l]; reflexivity).
  rewrite (sum_of_ext _
             (fun g : DayKey * list HourlyUsage =>
                sum_of h_total_seconds (snd g)))
    by (intros [[[[[a b] c] u] cat] l] _; reflexivity).
  apply (sum_of_group_by hourly_key DayKey_eq_dec h_total_seconds
           (fun k => fst (fst (fst (fst k))) =? d)).
Qed.

(** X8.  What a daily pass that returns has computed.  For every hourly
    bucket from the start date on, daily_usage holds the row of its
    (date, device_type, app_name, website_url, category) whose
    total_seconds and event_count are the sums over the selected hourly
    buckets with these five columns, the bucket among them; and for the
    date of such a bucket the totals of daily_usage and of
    daily_category_usage both equal the total of hourly_usage. *)
Theorem daily_pass_sums_hourly_buckets (w w' : World) (h : HourlyUsage) :
  process_daily_body w = Done tt w' ->
  In h (hourly_usage (disk w)) ->
  daily_start (disk w) <= h_date h ->
  let selected :=
    filter (fun r => daily_start (disk w) <=? h_date r)
           (hourly_usage (disk w)) in
  let contributing :=
    filter (same_key hourly_key DayKey_eq_dec (hourly_key h)) selected in
  In h contributing /\
  In (daily_bucket_of h contributing) (daily_usage (disk w')) /\
  usage_total_on (h_date h) (daily_usage (disk w'))
  = hourly_total_on (h_date h) (hourly_usage (disk w)) /\
  category_total_on (h_date h) (daily_category_usage (disk w'))
  = hourly_total_on (h_date h) (hourly_usage (disk w)).
Proof.
  intros Hrun Hin Hstart selected contributing.
  pose proof (process_daily_body_post w) as P. unfold post in P.
  rewrite Hrun in P. destruct P as (Hd & _).
  set (start := daily_start (disk w)) in *.
  assert (Hsel : In h selected)
    by (apply filter_In; split; [assumption | now apply Z.leb_le]).
  assert (Hrow : In (daily_bucket_of h contributing)
                    (select_daily_data start (disk w))).
  { unfold select_daily_data. apply in_order_by.
    change (daily_bucket_of h contributing)
      with (daily_row (hourly_key h, contributing)).
    apply in_map. now apply in_group_by. }
  assert (Hdate : In (h_date h) (map d_date (select_daily_data start (disk w))))
    by now apply select_daily_data_covers.
  unfold daily_pass in Hd. fold start in Hd.
  destruct (select_daily_data start (disk w)) as [|r0 rest] eqn:Hdata;
    [destruct Hrow|].
  rewrite <- Hdata in *. clear Hdata r0 rest.
  set (data := select_daily_data start (disk w)) in *.
  assert (Hnot : forall r,
             In r (filter (fun r => negb (in_dates (map d_date data) (d_date r)))
                          (daily_usage (disk w))) ->
             d_date r <> h_date h).
  { intros r Hr E. apply filter_In in Hr as [_ Hn]. rewrite E in Hn.
    apply in_dates_spec in Hdate. rewrite Hdate in Hn. discriminate. }
  assert (Hsum : usage_total_on (h_date h) data
                 = hourly_total_on (h_date h) (hourly_usage (disk w))).
  { unfold data. rewrite select_daily_data_total. unfold hourly_total_on.
    rewrite filter_filter. f_equal. apply filter_ext. intros r.
    destruct (Z.eqb_spec (h_date r) (h_date h)) as [E|];
      [|apply andb_false_r].
    rewrite andb_true_r, E. now apply Z.leb_le. }
  split; [|split; [|split]].
  - apply filter_In. split; [assumption | apply same_key_refl].
  - rewrite Hd. unfold daily_replace; simpl. apply in_or_app. now right.
  - rewrite Hd. unfold daily_replace; simpl.
    rewrite usage_total_on_app, (@usage_total_on_none _ _ Hnot). exact Hsum.
  - rewrite Hd. unfold daily_replace; simpl.
    rewrite category_total_on_app, category_total_on_none.
    + rewrite category_total_select. simpl.
      rewrite filter_app, usage_total_on_app.
      rewrite usage_total_on_none
        by (intros r Hr; apply filter_In in Hr as [Hr _]; now apply Hnot).
      rewrite (filter_all _ data); [exact Hsum|].
      intros r Hr. apply Z.leb_le.
      apply select_daily_data_from_hourly in Hr as (_ & _ & _ & H). exact H.
    + intros r Hr E. apply filter_In in Hr as [_ Hn]. rewrite E in Hn.
      apply in_dates_spec in Hdate. rewrite Hdate in Hn. discriminate.
Qed.

Lemma daily_pass_sums_hourly_buckets_witness :
  In (mkDaily 19723 "desktop" "firefox" None "Other" 20 2)
     (daily_usage (disk (state_of (process_daily_body settled_world)))).
Proof.
  assert (Hrun : process_daily_body settled_world
                 = Done tt (state_of (process_daily_body settled_world)))
    by (vm_compute; reflexivity).
  assert (Hin : In (firefox_bucket 8 10 1) (hourly_usage (disk settled_world)))
    by now left.
  assert (Hstart : daily_start (disk settled_world)
                   <= h_date (firefox_bucket 8 10 1))
    by (vm_compute; discriminate).
  exact (proj1 (proj2 (@daily_pass_sums_hourly_buckets _ _ _ Hrun Hin Hstart))).
Defined.

Lemma daily_pass_is_atomic_witness :
  process_daily_body split_category_world
  = Raised IntegrityError (state_of (process_daily_body split_category_world)) /\
  disk (state_of (_process_daily_aggregations split_category_world))
  = disk split_category_world.
Proof.
  assert (Hrun : process_daily_body split_category_world
                 = Raised IntegrityError
                     (state_of (process_daily_body split_category_world)))
    by (vm_compute; reflexivity).
  split; [exact Hrun|].
  exact (proj1 (proj1 (daily_pass_is_atomic split_category_world) _ _ Hrun)).
Defined.

(* ================================================================= *)
(** ** When the daily pass fails *)

Lemma bind_ok {A B} (m : M A) (k : A -> M B) (w w1 : World) (a : A) :
  m w = Done a w1 -> bind m k w = k a w1.
Proof. unfold bind. now intros ->. Qed.

Arguments bind_ok {A B m} k {w w1 a} _.

Lemma bind_fails {A B} (m : M A) (k : A -> M B) (w w1 : World) (e : exn) :
  m w = Raised e w1 -> bind m k w = Raised e w1.
Proof. unfold bind. now intros ->. Qed.

Arguments bind_fails {A B m} k {w w1 e} _.

Lemma post_done {A} (m : M A) (w : World)
  (Qd : A -> World -> Prop) (Qr : exn -> World -> Prop) :
  post m w Qd Qr -> (forall e w', m w <> Raised e w') ->
  exists a w', m w = Done a w' /\ Qd a w'.
Proof.
  unfold post. destruct (m w) as [a w' | e w']; intros H Hn.
  - now exists a, w'.
  - now destruct (Hn e w').
Qed.

Arguments post_done {A m w Qd Qr} _ _.

Lemma for_each_execute2_returns {A} (f g : A -> Database -> Database)
  (xs : list A) (w w' : World) (e : exn) :
  fault_free w ->
  for_each xs (fun x => execute (f x) ;; execute (g x)) w <> Raised e w'.
Proof.
  revert w; induction xs as [|x xs IH]; intros w Hff; simpl; [discriminate|].
  intros H. apply bind_raised in H as [H | ([] & w2 & Hd & H)].
  - apply bind_raised in H as [H | ([] & w1 & Hd & H)].
    + eapply execute_returns; eauto.
    + pose proof (post_execute (f x) w) as P. unfold post in P.
      rewrite Hd in P. destruct P as [Hf _].
      eapply execute_returns; [|exact H]. eapply frame_fault_free; eauto.
  - apply bind_done in Hd as ([] & w1 & Hd1 & Hd2).
    pose proof (post_execute (f x) w) as P1. unfold post in P1.
    rewrite Hd1 in P1. destruct P1 as [Hf1 _].
    pose proof (post_execute (g x) w1) as P2. unfold post in P2.
    rewrite Hd2 in P2. destruct P2 as [Hf2 _].
    eapply IH; [|exact H].
    eapply frame_fault_free; [|eapply frame_fault_free]; eauto.
Qed.

(** With a storage that does not fail, an INSERT meets its constraint or
    appends its row. *)
Lemma insert_into_ok {Row} (table : Database -> list Row)
  (set_table : list Row -> Database -> Database)
  (conflict : Row -> Row -> bool) (r : Row) (w : World) :
  fault_free w ->
  insert_into table set_table conflict r w
  = let w1 := set_calls (S (calls w)) w in
    if existsb (conflict r) (table (txn w)) then Raised IntegrityError w1
    else Done tt (set_txn (set_table (table (txn w) ++ [r]) (txn w)) w1).
Proof.
  intros Hff. unfold insert_into, bind, storage_call, gets, modify, raise.
  rewrite Hff. simpl. now destruct (existsb _ _).
Qed.

(** A loop of inserts raises IntegrityError when one of its rows
    conflicts with a row of the table or with another row of the loop. *)
Lemma for_each_insert_clash {Row} (table : Database -> list Row)
  (set_table : list Row -> Database -> Database)
  (conflict : Row -> Row -> bool) (rows : list Row) (w : World) :
  (forall t db, table (set_table t db) = t) ->
  fault_free w ->
  (exists r x, In r rows /\ conflict r x = true /\
               (In x (table (txn w)) \/
                (In x rows /\ x <> r /\ conflict x r = true))) ->
  exists w',
    for_each rows (insert_into table set_table conflict) w
    = Raised IntegrityError w'.
Proof.
  intros Hget. revert w.
  induction rows as [|a rows IH]; intros w Hff (r & x & Hr & Hc & Hx);
    [destruct Hr|].
  cbn [for_each].
  pose proof (insert_into_ok table set_table conflict a Hff) as E.
  cbv zeta in E.
  destruct (existsb (conflict a) (table (txn w))) eqn:Ex.
  - eexists. apply bind_fails. exact E.
  - rewrite (bind_ok _ E). apply IH; [exact Hff|].
    cbn [txn set_txn set_calls]. rewrite Hget.
    assert (Hnone : forall y, In y (table (txn w)) -> conflict a y = false).
    { intros y Hy. destruct (conflict a y) eqn:Ey; [|reflexivity].
      rewrite <- Ex. symmetry. apply existsb_exists. now exists y. }
    destruct Hr as [<- | Hr].
    + destruct Hx as [Hx | ([<- | Hx] & Hne & Hc')].
      * rewrite (Hnone x Hx) in Hc. discriminate.
      * now destruct Hne.
      * exists x, a. split; [assumption|]. split; [assumption|].
        left. apply in_or_app. right. now left.
    + destruct Hx as [Hx | ([<- | Hx] & Hne & Hc')].
      * exists r, x. split; [assumption|]. split; [assumption|].
        left. apply in_or_app. now left.
      * exists r, a. split; [assumption|]. split; [assumption|].
        left. apply in_or_app. right. now left.
      * exists r, x. split; [assumption|]. split; [assumption|].
        right. now repeat split.
Qed.

(** With a storage that does not fail, the daily pass gets to its
    SELECT over hourly_usage, on a connection that sees the committed
    database. *)
Lemma daily_body_after_select (w : World) :
  fault_free w ->
  let start := daily_start (disk w) in
  exists w4,
    fault_free w4 /\ txn w4 = disk w /\
    frame (add_log (DEBUG, Processing_daily_data_since start) w) w4 /\
    process_daily_body w =
      match select_daily_data start (disk w) with
      | [] => (logging DEBUG No_new_daily_data ;; conn_close) w4
      | row :: rows =>
          let daily_data := row :: rows in
          let dates_to_update :=
            order_by Z.leb (nodup Z.eq_dec (map d_date daily_data)) in
          (for_each dates_to_update (fun event_date =>
             execute (delete_daily event_date) ;;
             execute (delete_daily_category event_date)) ;;
           for_each daily_data insert_daily_usage ;;
           category_data <- query (select_category_data start) ;;
           for_each category_data insert_daily_category_usage ;;
           conn_commit ;;
           conn_close ;;
           logging INFO (Processed_daily (List.length daily_data)
                                         (List.length category_data)
                                         (List.length dates_to_update))) w4
      end.
Proof.
  intros Hff start.
  destruct (post_done (post_connect w)) as ([] & w1 & E1 & Hf1 & Ht1);
    [intros e w'; now apply connect_returns|].
  assert (Hff1 : fault_free w1) by (eapply frame_fault_free; eauto).
  destruct (post_done (post_query select_max_date w1))
    as (result & w2 & E2 & -> & Hf2 & Ht2);
    [intros e w'; now apply query_returns|].
  assert (Hff2 : fault_free w2) by (eapply frame_fault_free; eauto).
  set (w3 := add_log (DEBUG, Processing_daily_data_since start) w2).
  assert (Hff3 : fault_free w3) by exact Hff2.
  destruct (post_done (post_query (select_daily_data start) w3))
    as (daily_data & w4 & E4 & -> & Hf4 & Ht4);
    [intros e w'; now apply query_returns|].
  assert (Hff4 : fault_free w4) by (eapply frame_fault_free; eauto).
  assert (Ht : txn w3 = disk w) by (change (txn w3) with (txn w2); congruence).
  exists w4. split; [assumption|]. split; [congruence|].
  split; [apply frame_trans with w3; [apply frame_add_log; eauto | assumption]|].
  unfold process_daily_body.
  rewrite (bind_ok _ E1), (bind_ok _ E2), Ht1. cbv zeta.
  fold (daily_start (disk w)). fold start.
  rewrite (bind_ok (m := logging DEBUG (Processing_daily_data_since start))
             (w := w2) (w1 := w3) _ eq_refl).
  rewrite (bind_ok _ E4), Ht.
  now destruct (select_daily_data start (disk w)).
Qed.

(** And when the SELECT finds rows, it gets to its inserts with the rows
    of the selected dates deleted. *)
Lemma daily_body_at_inserts (w : World) :
  fault_free w ->
  let start := daily_start (disk w) in
  let data := select_daily_data start (disk w) in
  data <> [] ->
  exists w5,
    fault_free w5 /\
    frame (add_log (DEBUG, Processing_daily_data_since start) w) w5 /\
    txn w5 =
      set_daily_category_usage
        (filter (fun r => negb (in_dates (map d_date data) (c_date r)))
                (daily_category_usage (disk w)))
        (set_daily_usage
           (filter (fun r => negb (in_dates (map d_date data) (d_date r)))
                   (daily_usage (disk w)))
           (disk w)) /\
    process_daily_body w =
      (for_each data insert_daily_usage ;;
       category_data <- query (select_category_data start) ;;
       for_each category_data insert_daily_category_usage ;;
       conn_commit ;;
       conn_close ;;
       logging INFO
         (Processed_daily
            (List.length data) (List.length category_data)
            (List.length (order_by Z.leb (nodup Z.eq_dec (map d_date data))))))
      w5.
Proof.
  intros Hff start data Hne.
  destruct (daily_body_after_select Hff) as (w4 & Hff4 & Ht4 & Hf4 & Hrun).
  fold start in Hrun. fold data in Hrun.
  destruct data as [|row rows] eqn:Hdata; [now destruct Hne|].
  rewrite <- Hdata in *. cbv zeta in Hrun.
  set (dates := order_by Z.leb (nodup Z.eq_dec (map d_date data))) in *.
  destruct (post_done (post_for_each_execute2 delete_daily
                         delete_daily_category dates w4))
    as ([] & w5 & E5 & Hf5 & Ht5);
    [intros e w'; now apply for_each_execute2_returns|].
  exists w5. split; [eapply frame_fault_free; eauto|].
  split; [|split].
  - eauto.
  - rewrite Ht5, Ht4, fold_delete_daily.
    assert (Hdates : forall d, in_dates dates d = in_dates (map d_date data) d).
    { intros d. apply in_dates_same_members. intros x. unfold dates.
      rewrite in_order_by. apply nodup_In. }
    unfold set_daily_usage, set_daily_category_usage; simpl. f_equal.
    + apply filter_ext. intros r. now rewrite Hdates.
    + apply filter_ext. intros r. now rewrite Hdates.
  - rewrite Hrun, (bind_ok _ E5). reflexivity.
Qed.

Lemma in_select_daily_data (start : Z) (db : Database) (r : DailyUsage) :
  let selected := filter (fun h => start <=? h_date h) (hourly_usage db) in
  In r (select_daily_data start db) <->
  exists h,
    In h selected /\
    r = daily_bucket_of h
          (filter (same_key hourly_key DayKey_eq_dec (hourly_key h)) selected).
Proof.
  intros selected. unfold select_daily_data. fold selected.
  rewrite in_order_by, in_map_iff. split.
  - intros (g & <- & Hg). unfold group_by in Hg.
    apply in_map_iff in Hg as (k & <- & Hk).
    apply nodup_In, in_map_iff in Hk as (h & <- & Hh).
    now exists h.
  - intros (h & Hh & ->).
    exists (hourly_key h,
            filter (same_key hourly_key DayKey_eq_dec (hourly_key h)) selected).
    split; [reflexivity | now apply in_group_by].
Qed.

Lemma unique_eqb_eq (a b : option string) :
  unique_eqb a b = true <-> exists u, a = Some u /\ b = Some u.
Proof.
  unfold unique_eqb. split.
  - destruct a as [x|], b as [y|]; try discriminate.
    intros E. apply String.eqb_eq in E. subst. now exists y.
  - intros (u & -> & ->). apply String.eqb_refl.
Qed.

Lemma uq_daily_eq (a b : DailyUsage) :
  uq_daily a b = true <->
  d_date a = d_date b /\ d_device_type a = d_device_type b /\
  d_app_name a = d_app_name b /\
  exists u, d_website_url a = Some u /\ d_website_url b = Some u.
Proof.
  unfold uq_daily.
  rewrite !andb_true_iff, Z.eqb_eq, !String.eqb_eq, unique_eqb_eq. tauto.
Qed.

Lemma splits_category_eq (a b : HourlyUsage) :
  splits_category a b = true <->
  h_date a = h_date b /\ h_device_type a = h_device_type b /\
  h_app_name a = h_app_name b /\
  (exists u, h_website_url a = Some u /\ h_website_url b = Some u) /\
  h_category a <> h_category b.
Proof.
  unfold splits_category.
  rewrite !andb_true_iff, Z.eqb_eq, !String.eqb_eq, unique_eqb_eq,
    negb_true_iff, String.eqb_neq. tauto.
Qed.

Lemma category_split_spec (rows : list HourlyUsage) :
  category_split rows = true <->
  exists a b, In a rows /\ In b rows /\ splits_category a b = true.
Proof.
  unfold category_split. rewrite existsb_exists. split.
  - intros (a & Ha & H). apply existsb_exists in H as (b & Hb & H).
    now exists a, b.
  - intros (a & b & Ha & Hb & H). exists a. split; [assumption|].
    apply existsb_exists. now exists b.
Qed.

(** X9.  With a storage that does not fail, a daily pass that selects two
    hourly buckets of one (date, device_type, app_name, website_url),
    the website_url not NULL, with different categories fails: it groups
    them into two rows, the second INSERT meets the UNIQUE constraint of
    daily_usage, and the stage logs the IntegrityError and commits
    nothing. *)
Theorem daily_pass_fails_on_split_category (w : World) :
  fault_free w ->
  category_split (daily_selected (disk w)) = true ->
  let w' := state_of (_process_daily_aggregations w) in
  (exists w1, process_daily_body w = Raised IntegrityError w1) /\
  disk w' = disk w /\
  In (ERROR, Error_processing_daily IntegrityError) (log w').
Proof.
  intros Hff Hsplit.
  apply category_split_spec in Hsplit as (a & b & Ha & Hb & Hs).
  apply splits_category_eq in Hs as (E1 & E2 & E3 & (u & Ua & Ub) & Hcat).
  unfold daily_selected in Ha, Hb.
  set (start := daily_start (disk w)) in *.
  set (selected := filter (fun r => start <=? h_date r)
                          (hourly_usage (disk w))) in *.
  set (ra := daily_bucket_of a
               (filter (same_key hourly_key DayKey_eq_dec (hourly_key a))
                       selected)).
  set (rb := daily_bucket_of b
               (filter (same_key hourly_key DayKey_eq_dec (hourly_key b))
                       selected)).
  assert (Hra : In ra (select_daily_data start (disk w)))
    by (apply in_select_daily_data; now exists a).
  assert (Hrb : In rb (select_daily_data start (disk w)))
    by (apply in_select_daily_data; now exists b).
  assert (Hab : uq_daily ra rb = true)
    by (apply uq_daily_eq; simpl; eauto 6).
  assert (Hba : uq_daily rb ra = true)
    by (apply uq_daily_eq; simpl; eauto 6).
  assert (Hne : rb <> ra)
    by (intros E; apply (f_equal d_category) in E; simpl in E; congruence).
  destruct (daily_body_at_inserts Hff) as (w5 & Hff5 & _ & _ & Hrun);
    [fold start; intros E; rewrite E in Hra; destruct Hra|].
  fold start in Hrun.
  destruct (for_each_insert_clash daily_usage set_daily_usage uq_daily
              (select_daily_data start (disk w)) (w := w5)) as [w6 E6];
    [intros t db; now destruct db | assumption | |].
  { exists ra, rb. split; [assumption|]. split; [assumption|].
    right. now repeat split. }
  assert (Hraise : process_daily_body w = Raised IntegrityError w6)
    by (rewrite Hrun; apply bind_fails; exact E6).
  intros w'. split; [now exists w6|].
  destruct (daily_stage_cases w) as (w2 & Hstage & _ & _ & _ & Hcase).
  subst w'. rewrite Hstage. cbn [state_of].
  destruct Hcase as [(Hdone & _) | (e & w1 & Hr & -> & Hd)]; [congruence|].
  split; [exact Hd|].
  rewrite Hraise in Hr. injection Hr as <- <-.
  cbn [log add_log]. apply in_or_app. right. now left.
Qed.

Lemma daily_pass_fails_on_split_category_witness :
  disk (state_of (_process_daily_aggregations split_category_world))
  = disk split_category_world.
Proof.
  assert (Hff : fault_free split_category_world) by (intros n; reflexivity).
  assert (Hs : category_split (daily_selected (disk split_category_world))
               = true) by (vm_compute; reflexivity).
  exact (proj1 (proj2 (daily_pass_fails_on_split_category Hff Hs))).
Defined.

Lemma NoDup_group_by {R K} (key : R -> K)
  (dec : forall a b : K, {a = b} + {a <> b}) (rows : list R) :
  NoDup (map fst (group_by key dec rows)).
Proof.
  unfold group_by. rewrite map_map. simpl. rewrite map_id. apply NoDup_nodup.
Qed.






(* ================================================================= *)
(** ** Names, cases and the flattened map *)

Lemma lower_char_idempotent (c : ascii) :
  Str.lower_char (Str.lower_char c) = Str.lower_char c.
Proof. destruct c as [[] [] [] [] [] [] [] []]; reflexivity. Qed.

Lemma lower_idempotent (s : string) : Str.lower (Str.lower s) = Str.lower s.
Proof.
  induction s as [|c s IH]; simpl; [reflexivity|].
  now rewrite lower_char_idempotent, IH.
Qed.

Lemma truthy_lower (s : string) : Str.truthy (Str.lower s) = Str.truthy s.
Proof. now destruct s. Qed.

(** X11.  [get_category] does not tell upper from lower case in the
    name it is asked for: two names with the same lowered form get the
    same category, and so do a name and its lowered form. *)
Theorem get_category_ignores_case (self : CategoryManager) (a b : string) :
  Str.lower a = Str.lower b ->
  get_category self a = get_category self b /\
  get_category self (Str.lower a) = get_category self a.
Proof.
  intros E. unfold get_category.
  rewrite lower_idempotent, truthy_lower.
  rewrite <- (truthy_lower a), <- (truthy_lower b), E. now split.
Qed.

Lemma get_category_ignores_case_witness :
  get_category (manager source_removed) "VSCode"
  = get_category (manager source_removed) "vscode".
Proof.
  apply (get_category_ignores_case (manager source_removed) "VSCode" "vscode").
  reflexivity.
Defined.

Lemma preserves_bind {A B C} (proj : World -> C) (m : M A) (k : A -> M B) :
  preserves proj m -> (forall a, preserves proj (k a)) ->
  preserves proj (bind m k).
Proof.
  intros Hm Hk w. unfold bind. specialize (Hm w).
  destruct (m w) as [a w1 | e w1]; simpl in *; [|assumption].
  now rewrite Hk.
Qed.

Lemma preserves_for_each {A C} (proj : World -> C) (xs : list A)
  (body : A -> M unit) :
  (forall x, preserves proj (body x)) -> preserves proj (for_each xs body).
Proof.
  intros H. induction xs as [|x xs IH]; simpl.
  - intros w; reflexivity.
  - apply preserves_bind; auto.
Qed.

Lemma preserves_try_except {A C} (proj : World -> C) (body : M A)
  (handler : exn -> M A) :
  preserves proj body -> (forall e, preserves proj (handler e)) ->
  preserves proj (try_except body handler).
Proof.
  intros Hb Hh w. unfold try_except. specialize (Hb w).
  destruct (body w) as [a w1 | e w1]; simpl in *; [assumption|].
  now rewrite Hh.
Qed.

Ltac preserves_tac :=
  repeat first
    [ apply preserves_bind; [|intros ?]
    | apply preserves_for_each; intros ?
    | solve [intros ?; reflexivity]
    | match goal with
      | |- preserves _ (match ?x with _ => _ end) => destruct x
      | |- preserves _ (let '(_, _) := ?x in _) => destruct x
      end ].

Lemma load_categories_outside_manager :
  preserves outside_manager load_categories.
Proof.
  apply preserves_try_except; [|intros e w; reflexivity].
  unfold load_categories_body, py_get, py_items, py_iter, py_lower, py_len.
  preserves_tac.
Qed.

(** What [load_categories] keeps of the flattened map: a property that
    holds of the empty map and that an assignment under a lowered key
    keeps. *)
Section MapInvariant.
Variable Inv : Dict.t string -> Prop.
Hypothesis Inv_empty : Inv Dict.empty.
Hypothesis Inv_set :
  forall app category m, Inv m -> Inv (Dict.set (Str.lower app) category m).

Lemma flatten_apps_invariant (category : string) (apps : list pyobj)
  (w : World) :
  Inv (app_mappings (manager w)) ->
  post (for_each apps (fun app =>
          app_lower <- py_lower app ;;
          modify (fun w =>
            set_app_mappings
              (Dict.set app_lower category (app_mappings (manager w))) w))) w
       (fun _ w' => Inv (app_mappings (manager w')))
       (fun _ w' => Inv (app_mappings (manager w'))).
Proof.
  revert w; induction apps as [|app apps IH]; intros w Hwf;
    cbn [for_each]; [exact Hwf|].
  apply post_bind.
  destruct app; try exact Hwf. simpl py_lower.
  apply post_bind, post_ret. unfold modify, post at 1.
  apply IH. simpl. now apply Inv_set.
Qed.

Lemma flatten_categories_invariant (entries : list (string * pyobj))
  (w : World) :
  Inv (app_mappings (manager w)) ->
  post (for_each entries (fun '(category, info) =>
          apps <- py_get "apps" (PList []) info ;;
          apps <- py_iter apps ;;
          for_each apps (fun app =>
            app_lower <- py_lower app ;;
            modify (fun w =>
              set_app_mappings
                (Dict.set app_lower category (app_mappings (manager w))) w)))) w
       (fun _ w' => Inv (app_mappings (manager w')))
       (fun _ w' => Inv (app_mappings (manager w'))).
Proof.
  revert w; induction entries as [|[category info] entries IH]; intros w Hwf;
    cbn [for_each]; [exact Hwf|].
  eapply post_seq with
    (Pd := fun _ w' => Inv (app_mappings (manager w')))
    (Pr := fun _ w' => Inv (app_mappings (manager w')));
    [|intros _ w2 H2; now apply IH | auto].
  destruct info; try exact Hwf. simpl py_get.
  apply post_bind, post_ret.
  destruct (match Dict.get "apps" d with
            | Some v => v | None => PList [] end);
    try exact Hwf; simpl py_iter; apply post_bind, post_ret;
    now apply flatten_apps_invariant.
Qed.

Lemma load_categories_invariant (w : World) :
  Inv (app_mappings (manager w)) ->
  Inv (app_mappings (manager (state_of (load_categories w)))).
Proof.
  intros Hwf.
  assert (Hpost : post load_categories_body w
                    (fun _ w' => Inv (app_mappings (manager w')))
                    (fun _ w' => Inv (app_mappings (manager w')))).
  { unfold load_categories_body.
    apply post_gets. destruct (source w) as [| |data];
      [exact Hwf | exact Hwf |].
    destruct data; try exact Hwf. simpl py_get.
    apply post_bind, post_ret.
    apply post_bind. unfold modify at 1, post at 1.
    apply post_bind. unfold modify at 1, post at 1.
    set (w1 := set_app_mappings Dict.empty _).
    assert (Hwf1 : Inv (app_mappings (manager w1))) by exact Inv_empty.
    clearbody w1.
    destruct (match Dict.get "categories" d with
              | Some v => v | None => PDict [] end) as [| | | | |entries];
      try exact Hwf1.
    simpl py_items. apply post_bind, post_ret.
    eapply post_seq with
      (Pd := fun _ w' => Inv (app_mappings (manager w')))
      (Pr := fun _ w' => Inv (app_mappings (manager w')));
      [now apply flatten_categories_invariant | | auto].
    intros _ w2 H2. apply post_gets. simpl py_len.
    apply post_bind, post_ret. exact H2. }
  unfold post in Hpost. unfold load_categories, try_except.
  destruct (load_categories_body w) as [[] w' | e w']; simpl; assumption.
Qed.

End MapInvariant.

Lemma lowered_set (app category : string) (m : Dict.t string) :
  lowered m -> lowered (Dict.set (Str.lower app) category m).
Proof.
  intros H k Hk. rewrite dict_keys_set in Hk.
  destruct (Dict.mem (Str.lower app) m); [now apply H|].
  apply in_app_or in Hk as [Hk | [<- | []]];
    [now apply H | apply lower_idempotent].
Qed.

(** Every key of a flattened map resolves to its own category: the
    direct match comes before any pattern. *)
Lemma get_category_of_key (self : CategoryManager) (k c : string) :
  Dict.wf (app_mappings self) -> lowered (app_mappings self) ->
  In (k, c) (Dict.items (app_mappings self)) -> k <> EmptyString ->
  get_category self k = c.
Proof.
  intros Hwf Hlow Hin Hk. unfold get_category.
  destruct k as [|ch k]; [now destruct Hk|]. cbn [Str.truthy negb].
  rewrite (Hlow (String ch k))
    by (change (String ch k) with (fst (String ch k, c)); now apply in_map).
  now rewrite (@dict_in_get _ _ _ _ Hwf Hin).
Qed.

(** X12.  After a reload of the category file and an update of
    app_categories over a storage that does not fail, the table and
    [get_category] agree: every row of the table with a name that is not
    empty holds the category [get_category] gives for its app_name. *)
Theorem app_categories_rows_resolve (w : World) :
  fault_free w ->
  Dict.wf (app_mappings (manager w)) ->
  lowered (app_mappings (manager w)) ->
  let w1 := state_of (load_categories w) in
  let w2 := state_of (_update_app_categories_table w1) in
  forall row,
    In row (app_categories (disk w2)) ->
    a_app_name row <> EmptyString ->
    get_category (manager w2) (a_app_name row) = a_category row.
Proof.
  intros Hff Hwf Hlow w1 w2 row Hrow Hname.
  assert (Hout : outside_manager w1 = outside_manager w)
    by apply load_categories_outside_manager.
  assert (Hff1 : fault_free w1).
  { intros n. unfold outside_manager in Hout.
    injection Hout as _ _ _ _ ->. apply Hff. }
  assert (Hwf1 : Dict.wf (app_mappings (manager w1))).
  { apply (@load_categories_invariant (@Dict.wf string));
      [constructor | intros; now apply dict_wf_set | assumption]. }
  assert (Hlow1 : lowered (app_mappings (manager w1))).
  { apply (@load_categories_invariant lowered);
      [intros k [] | intros; now apply lowered_set | assumption]. }
  destruct (update_app_categories_returns Hff1 Hwf1) as [w3 Hrun].
  pose proof (update_app_categories_body_post w1) as P. unfold post in P.
  rewrite Hrun in P. destruct P as (Hd & _ & Hm & _).
  assert (E : w2 = w3)
    by (unfold w2, _update_app_categories_table, try_except;
        now rewrite Hrun).
  rewrite E in *. rewrite Hd in Hrow. rewrite Hm.
  apply in_map_iff in Hrow as ([k c] & <- & Hin). simpl in *.
  now apply get_category_of_key.
Qed.

Lemma app_categories_rows_resolve_witness :
  let w1 := state_of (load_categories (fresh priority_rules [] no_fault)) in
  let w2 := state_of (_update_app_categories_table w1) in
  In (mkAppCategory "codefire" "Browsers") (app_categories (disk w2)) /\
  get_category (manager w2) "codefire" = "Browsers".
Proof.
  intros w1 w2.
  assert (Hin : In (mkAppCategory "codefire" "Browsers")
                   (app_categories (disk w2)))
    by (vm_compute; auto).
  split; [exact Hin|].
  apply (app_categories_rows_resolve
           (w := fresh priority_rules [] no_fault)
           (fresh_fault_free priority_rules [])
           (NoDup_nil string) (fun k (H : In k []) => match H with end)
           (mkAppCategory "codefire" "Browsers") Hin).
  discriminate.
Defined.

Lemma dict_get_set_same {V} (k : string) (v : V) (d : Dict.t V) :
  Dict.get k (Dict.set k v d) = Some v.
Proof.
  induction d as [|[k' v'] d IH]; simpl.
  - now rewrite String.eqb_refl.
  - destruct (String.eqb k k') eqn:E; simpl; rewrite E; [reflexivity | exact IH].
Qed.

Lemma dict_get_set_other {V} (k k' : string) (v : V) (d : Dict.t V) :
  k <> k' -> Dict.get k (Dict.set k' v d) = Dict.get k d.
Proof.
  intros Hne. induction d as [|[k0 v0] d IH]; simpl.
  - apply String.eqb_neq in Hne. now rewrite Hne.
  - destruct (String.eqb k' k0) eqn:E; simpl.
    + apply String.eqb_eq in E. subst k0.
      apply String.eqb_neq in Hne. now rewrite Hne.
    + now rewrite IH.
Qed.

Lemma get_flatten_apps_in (k c : string) (apps : list string)
  (m : Dict.t string) :
  Dict.get k m = Some c \/ (exists a, In a apps /\ Str.lower a = k) ->
  Dict.get k (flatten_apps c apps m) = Some c.
Proof.
  revert m; induction apps as [|a apps IH]; intros m H; simpl.
  - destruct H as [H | (a & [] & _)]. exact H.
  - apply IH. destruct (string_dec (Str.lower a) k) as [<- | Hne].
    + left. apply dict_get_set_same.
    + rewrite dict_get_set_other by congruence.
      destruct H as [H | (a' & [<- | Ha'] & E)]; [now left | congruence |].
      right. now exists a'.
Qed.

Lemma get_flatten_apps_out (k c : string) (apps : list string)
  (m : Dict.t string) :
  (forall a, In a apps -> Str.lower a <> k) ->
  Dict.get k (flatten_apps c apps m) = Dict.get k m.
Proof.
  revert m; induction apps as [|a apps IH]; intros m H; simpl;
    [reflexivity|].
  rewrite IH by (intros a' Ha'; apply H; now right).
  apply dict_get_set_other. intros E. apply (H a); [now left | now symmetry].
Qed.

Lemma get_flatten_from_out (k : string) (cats : list (string * list string))
  (m : Dict.t string) :
  (forall c apps a, In (c, apps) cats -> In a apps -> Str.lower a <> k) ->
  Dict.get k (flatten_from cats m) = Dict.get k m.
Proof.
  revert m; induction cats as [|[c apps] cats IH]; intros m H; simpl;
    [reflexivity|].
  unfold flatten_from in IH. rewrite IH.
  - apply get_flatten_apps_out. intros a Ha.
    apply (H c apps); [now left | exact Ha].
  - intros c' apps' a' Hc' Ha'. apply (H c' apps'); [now right | exact Ha'].
Qed.

(** The inner loop of [load_categories] over a list of strings. *)
Lemma flatten_apps_run (category : string) (apps : list string) (w : World) :
  for_each (map PStr apps) (fun app =>
    app_lower <- py_lower app ;;
    modify (fun w =>
      set_app_mappings
        (Dict.set app_lower category (app_mappings (manager w))) w)) w
  = Done tt (set_app_mappings
               (flatten_apps category apps (app_mappings (manager w))) w).
Proof.
  revert w; induction apps as [|a apps IH]; intros w; cbn [map for_each].
  - destruct w as [s [c m] d t n f l]. reflexivity.
  - unfold bind at 1. cbn [py_lower]. unfold bind at 1, ret at 1, modify at 1.
    rewrite IH. reflexivity.
Qed.

(** The outer loop over well-formed categories. *)
Lemma flatten_run (entries : list (string * pyobj))
  (cats : list (string * list string)) (w : World) :
  categories_of entries cats ->
  for_each entries (fun '(category, info) =>
    apps <- py_get "apps" (PList []) info ;;
    apps <- py_iter apps ;;
    for_each apps (fun app =>
      app_lower <- py_lower app ;;
      modify (fun w =>
        set_app_mappings
          (Dict.set app_lower category (app_mappings (manager w))) w))) w
  = Done tt (set_app_mappings
               (flatten_from cats (app_mappings (manager w))) w).
Proof.
  intros H. revert w.
  induction H as [|[category info] [c apps] entries cats [Hc Hl] _ IH];
    intros w; cbn [for_each].
  - destruct w as [s [c m] d t n f l]. reflexivity.
  - simpl in Hc, Hl. subst c. destruct Hl as (d & -> & Hget).
    unfold bind at 1. cbn [py_get]. rewrite Hget.
    unfold bind at 1, ret at 1. cbn [py_iter].
    unfold bind at 1, ret at 1. rewrite flatten_apps_run, IH. reflexivity.
Qed.

(** [load_categories] over a file of well-formed categories. *)
Lemma load_categories_flattens (w : World) (d : list (string * pyobj))
  (entries : list (string * pyobj)) (cats : list (string * list string)) :
  source w = Content (PDict d) ->
  Dict.get "categories" d = Some (PDict entries) ->
  categories_of entries cats ->
  load_categories w
  = Done tt
      (add_log (INFO, Loaded_app_mappings (List.length (flatten cats))
                                          (List.length entries))
         (set_manager (mkCategoryManager (PDict entries) (flatten cats)) w)).
Proof.
  intros Hsrc Hget Hcats.
  unfold load_categories, try_except, load_categories_body.
  unfold bind at 1, gets at 1. rewrite Hsrc.
  unfold bind at 1. cbn [py_get]. rewrite Hget. unfold ret at 1.
  unfold bind at 1, modify at 1. unfold bind at 1, modify at 1.
  unfold bind at 1. cbn [py_items]. unfold ret at 1.
  unfold bind at 1. rewrite (flatten_run _ Hcats).
  reflexivity.
Qed.

(** X13.  The last listing wins.  Over a category file of well-formed
    categories, an app that a category lists, and that no later category
    of the file lists in any spelling of upper and lower case, is mapped
    to that category under its lowered name, and [get_category] returns
    the category for it. *)
Theorem last_listing_wins (w : World) (d entries : list (string * pyobj))
  (cats before after : list (string * list string))
  (category app : string) (apps : list string) :
  source w = Content (PDict d) ->
  Dict.get "categories" d = Some (PDict entries) ->
  categories_of entries cats ->
  cats = before ++ (category, apps) :: after ->
  In app apps ->
  app <> EmptyString ->
  (forall c' apps' a',
     In (c', apps') after -> In a' apps' -> Str.lower a' <> Str.lower app) ->
  let self := manager (state_of (load_categories w)) in
  Dict.get (Str.lower app) (app_mappings self) = Some category /\
  get_category self app = category.
Proof.
  intros Hsrc Hget Hcats -> Happ Hne Hlater self.
  assert (Hmap : Dict.get (Str.lower app) (app_mappings self) = Some category).
  { unfold self. rewrite (load_categories_flattens w Hsrc Hget Hcats).
    cbn [state_of manager add_log set_manager app_mappings].
    unfold flatten, flatten_from. rewrite fold_left_app. cbn [fold_left].
    fold (flatten_from before Dict.empty).
    fold (flatten_from after
            (flatten_apps category apps (flatten_from before Dict.empty))).
    rewrite get_flatten_from_out by exact Hlater.
    apply get_flatten_apps_in. right. now exists app. }
  split; [exact Hmap|].
  unfold get_category. rewrite Hmap.
  destruct app; [now destruct Hne | reflexivity].
Qed.

Lemma last_listing_wins_witness :
  get_category
    (manager (state_of (load_categories (fresh priority_rules [] no_fault))))
    "codefire"
  = "Browsers".
Proof.
  assert (Hcats : categories_of
            [("Work", PDict [("apps", PList [PStr "code"])]);
             ("Browsers", PDict [("apps", PList [PStr "codefire"])])]
            [("Work", ["code"]); ("Browsers", ["codefire"])]).
  { repeat (constructor;
            [split; [reflexivity | eexists; split; reflexivity]|]).
    constructor. }
  refine (proj2 (@last_listing_wins (fresh priority_rules [] no_fault)
                   _ _ _ [("Work", ["code"])] [] "Browsers" "codefire"
                   ["codefire"] eq_refl eq_refl Hcats eq_refl _ _ _)).
  - now left.
  - discriminate.
  - intros c' apps' a' [].
Defined.

(* ================================================================= *)
(** ** Invariants of the tables of aggregates *)

(** A property of the committed database that every step of the
    pipeline keeps holds in every state the processor gets into. *)
Section ReachableInvariant.
Variable P : Database -> Prop.
Hypothesis P_fresh : forall evs, P (empty_database evs).
Hypothesis P_event : forall e db, P db -> P (add_event e db).
Hypothesis P_app_categories :
  forall t db, P db -> P (set_app_categories t db).
Hypothesis P_hourly : forall self db, P db -> P (hourly_pass self db).
Hypothesis P_daily :
  forall db, daily_consistent db -> P db -> P (daily_pass db).

Lemma reachable_invariant (w : World) : reachable w -> P (disk w).
Proof.
  induction 1 as [src evs fault | w w' Hw IH Hstep]; [apply P_fresh|].
  destruct Hstep; simpl; try assumption.
  - now apply P_event.
  - now rewrite keeps_disk_load_categories.
  - destruct (update_stage_disk w) as [t ->]. now apply P_app_categories.
  - destruct (hourly_stage_cases w) as (w' & -> & _ & _ & _ & Hc); simpl.
    destruct Hc as [(_ & -> & _) | (e & w1 & _ & _ & ->)];
      [now apply P_hourly | assumption].
  - destruct (daily_stage_cases w) as (w' & -> & _ & _ & _ & Hc); simpl.
    destruct Hc as [(_ & -> & _) | (e & w1 & _ & _ & ->)];
      [|assumption].
    apply P_daily; [now apply reachable_consistent | assumption].
Qed.

End ReachableInvariant.

Lemma NoDup_map_filter {R K} (key : R -> K) (keep : R -> bool)
  (rows : list R) :
  NoDup (map key rows) -> NoDup (map key (filter keep rows)).
Proof.
  intros Hnd. induction rows as [|r rows IH]; simpl in *; [constructor|].
  inversion Hnd as [|? ? Hr Hrows]; subst.
  destruct (keep r); simpl; [|auto].
  constructor; [|auto].
  intros Hin. apply Hr. apply in_map_iff in Hin as (y & E & Hy).
  apply filter_In in Hy as [Hy _]. rewrite <- E. now apply in_map.
Qed.

Lemma NoDup_daily_group_keys (start : Z) (db : Database) :
  NoDup (map daily_group_key (select_daily_data start db)).
Proof.
  unfold select_daily_data.
  eapply Permutation_NoDup;
    [symmetry; apply Permutation_map, Permutation_order_by|].
  rewrite map_map.
  rewrite (map_ext _ fst) by (intros [[[[[a b] c] u] cat] l]; reflexivity).
  apply NoDup_group_by.
Qed.

Lemma NoDup_category_keys (start : Z) (db : Database) :
  NoDup (map category_key (select_category_data start db)).
Proof.
  unfold select_category_data. rewrite map_map.
  rewrite (map_ext _ fst) by (intros [[[a b] c] l]; reflexivity).
  apply NoDup_group_by.
Qed.

(** The rows the daily pass keeps in daily_usage lie before its start
    date when every date of daily_usage is a date of hourly_usage. *)
Lemma kept_before_daily_start (db : Database) (r : DailyUsage) :
  daily_consistent db ->
  In r (daily_usage db) ->
  in_dates (map d_date (select_daily_data (daily_start db) db)) (d_date r)
  = false ->
  d_date r < daily_start db.
Proof.
  intros [_ Hsrc] Hr Hn.
  destruct (Hsrc r Hr) as (h & Hh & Hd).
  destruct (Z.lt_ge_cases (d_date r) (daily_start db)) as [|Hge];
    [assumption|].
  exfalso. apply in_dates_false in Hn. apply Hn.
  rewrite <- Hd. apply select_daily_data_covers; [assumption | lia].
Qed.

(** The dates of the category rows of a daily pass are dates of its
    daily rows. *)
Lemma category_data_dates (db : Database) (c : DailyCategoryUsage) :
  daily_consistent db ->
  let start := daily_start db in
  let data := select_daily_data start db in
  In c (select_category_data start
          (set_daily_usage
             (filter (fun r => negb (in_dates (map d_date data) (d_date r)))
                     (daily_usage db) ++ data) db)) ->
  In (c_date c) (map d_date data).
Proof.
  intros Hcons start data Hc.
  unfold select_category_data in Hc.
  apply in_map_iff in Hc as (g & <- & Hg).
  apply group_by_key_in in Hg as (d & Hd & Hk).
  simpl in Hd. apply filter_In in Hd as [Hd Hs]. apply Z.leb_le in Hs.
  destruct g as [[[gd gdev] gcat] l]; simpl in *.
  unfold daily_key in Hk. injection Hk as <- _ _.
  apply in_app_or in Hd as [Hd | Hd]; [|now apply in_map].
  apply filter_In in Hd as [Hd Hn]. apply negb_true_iff in Hn.
  pose proof (@kept_before_daily_start _ _ Hcons Hd Hn). unfold start in Hs. lia.
Qed.

Lemma hourly_pass_one_row_per_key (self : CategoryManager) (db : Database) :
  one_row_per_key db -> one_row_per_key (hourly_pass self db).
Proof.
  intros (Hh & Hd & Hc). split; [|now split].
  unfold hourly_pass; simpl.
  set (data := select_hourly_data (hourly_start db) db).
  rewrite map_app, map_map.
  rewrite (map_ext (fun g => bucket_key (hourly_row self g)) group_key)
    by reflexivity.
  apply NoDup_app;
    [now apply NoDup_map_filter | apply NoDup_group_keys |].
  intros k Hk Hk'.
  apply in_map_iff in Hk as (r & <- & Hr).
  apply in_map_iff in Hk' as (g & Hg & Hin).
  apply filter_In in Hr as [_ Hn]. apply negb_true_iff in Hn.
  rewrite <- not_true_iff_false in Hn. apply Hn.
  apply in_slots_spec. apply in_map_iff. exists g. split; [|assumption].
  unfold group_key, bucket_key in Hg. now injection Hg as -> -> _ _ _.
Qed.

Lemma daily_pass_one_row_per_key (db : Database) :
  daily_consistent db -> one_row_per_key db -> one_row_per_key (daily_pass db).
Proof.
  intros Hcons (Hh & Hd & Hc). unfold daily_pass.
  destruct (select_daily_data (daily_start db) db) as [|row rows] eqn:E;
    [now repeat split|].
  rewrite <- E. clear E row rows.
  set (start := daily_start db).
  set (data := select_daily_data start db).
  unfold daily_replace. split; [exact Hh|]. simpl. split.
  - rewrite map_app. apply NoDup_app;
      [now apply NoDup_map_filter | apply NoDup_daily_group_keys |].
    intros k Hk Hk'.
    apply in_map_iff in Hk as (r & <- & Hr).
    apply in_map_iff in Hk' as (r' & Hr' & Hin).
    apply filter_In in Hr as [_ Hn].
    apply negb_true_iff, in_dates_false in Hn. apply Hn.
    unfold daily_group_key in Hr'. injection Hr' as <- _ _ _ _.
    now apply in_map.
  - rewrite map_app. apply NoDup_app;
      [now apply NoDup_map_filter | apply NoDup_category_keys |].
    intros k Hk Hk'.
    apply in_map_iff in Hk as (r & <- & Hr).
    apply in_map_iff in Hk' as (c & Hc' & Hin).
    apply filter_In in Hr as [_ Hn].
    apply negb_true_iff, in_dates_false in Hn. apply Hn.
    unfold category_key in Hc'. injection Hc' as <- _ _.
    now apply (@category_data_dates db c Hcons).
Qed.

(** X14.  In every state the processor gets into from a database without
    aggregates, each table of aggregates holds one row per key:
    hourly_usage per (date, hour, device_type, app_name, website_url),
    daily_usage per (date, device_type, app_name, website_url, category)
    and daily_category_usage per (date, device_type, category), also
    where the website_url is NULL and the UNIQUE constraints of the
    tables do not enforce it. *)
Theorem aggregates_hold_one_row_per_key (w : World) :
  reachable w -> one_row_per_key (disk w).
Proof.
  apply reachable_invariant.
  - intros evs. repeat split; constructor.
  - intros e db H. exact H.
  - intros t db H. exact H.
  - intros self db. apply hourly_pass_one_row_per_key.
  - apply daily_pass_one_row_per_key.
Qed.

Lemma aggregates_hold_one_row_per_key_witness :
  one_row_per_key (disk (state_of (process_all (fresh Missing one_event no_fault)))).
Proof.
  apply aggregates_hold_one_row_per_key.
  apply reachable_process_all. constructor.
Defined.

Lemma sum_of_positive {R} (col : R -> Z) (l : list R) (x : R) :
  In x l -> (forall r, In r l -> 1 <= col r) -> 1 <= sum_of col l.
Proof.
  intros Hx Hall.
  assert (Hge : forall l', (forall r, In r l' -> 1 <= col r) ->
                           0 <= sum_of col l').
  { induction l' as [|y l' IH]; simpl; intros H; [lia|].
    assert (1 <= col y) by (apply H; now left).
    assert (0 <= sum_of col l') by (apply IH; intros; apply H; now right).
    lia. }
  induction l as [|y l IH]; [destruct Hx|]. simpl.
  assert (1 <= col y) by (apply Hall; now left).
  assert (0 <= sum_of col l) by (apply Hge; intros; apply Hall; now right).
  lia.
Qed.

Lemma hourly_pass_well_formed (self : CategoryManager) (db : Database) :
  well_formed_buckets db -> well_formed_buckets (hourly_pass self db).
Proof.
  intros [Hh Hd]. split; [|exact Hd].
  intros r Hr. unfold hourly_pass in Hr; simpl in Hr.
  apply in_app_or in Hr as [Hr | Hr].
  - apply filter_In in Hr as [Hr _]. now apply Hh.
  - apply in_map_iff in Hr as (g & <- & Hg). simpl. split.
    + eapply select_hourly_data_hour_range; eauto.
    + apply in_select_hourly_data in Hg as (e & He & Hs & ->).
      unfold event_key; simpl. unfold count_of.
      set (rows := filter _ _).
      assert (Hin : In e rows).
      { apply filter_In. split;
          [|apply (same_key_refl event_key HourKey_eq_dec e)].
        apply filter_In. split; [assumption | now apply Z.ltb_lt]. }
      destruct rows; [destruct Hin | simpl; lia].
Qed.

Lemma daily_pass_well_formed (db : Database) :
  well_formed_buckets db -> well_formed_buckets (daily_pass db).
Proof.
  intros [Hh Hd]. unfold daily_pass.
  destruct (select_daily_data (daily_start db) db) as [|row rows] eqn:E;
    [now split|].
  rewrite <- E. clear E row rows. split; [exact Hh|].
  intros r Hr. unfold daily_replace in Hr; simpl in Hr.
  apply in_app_or in Hr as [Hr | Hr].
  - apply filter_In in Hr as [Hr _]. now apply Hd.
  - apply in_select_daily_data in Hr as (h & Hsel & ->). simpl.
    apply sum_of_positive with (x := h).
    + apply filter_In. split; [assumption | apply same_key_refl].
    + intros x Hx. apply filter_In in Hx as [Hx _].
      apply filter_In in Hx as [Hx _]. now apply Hh.
Qed.

(** X15.  In every state the processor gets into from a database without
    aggregates, every hourly bucket lies in an hour from 0 to 23 and
    every hourly and daily bucket stands for at least one event. *)
Theorem buckets_stand_for_events (w : World) :
  reachable w -> well_formed_buckets (disk w).
Proof.
  apply reachable_invariant.
  - intros evs. split; intros r [].
  - intros e db H. exact H.
  - intros t db H. exact H.
  - intros self db. apply hourly_pass_well_formed.
  - intros db _. apply daily_pass_well_formed.
Qed.

Lemma buckets_stand_for_events_witness :
  well_formed_buckets
    (disk (state_of (process_all (fresh Missing one_event no_fault)))).
Proof.
  apply buckets_stand_for_events.
  apply reachable_process_all. constructor.
Defined.

(* ================================================================= *)
(** ** Hourly passes away from the boundary *)

(** X16.  Away from the boundary the hourly stage is idempotent.  When
    no event was written in the last second of an hour (strictly after
    hh:59:59), a stage that runs after a stage that succeeded, over the
    same events and rules, leaves the buckets of the first: it replaces
    the buckets of the lookback window by the same buckets, or fails and
    commits nothing. *)
Theorem hourly_stage_is_idempotent_off_boundary (w w1 : World) :
  (forall e, In e (events (disk w)) -> off_boundary e) ->
  process_hourly_body w = Done tt w1 ->
  let w2 := state_of (_process_hourly_aggregations w1) in
  Permutation (hourly_usage (disk w2)) (hourly_usage (disk w1)) /\
  events (disk w2) = events (disk w).
Proof.
  intros Hoff Hrun w2.
  pose proof (process_hourly_body_post w) as P1. unfold post in P1.
  rewrite Hrun in P1. destruct P1 as (D1 & _ & M1 & _).
  destruct (hourly_stage_cases w1) as (w' & Hstage & _ & _ & _ & Hc).
  subst w2. rewrite Hstage. cbn [state_of].
  destruct Hc as [(_ & -> & _) | (e & w3 & _ & _ & ->)].
  - rewrite M1, D1. split; [now apply hourly_pass_rerun_off_boundary|].
    reflexivity.
  - split; [reflexivity | now rewrite D1].
Qed.

Lemma hourly_stage_is_idempotent_off_boundary_witness :
  let w := fresh Missing morning_events no_fault in
  let w1 := state_of (process_hourly_body w) in
  Permutation
    (hourly_usage (disk (state_of (_process_hourly_aggregations w1))))
    (hourly_usage (disk w1)).
Proof.
  intros w w1.
  assert (Hoff : forall e, In e (events (disk w)) -> off_boundary e).
  { intros e [<- | [<- | []]]; split; vm_compute; discriminate. }
  assert (Hrun : process_hourly_body w = Done tt w1)
    by (vm_compute; reflexivity).
  exact (proj1 (@hourly_stage_is_idempotent_off_boundary w w1 Hoff Hrun)).
Defined.

(** X17.  A late event away from the boundary.  After a stage that
    succeeded over events none of which was written in the last second
    of an hour, an event that arrives inside the lookback window, itself
    not in the last second of an hour, makes the next successful stage
    rebuild the bucket of its key from all events of the key: the
    earlier ones and the late one.  The bucket grows by the duration of
    the event and by one event, and it is the only row of its key. *)
Theorem late_event_joins_its_bucket_off_boundary (w w1 w2 : World)
  (e : Event) :
  (forall x, In x (events (disk w)) -> off_boundary x) ->
  off_boundary e ->
  process_hourly_body w = Done tt w1 ->
  hourly_start (disk w1) < timestamp e ->
  process_hourly_body (set_disk (add_event e (disk w1)) w1) = Done tt w2 ->
  let earlier := events_of_key e (events (disk w)) in
  let bucket := bucket_of (manager w) e (earlier ++ [e]) in
  (earlier <> [] ->
   In (bucket_of (manager w) e earlier) (hourly_usage (disk w1))) /\
  In bucket (hourly_usage (disk w2)) /\
  h_total_seconds bucket
  = h_total_seconds (bucket_of (manager w) e earlier) + duration_seconds e /\
  h_event_count bucket
  = h_event_count (bucket_of (manager w) e earlier) + 1 /\
  forall r, In r (hourly_usage (disk w2)) -> bucket_key r = event_key e ->
            r = bucket.
Proof.
  intros Hoff Hoffe Hrun1 Hlate Hrun2.
  pose proof (process_hourly_body_post w) as P1. unfold post in P1.
  rewrite Hrun1 in P1. destruct P1 as (D1 & _ & M1 & _).
  pose proof (process_hourly_body_post
                (set_disk (add_event e (disk w1)) w1)) as P2.
  unfold post in P2. rewrite Hrun2 in P2. destruct P2 as (D2 & _).
  cbn [disk manager set_disk] in D2. rewrite M1, D1 in D2.
  rewrite D1 in Hlate. rewrite D1, D2.
  exact (@late_event_off_boundary (manager w) (disk w) e Hoff Hoffe Hlate).
Qed.

Lemma late_event_joins_its_bucket_off_boundary_witness :
  let w := fresh Missing morning_events no_fault in
  let w1 := state_of (process_hourly_body w) in
  let w2 := state_of (process_hourly_body
                        (set_disk (add_event late_morning_event (disk w1)) w1)) in
  In (firefox_bucket 9 10 1) (hourly_usage (disk w1)) /\
  In (firefox_bucket 9 17 2) (hourly_usage (disk w2)).
Proof.
  intros w w1 w2.
  assert (Hoff : forall e, In e (events (disk w)) -> off_boundary e).
  { intros e [<- | [<- | []]]; split; vm_compute; discriminate. }
  assert (Hoffe : off_boundary late_morning_event)
    by (split; vm_compute; discriminate).
  assert (Hrun1 : process_hourly_body w = Done tt w1)
    by (vm_compute; reflexivity).
  assert (Hlate : hourly_start (disk w1) < timestamp late_morning_event)
    by (vm_compute; reflexivity).
  assert (Hrun2 : process_hourly_body
                    (set_disk (add_event late_morning_event (disk w1)) w1)
                  = Done tt w2)
    by (vm_compute; reflexivity).
  pose proof (@late_event_joins_its_bucket_off_boundary
                w w1 w2 late_morning_event
                Hoff Hoffe Hrun1 Hlate Hrun2) as (H1 & H2 & _).
  split; [apply H1; discriminate | exact H2].
Defined.

(* ================================================================= *)
(** ** The first cycle over a database without aggregates *)







(* ================================================================= *)
(** ** Re-running the daily pass *)

Lemma in_map_group_by {R K B} (key : R -> K)
  (dec : forall a b : K, {a = b} + {a <> b}) (f : K * list R -> B)
  (rows : list R) (b : B) :
  In b (map f (group_by key dec rows)) <->
  exists r, In r rows /\
            b = f (key r, filter (same_key key dec (key r)) rows).
Proof.
  rewrite in_map_iff. split.
  - intros (g & <- & Hg). unfold group_by in Hg.
    apply in_map_iff in Hg as (k & <- & Hk).
    apply nodup_In, in_map_iff in Hk as (r & <- & Hr). now exists r.
  - intros (r & Hr & ->). eexists. split; [reflexivity|].
    now apply in_group_by.
Qed.

Lemma same_key_true {R K} (key : R -> K)
  (dec : forall a b : K, {a = b} + {a <> b}) (k : K) (r : R) :
  same_key key dec k r = true <-> key r = k.
Proof.
  unfold same_key. destruct (dec (key r) k); split; congruence.
Qed.

(** The hourly buckets of a key are the same whatever start date not
    after the date of the key selects them. *)
Lemma hourly_rows_of_key (s1 s2 : Z) (rows : list HourlyUsage)
  (h : HourlyUsage) :
  s1 <= s2 -> s2 <= h_date h ->
  filter (same_key hourly_key DayKey_eq_dec (hourly_key h))
         (filter (fun r => s1 <=? h_date r) rows)
  = filter (same_key hourly_key DayKey_eq_dec (hourly_key h))
           (filter (fun r => s2 <=? h_date r) rows).
Proof.
  intros H12 H2. rewrite !filter_filter. apply filter_ext. intros r.
  destruct (same_key _ _ _ r) eqn:E; [|now rewrite !andb_false_r].
  apply same_key_true in E. unfold hourly_key in E. injection E as E _ _ _ _.
  rewrite !andb_true_r.
  transitivity true; [|symmetry]; apply Z.leb_le; lia.
Qed.

(** The rows of a daily SELECT from a later start date are the rows of
    the earlier one from that date on. *)
Lemma select_daily_data_later (s1 s2 : Z) (db : Database) :
  s1 <= s2 ->
  Permutation (filter (fun r => s2 <=? d_date r) (select_daily_data s1 db))
              (select_daily_data s2 db).
Proof.
  intros H12. apply NoDup_Permutation.
  - apply NoDup_filter. eapply NoDup_map_inv, NoDup_daily_group_keys.
  - eapply NoDup_map_inv, NoDup_daily_group_keys.
  - intros r. rewrite filter_In, !in_select_daily_data. split.
    + intros [(h & Hh & ->) Hs]. simpl in Hs. apply Z.leb_le in Hs.
      apply filter_In in Hh as [Hh _].
      exists h. split; [apply filter_In; split; [assumption | now apply Z.leb_le]|].
      now rewrite (hourly_rows_of_key (hourly_usage db) h H12 Hs).
    + intros (h & Hh & ->). apply filter_In in Hh as [Hh Hs].
      apply Z.leb_le in Hs. split; [|simpl; now apply Z.leb_le].
      exists h. split; [apply filter_In; split; [assumption | apply Z.leb_le; lia]|].
      now rewrite (hourly_rows_of_key (hourly_usage db) h H12 Hs).
Qed.

(** And so for the category rows computed from them. *)
Lemma category_rows_later (s2 : Z) (data1 data2 : list DailyUsage) :
  Permutation (filter (fun r => s2 <=? d_date r) data1) data2 ->
  Permutation
    (filter (fun c => s2 <=? c_date c)
       (map category_row (group_by daily_key CatKey_eq_dec data1)))
    (map category_row (group_by daily_key CatKey_eq_dec data2)).
Proof.
  intros Hperm.
  assert (Hnd : forall l,
            NoDup (map category_row (group_by daily_key CatKey_eq_dec l))).
  { intros l. apply (NoDup_map_inv category_key). rewrite map_map.
    rewrite (map_ext _ fst) by (intros [[[a b] c] x]; reflexivity).
    apply NoDup_group_by. }
  assert (Hrow : forall r, s2 <= d_date r ->
            category_row (daily_key r,
                          filter (same_key daily_key CatKey_eq_dec (daily_key r))
                                 data1)
            = category_row (daily_key r,
                            filter (same_key daily_key CatKey_eq_dec (daily_key r))
                                   data2)).
  { intros r Hs. unfold category_row, daily_key. f_equal.
    rewrite <- (sum_of_filter_Permutation d_total_seconds _ Hperm).
    rewrite filter_filter. f_equal. apply filter_ext. intros x.
    destruct (same_key _ _ _ x) eqn:E; [|now rewrite andb_false_r].
    apply same_key_true in E. injection E as E _ _.
    rewrite andb_true_r. symmetry. apply Z.leb_le. lia. }
  apply NoDup_Permutation; [apply NoDup_filter, Hnd | apply Hnd |].
  intros c. rewrite filter_In, !in_map_group_by. split.
  - intros [(r & Hr & ->) Hs]. simpl in Hs.
    exists r. split.
    + apply (Permutation_in _ Hperm). apply filter_In. now split.
    + apply Hrow. now apply Z.leb_le.
  - intros (r & Hr & ->).
    apply (Permutation_in _ (Permutation_sym Hperm)) in Hr.
    apply filter_In in Hr as [Hr Hs]. split; [|exact Hs].
    exists r. split; [assumption|]. symmetry. apply Hrow. now apply Z.leb_le.
Qed.

(** A replacement from a later start date, right after a replacement,
    rewrites the rows of its dates as they are. *)
Lemma daily_replace_again (db : Database) (s1 s2 : Z) :
  s1 <= s2 ->
  let data1 := select_daily_data s1 db in
  (forall r, In r (daily_usage db) ->
             in_dates (map d_date data1) (d_date r) = false ->
             d_date r < s1) ->
  let db1 := daily_replace s1 data1 db in
  let db2 := daily_replace s2 (select_daily_data s2 db1) db1 in
  Permutation (daily_usage db2) (daily_usage db1) /\
  Permutation (daily_category_usage db2) (daily_category_usage db1).
Proof.
  intros H12 data1 Hkept db1 db2.
  set (data2 := select_daily_data s2 db).
  set (dates1 := map d_date data1) in *.
  set (dates2 := map d_date data2).
  set (kept1 := filter (fun r => negb (in_dates dates1 (d_date r)))
                       (daily_usage db)).
  set (keptc1 := filter (fun r => negb (in_dates dates1 (c_date r)))
                        (daily_category_usage db)).
  set (cat1 := map category_row (group_by daily_key CatKey_eq_dec data1)).
  set (cat2 := map category_row (group_by daily_key CatKey_eq_dec data2)).
  assert (F1 : forall r, In r data1 -> s1 <= d_date r).
  { intros r Hr.
    apply select_daily_data_from_hourly in Hr as (_ & _ & _ & H). exact H. }
  assert (F1' : forall r, In r data2 -> s2 <= d_date r).
  { intros r Hr.
    apply select_daily_data_from_hourly in Hr as (_ & _ & _ & H). exact H. }
  assert (F2 : forall r, In r data1 ->
                 in_dates dates2 (d_date r) = (s2 <=? d_date r)).
  { intros r Hr.
    apply select_daily_data_from_hourly in Hr as (h & Hh & Hd & Hs1).
    destruct (Z.leb_spec s2 (d_date r)) as [Hle | Hlt].
    - apply in_dates_spec. rewrite <- Hd.
      apply select_daily_data_covers; [assumption | lia].
    - apply in_dates_false. intros Hin.
      apply in_map_iff in Hin as (r2 & E & Hr2).
      apply F1' in Hr2. lia. }
  assert (Hk1 : forall r, In r kept1 -> d_date r < s1).
  { intros r Hr. apply filter_In in Hr as [Hr Hn].
    apply Hkept; [assumption | now apply negb_true_iff]. }
  assert (F3 : forall r, In r kept1 -> in_dates dates2 (d_date r) = false).
  { intros r Hr. apply Hk1 in Hr. apply in_dates_false. intros Hin.
    apply in_map_iff in Hin as (r2 & E & Hr2). apply F1' in Hr2. lia. }
  assert (F4 : Permutation (filter (fun r => s2 <=? d_date r) data1) data2)
    by now apply select_daily_data_later.
  assert (EU1 : daily_usage db1 = kept1 ++ data1) by reflexivity.
  assert (EU2 : daily_usage db2
                = kept1
                  ++ filter (fun r => negb (s2 <=? d_date r)) data1
                  ++ data2).
  { change (daily_usage db2)
      with (filter (fun r => negb (in_dates dates2 (d_date r)))
                   (kept1 ++ data1) ++ data2).
    rewrite filter_app, <- app_assoc. f_equal; [|f_equal].
    - apply filter_all. intros r Hr. now rewrite F3.
    - apply filter_ext_in. intros r Hr. now rewrite F2. }
  assert (EC1 : daily_category_usage db1 = keptc1 ++ cat1).
  { change (daily_category_usage db1)
      with (keptc1
            ++ map category_row
                 (group_by daily_key CatKey_eq_dec
                    (filter (fun r => s1 <=? d_date r) (kept1 ++ data1)))).
    rewrite filter_app.
    rewrite (filter_none _ kept1)
      by (intros r Hr; apply Z.leb_gt; now apply Hk1).
    rewrite (filter_all _ data1)
      by (intros r Hr; apply Z.leb_le; now apply F1).
    reflexivity. }
  assert (EC2 : daily_category_usage db2
                = filter (fun r => negb (in_dates dates2 (c_date r)))
                         (daily_category_usage db1)
                  ++ cat2).
  { change (daily_category_usage db2)
      with (filter (fun r => negb (in_dates dates2 (c_date r)))
                   (daily_category_usage db1)
            ++ map category_row
                 (group_by daily_key CatKey_eq_dec
                    (filter (fun r => s2 <=? d_date r) (daily_usage db2)))).
    f_equal. unfold cat2. do 2 f_equal.
    rewrite EU2, !filter_app.
    rewrite (filter_none _ kept1)
      by (intros r Hr; apply Z.leb_gt; apply Hk1 in Hr; lia).
    rewrite filter_filter.
    rewrite (filter_none _ data1)
      by (intros r _; apply andb_negb_l).
    rewrite (filter_all _ data2)
      by (intros r Hr; apply Z.leb_le; now apply F1').
    reflexivity. }
  split.
  - rewrite EU2, EU1. apply Permutation_app_head.
    transitivity (filter (fun r => negb (s2 <=? d_date r)) data1
                  ++ filter (fun r => s2 <=? d_date r) data1).
    + apply Permutation_app_head. now symmetry.
    + apply Permutation_filter_split.
  - rewrite EC2, EC1, filter_app, <- app_assoc.
    assert (Hsub : forall d, in_dates dates2 d = true ->
                             in_dates dates1 d = true).
    { intros d Hd. apply in_dates_spec in Hd. apply in_dates_spec.
      apply in_map_iff in Hd as (r2 & <- & Hr2).
      apply select_daily_data_from_hourly in Hr2 as (h & Hh & <- & Hs2).
      apply select_daily_data_covers; [assumption | lia]. }
    rewrite (filter_all _ keptc1).
    + apply Permutation_app_head.
      rewrite (filter_ext_in _ (fun c => negb (s2 <=? c_date c))).
      * transitivity (filter (fun c => negb (s2 <=? c_date c)) cat1
                      ++ filter (fun c => s2 <=? c_date c) cat1).
        -- apply Permutation_app_head. symmetry.
           now apply category_rows_later.
        -- apply Permutation_filter_split.
      * intros c Hc. f_equal.
        apply in_map_group_by in Hc as (r & Hr & ->).
        unfold category_row, daily_key; simpl. now apply F2.
    + intros c Hc. apply filter_In in Hc as [_ Hn].
      apply negb_true_iff in Hn. apply negb_true_iff.
      destruct (in_dates dates2 (c_date c)) eqn:E; [|reflexivity].
      apply Hsub in E. congruence.
Qed.

(** After a daily pass that wrote rows, the start date has not moved
    back. *)
Lemma daily_start_after_replace (db : Database) :
  daily_consistent db ->
  (forall h, In h (hourly_usage db) -> epoch_date <= h_date h) ->
  select_daily_data (daily_start db) db <> [] ->
  daily_start db
  <= daily_start
       (daily_replace (daily_start db)
          (select_daily_data (daily_start db) db) db).
Proof.
  intros [_ Hsrc] Hepoch Hne.
  set (s1 := daily_start db) in *.
  set (data1 := select_daily_data s1 db) in *.
  assert (Hrow : exists r, In r data1 /\ s1 + lookback_days <= d_date r).
  { unfold s1, daily_start, select_max_date.
    destruct (max_of (map d_date (daily_usage db))) as [m0|] eqn:Em0.
    - destruct (max_of_spec _ Em0) as [Hm0 _].
      apply in_map_iff in Hm0 as (r0 & E0 & Hr0).
      destruct (Hsrc r0 Hr0) as (h & Hh & Hd).
      assert (Hin : In (h_date h) (map d_date data1)).
      { apply select_daily_data_covers; [assumption|].
        unfold s1, daily_start, select_max_date. rewrite Em0.
        unfold lookback_days. lia. }
      apply in_map_iff in Hin as (r & Er & Hr).
      exists r. split; [assumption | lia].
    - destruct data1 as [|r rest] eqn:E; [now destruct Hne|].
      assert (Hr : In r data1) by (rewrite E; now left).
      rewrite <- E in *. exists r. split; [assumption|].
      apply select_daily_data_from_hourly in Hr as (h & Hh & Hd & _).
      specialize (Hepoch h Hh). lia. }
  destruct Hrow as (r & Hr & Hle).
  unfold daily_start at 1, select_max_date.
  change (daily_usage (daily_replace s1 data1 db))
    with (filter (fun r => negb (in_dates (map d_date data1) (d_date r)))
                 (daily_usage db) ++ data1).
  set (kept1 := filter _ (daily_usage db)).
  destruct (max_of (map d_date (kept1 ++ data1))) as [m|] eqn:Em.
  - apply max_of_spec in Em as [_ Hmax].
    assert (d_date r <= m).
    { apply Hmax. rewrite map_app. apply in_or_app. right. now apply in_map. }
    lia.
  - apply max_of_none in Em. rewrite map_app in Em.
    apply app_eq_nil in Em as [_ Em].
    destruct data1; [destruct Hr | discriminate].
Qed.

(** A daily pass right after a daily pass leaves the rows of the first. *)
Lemma daily_pass_twice (db : Database) :
  daily_consistent db ->
  (forall h, In h (hourly_usage db) -> epoch_date <= h_date h) ->
  Permutation (daily_usage (daily_pass (daily_pass db)))
              (daily_usage (daily_pass db)) /\
  Permutation (daily_category_usage (daily_pass (daily_pass db)))
              (daily_category_usage (daily_pass db)).
Proof.
  intros Hcons Hepoch.
  assert (Hcases : select_daily_data (daily_start db) db = [] \/
                   select_daily_data (daily_start db) db <> [])
    by (destruct (select_daily_data _ db); [left | right]; congruence).
  destruct Hcases as [Hnil | Hne].
  - assert (E : daily_pass db = db) by (unfold daily_pass; now rewrite Hnil).
    rewrite !E. now split.
  - assert (E : daily_pass db
                = daily_replace (daily_start db)
                    (select_daily_data (daily_start db) db) db).
    { unfold daily_pass.
      destruct (select_daily_data (daily_start db) db);
        [now destruct Hne | reflexivity]. }
    rewrite E.
    set (db1 := daily_replace _ _ db).
    unfold daily_pass.
    destruct (select_daily_data (daily_start db1) db1) as [|row rows] eqn:E2;
      [now split|].
    rewrite <- E2.
    apply (daily_replace_again db (s1 := daily_start db)
             (s2 := daily_start db1)).
    + now apply daily_start_after_replace.
    + intros r Hr Hn. now apply (@kept_before_daily_start db r).
Qed.

(** X19.  The daily stage is idempotent.  Over a database whose daily
    tables are consistent and whose hourly buckets are not dated before
    the epoch, a daily stage that runs right after a daily pass that
    succeeded leaves daily_usage and daily_category_usage with the rows
    of the first pass: it rewrites the rows of its dates as they are, or
    fails and commits nothing.  Unlike the hourly pass, the daily pass
    selects whole dates. *)
Theorem daily_stage_is_idempotent (w w1 : World) :
  daily_consistent (disk w) ->
  (forall h, In h (hourly_usage (disk w)) -> epoch_date <= h_date h) ->
  process_daily_body w = Done tt w1 ->
  let w2 := state_of (_process_daily_aggregations w1) in
  Permutation (daily_usage (disk w2)) (daily_usage (disk w1)) /\
  Permutation (daily_category_usage (disk w2))
              (daily_category_usage (disk w1)).
Proof.
  intros Hcons Hepoch Hrun w2.
  pose proof (process_daily_body_post w) as P1. unfold post in P1.
  rewrite Hrun in P1. destruct P1 as (D1 & _).
  destruct (daily_stage_cases w1) as (w' & Hstage & _ & _ & _ & Hc).
  subst w2. rewrite Hstage. cbn [state_of].
  destruct Hc as [(_ & -> & _) | (e & w3 & _ & _ & ->)]; [|now split].
  rewrite D1. now apply daily_pass_twice.
Qed.

Lemma daily_stage_is_idempotent_witness :
  let w1 := state_of (process_daily_body settled_world) in
  Permutation
    (daily_usage (disk (state_of (_process_daily_aggregations w1))))
    (daily_usage (disk w1)).
Proof.
  intros w1.
  assert (Hc : daily_consistent (disk settled_world))
    by (split; [intros d; reflexivity | intros r []]).
  assert (Hepoch : forall h, In h (hourly_usage (disk settled_world)) ->
                             epoch_date <= h_date h).
  { intros h [<- | [<- | []]]; vm_compute; discriminate. }
  assert (Hrun : process_daily_body settled_world = Done tt w1)
    by (vm_compute; reflexivity).
  exact (proj1 (@daily_stage_is_idempotent settled_world w1 Hc Hepoch Hrun)).
Defined.

(* ================================================================= *)
(** ** The start of a pass never moves back *)

Lemma hourly_start_never_moves_back (self : CategoryManager) (db : Database) :
  (forall e, In e (events db) -> epoch_ts <= timestamp e) ->
  hourly_start db <= hourly_start (hourly_pass self db).
Proof.
  intros Hepoch.
  destruct (hourly_start_cases (hourly_pass self db))
    as [[Hnil ->] | (r & Hr & -> & Hmax)].
  - destruct (hourly_start_cases db) as [[_ ->] | (r0 & Hr0 & _)];
      [reflexivity|].
    destruct (hourly_pass_keeps_slots self db r0 Hr0) as (h' & Hh' & _).
    rewrite Hnil in Hh'. destruct Hh'.
  - destruct (hourly_start_cases db) as [[Hnil ->] | (r0 & Hr0 & -> & _)].
    + unfold hourly_pass in Hr; simpl in Hr. rewrite Hnil in Hr; simpl in Hr.
      apply in_map_iff in Hr as (g & <- & Hg).
      apply in_select_hourly_data in Hg as (e & He & _ & ->).
      pose proof (Hepoch e He) as Hpos.
      unfold event_key; simpl.
      rewrite hour_end_index, strftime_hour_index.
      pose proof (Z.div_pos (timestamp e) usec_per_hour Hpos).
      unfold epoch_ts, lookback_hours, usec_per_hour, usec_per_second in *.
      lia.
    + destruct (hourly_pass_keeps_slots self db r0 Hr0) as (h' & Hh' & Ed & Eh).
      specialize (Hmax h' Hh'). rewrite Ed, Eh in Hmax.
      rewrite !hour_end_index.
      unfold lookback_hours, usec_per_hour, usec_per_second in *. lia.
Qed.

(** X20.  The start of a stage never moves back.  Over events written
    at or after the epoch, the timestamp from which the hourly stage
    selects events is, after the stage, where it was or later, so an
    event that lies at or before it is not selected by the next stage
    either.  Over consistent daily tables and hourly buckets dated at or
    after the epoch, the same holds of the date from which the daily
    stage selects buckets. *)
Theorem stage_start_never_moves_back (w : World) :
  ((forall e, In e (events (disk w)) -> epoch_ts <= timestamp e) ->
   let w' := state_of (_process_hourly_aggregations w) in
   hourly_start (disk w) <= hourly_start (disk w') /\
   forall e, timestamp e <= hourly_start (disk w) ->
             (hourly_start (disk w') <? timestamp e) = false) /\
  (daily_consistent (disk w) ->
   (forall h, In h (hourly_usage (disk w)) -> epoch_date <= h_date h) ->
   let w' := state_of (_process_daily_aggregations w) in
   daily_start (disk w) <= daily_start (disk w') /\
   forall h, h_date h < daily_start (disk w) ->
             (daily_start (disk w') <=? h_date h) = false).
Proof.
  split.
  - intros Hepoch w'.
    assert (Hle : hourly_start (disk w) <= hourly_start (disk w')).
    { subst w'.
      destruct (hourly_stage_cases w) as (w1 & -> & _ & _ & _ & Hc); simpl.
      destruct Hc as [(_ & -> & _) | (e & w2 & _ & _ & ->)];
        [now apply hourly_start_never_moves_back | reflexivity]. }
    split; [exact Hle|]. intros e He. apply Z.ltb_ge. lia.
  - intros Hcons Hepoch w'.
    assert (Hle : daily_start (disk w) <= daily_start (disk w')).
    { subst w'.
      destruct (daily_stage_cases w) as (w1 & -> & _ & _ & _ & Hc); simpl.
      destruct Hc as [(_ & -> & _) | (e & w2 & _ & _ & ->)];
        [|reflexivity].
      unfold daily_pass.
      destruct (select_daily_data (daily_start (disk w)) (disk w))
        as [|row rows] eqn:E; [reflexivity|].
      rewrite <- E. apply daily_start_after_replace; try assumption.
      rewrite E. discriminate. }
    split; [exact Hle|]. intros h Hh. apply Z.leb_gt. lia.
Qed.

Lemma stage_start_never_moves_back_witness :
  hourly_start (disk settled_world)
  <= hourly_start (disk (state_of (_process_hourly_aggregations settled_world)))
  /\
  daily_start (disk settled_world)
  <= daily_start (disk (state_of (_process_daily_aggregations settled_world))).
Proof.
  assert (Hevents : forall e, In e (events (disk settled_world)) ->
                              epoch_ts <= timestamp e).
  { intros e [<- | []]; vm_compute; discriminate. }
  assert (Hc : daily_consistent (disk settled_world))
    by (split; [intros d; reflexivity | intros r []]).
  assert (Hdates : forall h, In h (hourly_usage (disk settled_world)) ->
                             epoch_date <= h_date h).
  { intros h [<- | [<- | []]]; vm_compute; discriminate. }
  split.
  - exact (proj1 (proj1 (stage_start_never_moves_back settled_world) Hevents)).
  - exact (proj1 (proj2 (stage_start_never_moves_back settled_world)
                        Hc Hdates)).
Defined.

(* ================================================================= *)
(** ** Editing the mapping *)

Lemma update_category_mapping_map (write : write_outcome) (now : string)
  (app_name category : string) (self : CategoryManager) (file : Source) :
  app_mappings
    (manager_after
       (update_category_mapping write now app_name category self file))
  = Dict.set (Str.lower app_name) category (app_mappings self).
Proof.
  unfold update_category_mapping.
  repeat match goal with
         | |- context [match ?x with _ => _ end] => destruct x
         end; reflexivity.
Qed.

Lemma update_category_mapping_raised (write : write_outcome) (now : string)
  (app_name category : string) (self : CategoryManager) (file : Source) :
  let r := update_category_mapping write now app_name category self file in
  raised r <> None ->
  file_after r = file /\ categories (manager_after r) = categories self /\
  save_error_logged r = false.
Proof.
  unfold update_category_mapping.
  repeat match goal with
         | |- context [match ?x with _ => _ end] => destruct x
         end; simpl; intros H; try (now destruct H); now repeat split.
Qed.

(** X21.  [update_category_mapping] always maps the app: whatever the
    categories in memory look like, and even when the call raises, the
    lowered name is mapped to the category afterwards and [get_category]
    returns the category for the name; names that were mapped directly
    keep their category; and a call that raises has neither touched the
    file nor the categories. *)
Theorem update_category_mapping_maps_the_app (write : write_outcome)
  (now app_name category : string) (self : CategoryManager) (file : Source) :
  let r := update_category_mapping write now app_name category self file in
  Dict.get (Str.lower app_name) (app_mappings (manager_after r))
  = Some category /\
  (app_name <> EmptyString ->
   get_category (manager_after r) app_name = category) /\
  (forall name c,
     name <> EmptyString ->
     Str.lower name <> Str.lower app_name ->
     Dict.get (Str.lower name) (app_mappings self) = Some c ->
     get_category (manager_after r) name = c) /\
  (raised r <> None ->
   file_after r = file /\ categories (manager_after r) = categories self /\
   save_error_logged r = false).
Proof.
  intros r.
  assert (Hmap : app_mappings (manager_after r)
                 = Dict.set (Str.lower app_name) category (app_mappings self))
    by apply update_category_mapping_map.
  split; [|split; [|split]].
  - rewrite Hmap. apply dict_get_set_same.
  - intros Hne. unfold get_category. rewrite Hmap, dict_get_set_same.
    destruct app_name; [now destruct Hne | reflexivity].
  - intros name c Hne Hother Hget. unfold get_category.
    rewrite Hmap, dict_get_set_other, Hget by assumption.
    destruct name; [now destruct Hne | reflexivity].
  - apply update_category_mapping_raised.
Qed.

Lemma update_category_mapping_maps_the_app_witness :
  let r := update_category_mapping Written "2024-01-01T12:00:00"
             "Chrome" "Browsers" (manager source_removed) Missing in
  let broken := mkCategoryManager (PDict [("Work", PNone)]) Dict.empty in
  let r' := update_category_mapping Written "2024-01-01T12:00:00"
              "Chrome" "Work" broken Missing in
  get_category (manager_after r) "Chrome" = "Browsers" /\
  get_category (manager_after r) "code" = "Work" /\
  raised r' = Some (Builtin TypeError) /\
  get_category (manager_after r') "Chrome" = "Work" /\
  file_after r' = Missing.
Proof.
  intros r broken r'.
  destruct (update_category_mapping_maps_the_app Written "2024-01-01T12:00:00"
              "Chrome" "Browsers" (manager source_removed) Missing)
    as (_ & Happ & Hother & _).
  destruct (update_category_mapping_maps_the_app Written "2024-01-01T12:00:00"
              "Chrome" "Work" broken Missing)
    as (_ & Happ' & _ & Hraised).
  assert (Hr' : raised r' = Some (Builtin TypeError)) by reflexivity.
  split; [apply Happ; discriminate|].
  split; [apply Hother; [discriminate | discriminate | reflexivity]|].
  split; [exact Hr'|].
  split; [apply Happ'; discriminate|].
  apply Hraised. fold r'. rewrite Hr'. discriminate.
Defined.

Lemma dict_get_first {V} (k : string) (v : V) (l1 l2 : Dict.t V) :
  ~ In k (Dict.keys l1) -> Dict.get k (l1 ++ (k, v) :: l2) = Some v.
Proof.
  induction l1 as [|[k' v'] l1 IH]; simpl; intros Hn.
  - now rewrite String.eqb_refl.
  - destruct (String.eqb k k') eqn:E.
    + apply String.eqb_eq in E. subst k'. exfalso. apply Hn. now left.
    + apply IH. intros H. apply Hn. now right.
Qed.

Lemma dict_set_first {V} (k : string) (v v' : V) (l1 l2 : Dict.t V) :
  ~ In k (Dict.keys l1) ->
  Dict.set k v' (l1 ++ (k, v) :: l2) = l1 ++ (k, v') :: l2.
Proof.
  induction l1 as [|[k0 v0] l1 IH]; simpl; intros Hn.
  - now rewrite String.eqb_refl.
  - destruct (String.eqb k k0) eqn:E.
    + apply String.eqb_eq in E. subst k0. exfalso. apply Hn. now left.
    + f_equal. apply IH. intros H. apply Hn. now right.
Qed.

Lemma categories_of_keys (entries : list (string * pyobj))
  (cats : list (string * list string)) :
  categories_of entries cats -> map fst entries = map fst cats.
Proof.
  induction 1 as [|e c entries cats [E _] _ IH]; simpl; congruence.
Qed.

Lemma not_listed (x : string) (apps : list string) :
  ~ In x apps -> existsb (py_eq_str x) (map PStr apps) = false.
Proof.
  intros Hn. destruct (existsb _ _) eqn:E; [|reflexivity].
  apply existsb_exists in E as (o & Ho & Eo).
  apply in_map_iff in Ho as (a & <- & Ha). simpl in Eo.
  apply String.eqb_eq in Eo. now subst.
Qed.

(** The category of a lowered name in the flattened map: the last
    category that lists it. *)
Lemma flatten_last_listing (cats before after : list (string * list string))
  (category app k : string) (apps : list string) :
  cats = before ++ (category, apps) :: after ->
  In app apps -> Str.lower app = k ->
  (forall c' apps' a',
     In (c', apps') after -> In a' apps' -> Str.lower a' <> k) ->
  Dict.get k (flatten cats) = Some category.
Proof.
  intros -> Happ Hk Hlater.
  unfold flatten, flatten_from. rewrite fold_left_app. cbn [fold_left].
  fold (flatten_from before Dict.empty).
  fold (flatten_from after
          (flatten_apps category apps (flatten_from before Dict.empty))).
  rewrite get_flatten_from_out by exact Hlater.
  apply get_flatten_apps_in. right. now exists app.
Qed.

(** A successful update of a listed category, as the file and the
    manager see it. *)
Lemma update_category_mapping_saves (now app_name category : string)
  (self : CategoryManager) (file : Source)
  (entries : list (string * pyobj))
  (cats before after : list (string * list string)) (apps : list string) :
  categories self = PDict entries ->
  categories_of entries cats ->
  NoDup (map fst cats) ->
  cats = before ++ (category, apps) :: after ->
  ~ In (Str.lower app_name) apps ->
  exists entries',
    categories_of entries'
      (before ++ (category, apps ++ [Str.lower app_name]) :: after) /\
    update_category_mapping Written now app_name category self file
    = let self2 :=
        mkCategoryManager
          (PDict entries')
          (Dict.set (Str.lower app_name) category (app_mappings self)) in
      mkEditResult None self2 (Content (saved_data self2 now)) false.
Proof.
  intros Hcat Hcats Hnd -> Hnew.
  pose proof (categories_of_keys Hcats) as Hkeys.
  unfold categories_of in Hcats.
  apply Forall2_app_inv_r in Hcats as (eb & er & Hb & Hr & ->).
  inversion Hr as [|[c info] [c0 apps0] ea after0 [Hc Hl] Ha]; subst.
  simpl in Hc, Hl. subst c. destruct Hl as (d & -> & Hget).
  assert (Hfirst : ~ In category (Dict.keys eb)).
  { unfold Dict.keys. rewrite (categories_of_keys Hb).
    rewrite !map_app in Hnd. simpl in Hnd.
    apply NoDup_remove_2 in Hnd. intros H. apply Hnd.
    apply in_or_app. now left. }
  set (x := Str.lower app_name) in *.
  set (info' := PDict (Dict.set "apps" (PList (map PStr apps ++ [PStr x])) d)).
  exists (eb ++ (category, info') :: ea). split.
  - apply Forall2_app; [exact Hb|]. constructor; [|exact Ha].
    split; [reflexivity|]. simpl.
    exists (Dict.set "apps" (PList (map PStr apps ++ [PStr x])) d).
    split; [reflexivity|]. rewrite dict_get_set_same.
    now rewrite map_app.
  - unfold update_category_mapping. fold x. cbn [categories app_mappings].
    rewrite Hcat. cbn [py_contains py_getitem]. unfold Dict.mem.
    rewrite dict_get_first by exact Hfirst. cbn [py_getitem].
    rewrite Hget. cbn [py_contains]. rewrite not_listed by exact Hnew.
    cbn [py_append with_apps]. rewrite dict_get_first by exact Hfirst.
    rewrite dict_set_first by exact Hfirst. reflexivity.
Qed.

(** X22.  An update survives the next reload unless a later category
    lists the app.  When the categories in memory are well formed, the
    category is one of them and does not list the lowered name yet, and
    the file is written, [update_category_mapping] returns without an
    error, and a [load_categories] from the file it wrote finds the
    categories the manager holds.  After that reload [get_category]
    still returns the new category if no later category of the file
    lists the app in any spelling; if one does, it returns the last such
    category: the update has not removed the app from it. *)
Theorem update_survives_reload_unless_listed_later
  (now app_name category : string) (self : CategoryManager) (file : Source)
  (entries : list (string * pyobj))
  (cats before after : list (string * list string)) (apps : list string)
  (w : World) :
  categories self = PDict entries ->
  categories_of entries cats ->
  NoDup (map fst cats) ->
  cats = before ++ (category, apps) :: after ->
  ~ In (Str.lower app_name) apps ->
  app_name <> EmptyString ->
  let r := update_category_mapping Written now app_name category self file in
  source w = file_after r ->
  let reloaded := manager (state_of (load_categories w)) in
  raised r = None /\ save_error_logged r = false /\
  categories reloaded = categories (manager_after r) /\
  ((forall c' apps' a',
      In (c', apps') after -> In a' apps' ->
      Str.lower a' <> Str.lower app_name) ->
   get_category reloaded app_name = category) /\
  (forall c' apps' a' earlier later,
     after = earlier ++ (c', apps') :: later ->
     In a' apps' -> Str.lower a' = Str.lower app_name ->
     (forall c2 apps2 a2,
        In (c2, apps2) later -> In a2 apps2 ->
        Str.lower a2 <> Str.lower app_name) ->
     get_category reloaded app_name = c').
Proof.
  intros Hcat Hcats Hnd Hsplit Hnew Hne r Hsrc reloaded.
  destruct (@update_category_mapping_saves now app_name category self file
              entries cats before after apps Hcat Hcats Hnd Hsplit Hnew)
    as (entries' & Hcats' & Hr).
  fold r in Hr. cbv zeta in Hr. rewrite Hr in Hsrc |- *.
  cbn [raised save_error_logged manager_after file_after categories] in *.
  assert (Hload := @load_categories_flattens w _ entries' _ Hsrc eq_refl Hcats').
  assert (Hman : reloaded
                 = mkCategoryManager (PDict entries')
                     (flatten (before
                               ++ (category, apps ++ [Str.lower app_name])
                               :: after)))
    by (unfold reloaded; now rewrite Hload).
  assert (Htruthy : Str.truthy app_name = true)
    by (destruct app_name; [now destruct Hne | reflexivity]).
  split; [reflexivity|]. split; [reflexivity|].
  split; [now rewrite Hman|]. split.
  - intros Hlater. unfold get_category.
    rewrite Htruthy, Hman. cbn [negb app_mappings].
    erewrite flatten_last_listing;
      [reflexivity | reflexivity | | apply lower_idempotent | exact Hlater].
    apply in_or_app. right. now left.
  - intros c' apps' a' earlier later -> Ha' Elow Hlater.
    unfold get_category. rewrite Htruthy, Hman. cbn [negb app_mappings].
    erewrite (@flatten_last_listing _
                (before ++ (category, apps ++ [Str.lower app_name])
                 :: earlier)
                later c' a' _ apps');
      [reflexivity | | exact Ha' | exact Elow | exact Hlater].
    now rewrite <- app_assoc.
Qed.

Lemma update_survives_reload_unless_listed_later_witness :
  let r := update_category_mapping Written "2024-01-01T12:00:00"
             "Chrome" "Browsers" chrome_at_work Missing in
  let w := set_source (file_after r) (fresh Missing [] no_fault) in
  get_category (manager_after r) "Chrome" = "Browsers" /\
  get_category (manager (state_of (load_categories w))) "Chrome" = "Work".
Proof.
  intros r w. split; [reflexivity|].
  assert (Hcats : categories_of
            [("Browsers", PDict [("apps", PList [PStr "firefox"])]);
             ("Work", PDict [("apps", PList [PStr "chrome"])])]
            [("Browsers", ["firefox"]); ("Work", ["chrome"])]).
  { repeat (constructor;
            [split; [reflexivity | eexists; split; reflexivity]|]).
    constructor. }
  assert (Hnd : NoDup (map fst [("Browsers", ["firefox"]);
                                ("Work", ["chrome"])])).
  { repeat constructor; simpl; intuition discriminate. }
  assert (Hnew : ~ In (Str.lower "Chrome") ["firefox"])
    by (simpl; intuition discriminate).
  assert (Hne : "Chrome" <> EmptyString) by discriminate.
  destruct (@update_survives_reload_unless_listed_later
              "2024-01-01T12:00:00" "Chrome" "Browsers" chrome_at_work Missing
              _ _ [] [("Work", ["chrome"])] ["firefox"] w
              eq_refl Hcats Hnd eq_refl Hnew Hne eq_refl)
    as (_ & _ & _ & _ & Hlater).
  apply (Hlater "Work" ["chrome"] "chrome" [] []);
    [reflexivity | now left | reflexivity | intros c2 apps2 a2 []].
Defined.

(** After [self.categories] is assigned, [load_categories] does not
    touch it again. *)
Lemma load_categories_assigns_categories (w : World) (d : list (string * pyobj))
  (cats : pyobj) :
  source w = Content (PDict d) ->
  Dict.get "categories" d = Some cats ->
  categories (manager (state_of (load_categories w))) = cats.
Proof.
  intros Hsrc Hget.
  unfold load_categories, load_categories_body.
  set (proj := fun w : World => categories (manager w)).
  change (categories (manager ?x)) with (proj x).
  unfold try_except. unfold bind at 1, gets at 1. rewrite Hsrc.
  unfold bind at 1. cbn [py_get]. rewrite Hget. unfold ret at 1.
  unfold bind at 1, modify at 1.
  set (w1 := set_categories cats w).
  assert (Htail : forall m : M unit, preserves proj m ->
            proj (state_of
                    (match m w1 with
                     | Done a w' => Done a w'
                     | Raised e w' =>
                         logging ERROR (Error_loading_categories e) w'
                     end)) = cats).
  { intros m Hm. specialize (Hm w1).
    destruct (m w1) as [a w' | e w']; simpl in *; exact Hm. }
  apply Htail.
  unfold py_items, py_get, py_iter, py_lower, py_len.
  preserves_tac.
Qed.

(** X23.  What [save_categories] leaves for the next load.  A dump that
    goes through leaves a file from which [load_categories] reads the
    categories of the manager back, whatever they are; after a dump that
    broke off, the next [load_categories] fails on the file, logs the
    error and keeps the manager as it is. *)
Theorem saved_categories_are_read_back (now : string)
  (self : CategoryManager) (file : Source) (w : World) :
  (source w = fst (save_categories Written now self file) ->
   categories (manager (state_of (load_categories w))) = categories self) /\
  (source w = fst (save_categories DumpFailed now self file) ->
   manager (state_of (load_categories w)) = manager w /\
   log (state_of (load_categories w))
   = log w ++ [(ERROR, Error_loading_categories JSONDecodeError)]).
Proof.
  split.
  - intros Hsrc. simpl in Hsrc.
    now apply (load_categories_assigns_categories w Hsrc).
  - intros Hsrc. simpl in Hsrc.
    unfold load_categories, try_except, load_categories_body.
    unfold bind, gets. rewrite Hsrc. now split.
Qed.

Lemma saved_categories_are_read_back_witness :
  let saved := fst (save_categories Written "2024-01-01T12:00:00"
                      chrome_at_work Missing) in
  let broken := fst (save_categories DumpFailed "2024-01-01T12:00:00"
                       chrome_at_work Missing) in
  categories
    (manager (state_of (load_categories
                          (set_source saved (fresh Missing [] no_fault)))))
  = categories chrome_at_work /\
  manager (state_of (load_categories (set_source broken source_removed)))
  = manager source_removed.
Proof.
  intros saved broken. split.
  - exact (proj1 (saved_categories_are_read_back "2024-01-01T12:00:00"
                    chrome_at_work Missing
                    (set_source saved (fresh Missing [] no_fault)))
                 eq_refl).
  - exact (proj1 (proj2
             (saved_categories_are_read_back "2024-01-01T12:00:00"
                chrome_at_work Missing (set_source broken source_removed))
             eq_refl)).
Defined.

(* ================================================================= *)
(** ** The update of app_categories is one unit *)

(** X24.  The DELETE and the INSERTs of [_update_app_categories_table]
    are committed as one unit: when the update raises at any point, after
    the DELETE or between two INSERTs, the committed database is as
    before and the error is logged; whatever happens, app_categories
    afterwards holds the rows it held or the rows of the flattened map,
    never a part of them. *)
Theorem app_categories_update_is_atomic (w : World) :
  let w' := state_of (_update_app_categories_table w) in
  (forall e w1,
     update_app_categories_body w = Raised e w1 ->
     disk w' = disk w /\
     log w' = log w1 ++ [(ERROR, Error_updating_app_categories e)]) /\
  (app_categories (disk w') = app_categories (disk w) \/
   app_categories (disk w')
   = map app_category_row (Dict.items (app_mappings (manager w)))).
Proof.
  pose proof (update_app_categories_body_post w) as H.
  unfold _update_app_categories_table, try_except, post in *.
  destruct (update_app_categories_body w) as [[] w1 | e w1]; simpl.
  - destruct H as (-> & _). split; [discriminate | now right].
  - destruct H as (_ & _ & Hd & _). split; [|left; now rewrite Hd].
    intros e' w1' [= <- <-]. now split.
Qed.

Lemma app_categories_update_is_atomic_witness :
  let w := state_of (load_categories
                       (fresh priority_rules [] (fun n => Nat.eqb n 2))) in
  update_app_categories_body w
  = Raised OperationalError (state_of (update_app_categories_body w)) /\
  disk (state_of (_update_app_categories_table w)) = disk w.
Proof.
  intros w.
  assert (Hrun : update_app_categories_body w
                 = Raised OperationalError
                     (state_of (update_app_categories_body w)))
    by (vm_compute; reflexivity).
  split; [exact Hrun|].
  exact (proj1 (proj1 (app_categories_update_is_atomic w) _ _ Hrun)).
Defined.

(* ================================================================= *)
(** ** Events that arrive in time *)

Lemma add_events_tables (es : list Event) (db : Database) :
  events (add_events es db) = events db ++ es /\
  hourly_usage (add_events es db) = hourly_usage db.
Proof.
  unfold add_events. revert db.
  induction es as [|e es IH]; intros db; simpl.
  - now rewrite app_nil_r.
  - destruct (IH (add_event e db)) as [-> ->]. simpl.
    now rewrite <- app_assoc.
Qed.

Lemma hourly_start_tables (db db' : Database) :
  hourly_usage db' = hourly_usage db -> hourly_start db' = hourly_start db.
Proof.
  intros E. unfold hourly_start, select_max_hour_end. now rewrite E.
Qed.

(** Off the boundary, events of one hour are selected together. *)
Lemma selected_with_its_hour (db : Database) (e e' : Event) :
  off_boundary e -> off_boundary e' ->
  timestamp e' / usec_per_hour = timestamp e / usec_per_hour ->
  hourly_start db < timestamp e -> hourly_start db < timestamp e'.
Proof.
  intros He He' Eh Hs.
  apply (selected_from_window_hour db He) in Hs.
  apply (selected_from_window_hour db He'). now rewrite Eh.
Qed.

(** A pass over events off the boundary leaves hourly_usage complete
    when every event it does not select has its complete bucket. *)
Lemma hourly_pass_complete (self : CategoryManager) (db : Database) :
  (forall e, In e (events db) -> off_boundary e) ->
  (forall e, In e (events db) ->
     hourly_start db < timestamp e \/
     In (bucket_of self e (events_of_key e (events db))) (hourly_usage db)) ->
  hourly_complete self (hourly_pass self db).
Proof.
  intros Hoff Hold e He.
  change (events (hourly_pass self db)) with (events db) in *.
  destruct (Z.lt_ge_cases (hourly_start db) (timestamp e)) as [Hsel | Hnot].
  - apply hourly_pass_bucket; [assumption|].
    intros e' He' Ek.
    apply (selected_with_its_hour db (Hoff e He) (Hoff e' He'));
      [now apply event_key_hour_index | assumption].
  - destruct (Hold e He) as [Hsel | Hb]; [lia|].
    unfold hourly_pass; simpl. apply in_or_app. left.
    apply filter_In. split; [assumption|].
    apply negb_true_iff.
    destruct (in_slots _ _) eqn:E; [|reflexivity].
    apply in_slots_spec, in_map_iff in E as (g & Eg & Hg).
    apply in_select_hourly_data in Hg as (y & Hy & Hys & ->).
    simpl in Eg. injection Eg as Ed Eh.
    assert (Ei : timestamp e / usec_per_hour = timestamp y / usec_per_hour).
    { rewrite <- !strftime_hour_index. unfold hour_index. congruence. }
    pose proof (selected_with_its_hour db (Hoff y Hy) (Hoff e He) Ei Hys).
    lia.
Qed.

(** A pass over events that arrived in time keeps hourly_usage
    complete. *)
Lemma in_time_pass_complete (self : CategoryManager) (db : Database)
  (es : list Event) :
  hourly_complete self db ->
  (forall e, In e (events db ++ es) -> off_boundary e) ->
  (forall e, In e es -> hourly_start db < timestamp e) ->
  hourly_complete self (hourly_pass self (add_events es db)).
Proof.
  intros Hcomplete Hoff Hnew.
  destruct (add_events_tables es db) as [Hev Hh].
  set (db' := add_events es db) in *.
  assert (Hstart : hourly_start db' = hourly_start db)
    by now apply hourly_start_tables.
  apply hourly_pass_complete.
  - intros e He. apply Hoff. now rewrite <- Hev.
  - intros e He. rewrite Hstart.
    destruct (Z.lt_ge_cases (hourly_start db) (timestamp e))
      as [Hsel | Hnot]; [now left | right].
    rewrite Hev in He. apply in_app_or in He as [He | He];
      [|apply Hnew in He; lia].
    rewrite Hh, Hev. unfold events_of_key. rewrite filter_app.
    rewrite (filter_none _ es); [rewrite app_nil_r; now apply Hcomplete|].
    intros y Hy. destruct (same_key _ _ _ y) eqn:Ek; [|reflexivity].
    apply same_key_true in Ek. exfalso.
    assert (Hoffy : off_boundary y) by (apply Hoff, in_or_app; now right).
    assert (Hoffe : off_boundary e) by (apply Hoff, in_or_app; now left).
    pose proof (selected_with_its_hour db Hoffy Hoffe
                  (eq_sym (event_key_hour_index Ek)) (Hnew y Hy)).
    lia.
Qed.

(** X25.  Events that arrive in time are all counted.  Let hourly_usage
    be complete: for every event it holds the bucket of the event's key
    built from all events of the key.  When the collector then appends
    events with timestamps later than the start of the next pass, and no
    event old or new lies strictly between hh:59:59 and the next full
    hour, an hourly pass that succeeds under the same rules leaves
    hourly_usage complete again, so that over any number of such cycles
    every event is counted in the bucket of its key. *)
Theorem in_time_events_are_all_counted (w w1 : World) (es : list Event) :
  hourly_complete (manager w) (disk w) ->
  (forall e, In e (events (disk w) ++ es) -> off_boundary e) ->
  (forall e, In e es -> hourly_start (disk w) < timestamp e) ->
  process_hourly_body (set_disk (add_events es (disk w)) w) = Done tt w1 ->
  events (disk w1) = events (disk w) ++ es /\
  hourly_complete (manager w1) (disk w1).
Proof.
  intros Hcomplete Hoff Hnew Hrun.
  pose proof (process_hourly_body_post
                (set_disk (add_events es (disk w)) w)) as P.
  unfold post in P. rewrite Hrun in P. destruct P as (D1 & _ & M1 & _).
  cbn [disk manager set_disk] in D1, M1.
  rewrite D1, M1. split.
  - apply (add_events_tables es (disk w)).
  - now apply in_time_pass_complete.
Qed.

Lemma in_time_events_are_all_counted_witness :
  let w := state_of (process_hourly_body
                       (fresh Missing morning_events no_fault)) in
  let w1 := state_of (process_hourly_body
                        (set_disk (add_events [late_morning_event] (disk w))
                                  w)) in
  In (firefox_bucket 9 17 2) (hourly_usage (disk w1)).
Proof.
  intros w w1.
  assert (Hev : events (disk w) = morning_events)
    by (vm_compute; reflexivity).
  assert (Hcomplete : hourly_complete (manager w) (disk w)).
  { intros e He. rewrite Hev in He. destruct He as [<- | [<- | []]].
    - vm_compute. left. reflexivity.
    - vm_compute. right. left. reflexivity. }
  assert (Hoff : forall e, In e (events (disk w) ++ [late_morning_event]) ->
                           off_boundary e).
  { intros e He. rewrite Hev in He.
    destruct He as [<- | [<- | [<- | []]]]; split; vm_compute; discriminate. }
  assert (Hnew : forall e, In e [late_morning_event] ->
                           hourly_start (disk w) < timestamp e).
  { intros e [<- | []]. vm_compute. reflexivity. }
  assert (Hrun : process_hourly_body
                   (set_disk (add_events [late_morning_event] (disk w)) w)
                 = Done tt w1)
    by (vm_compute; reflexivity).
  assert (Hin : In late_morning_event (events (disk w1)))
    by (vm_compute; right; right; left; reflexivity).
  assert (Hb : bucket_of (manager w1) late_morning_event
                 (events_of_key late_morning_event (events (disk w1)))
               = firefox_bucket 9 17 2)
    by (vm_compute; reflexivity).
  rewrite <- Hb.
  exact (proj2 (@in_time_events_are_all_counted w w1 [late_morning_event]
                  Hcomplete Hoff Hnew Hrun)
               late_morning_event Hin).
Defined.

(* ================================================================= *)
(** ** No time is lost and none is counted twice *)

Lemma hourly_pass_buckets_have_events (self : CategoryManager)
  (db : Database) :
  buckets_have_events db -> buckets_have_events (hourly_pass self db).
Proof.
  intros H r Hr. unfold hourly_pass in Hr; simpl in Hr.
  change (events (hourly_pass self db)) with (events db).
  apply in_app_or in Hr as [Hr | Hr].
  - apply filter_In in Hr as [Hr _]. now apply H.
  - apply in_map_iff in Hr as (g & <- & Hg).
    apply in_select_hourly_data in Hg as (e & He & _ & ->).
    exists e. split; [assumption | reflexivity].
Qed.

Lemma reachable_buckets_have_events (w : World) :
  reachable w -> buckets_have_events (disk w).
Proof.
  apply reachable_invariant.
  - intros evs r [].
  - intros e db H r Hr. destruct (H r Hr) as (x & Hx & E).
    exists x. split; [simpl; apply in_or_app; now left | exact E].
  - intros t db H. exact H.
  - intros self db. apply hourly_pass_buckets_have_events.
  - intros db _ H r Hr. unfold daily_pass in *.
    destruct (select_daily_data (daily_start db) db); now apply H.
Qed.

Lemma reachable_add_events (w : World) (es : list Event) :
  reachable w -> reachable (set_disk (add_events es (disk w)) w).
Proof.
  revert w. induction es as [|e es IH]; intros w H.
  - destruct w. exact H.
  - apply (IH (set_disk (add_event e (disk w)) w)).
    eapply reachable_step; [exact H | constructor].
Qed.

(** Over a complete table with one row per key and no row without an
    event, the buckets of a date add up to the events of the date. *)
Lemma complete_totals (self : CategoryManager) (db : Database) (d : Z) :
  hourly_complete self db ->
  NoDup (map bucket_key (hourly_usage db)) ->
  buckets_have_events db ->
  hourly_total_on d (hourly_usage db) = event_total_on d (events db).
Proof.
  intros Hcomplete Hnd Horphan.
  set (evs := events db) in *.
  set (canon := map (fun g => hourly_row self (hourly_group g))
                    (group_by event_key HourKey_eq_dec evs)).
  assert (Hrow : forall e,
            bucket_of self e (events_of_key e evs)
            = hourly_row self
                (hourly_group
                   (event_key e,
                    filter (same_key event_key HourKey_eq_dec (event_key e))
                           evs)))
    by reflexivity.
  assert (Hperm : Permutation (hourly_usage db) canon).
  { apply NoDup_Permutation.
    - eapply NoDup_map_inv, Hnd.
    - apply (NoDup_map_inv bucket_key). unfold canon. rewrite map_map.
      rewrite (map_ext _ fst)
        by (intros [[[[[a b] c] x] u] l]; reflexivity).
      apply NoDup_group_by.
    - intros r. unfold canon. rewrite in_map_group_by. split.
      + intros Hr. destruct (Horphan r Hr) as (e & He & Ek).
        exists e. split; [assumption|]. rewrite <- Hrow.
        apply (NoDup_map_injective bucket_key (hourly_usage db));
          [assumption | assumption | now apply Hcomplete | exact Ek].
      + intros (e & He & ->). rewrite <- Hrow. now apply Hcomplete. }
  unfold hourly_total_on.
  rewrite (sum_of_filter_Permutation _ _ Hperm). unfold canon.
  rewrite filter_map_swap, sum_of_map.
  rewrite (filter_ext _
             (fun g : HourKey * list Event =>
                fst (fst (fst (fst (fst g)))) =? d))
    by (intros [[[[[a b] c] x] u] l]; reflexivity).
  rewrite (sum_of_ext _
             (fun g : HourKey * list Event =>
                sum_of duration_seconds (snd g)))
    by (intros [[[[[a b] c] x] u] l] _; reflexivity).
  apply (sum_of_group_by event_key HourKey_eq_dec duration_seconds
           (fun k => fst (fst (fst (fst k))) =? d)).
Qed.

(** X26.  No time is lost and none is counted twice.  In a state the
    processor got into from a database without aggregates, let
    hourly_usage be complete.  When the collector appends events that
    arrive in time (later than the start of the next pass) and no event
    lies strictly between hh:59:59 and the next full hour, then after an
    hourly pass that succeeds the total_seconds of the hourly_usage rows
    of every date equal the summed duration_seconds of the events of
    that date. *)
Theorem hourly_totals_match_the_events (w w1 : World) (es : list Event) :
  reachable w ->
  hourly_complete (manager w) (disk w) ->
  (forall e, In e (events (disk w) ++ es) -> off_boundary e) ->
  (forall e, In e es -> hourly_start (disk w) < timestamp e) ->
  process_hourly_body (set_disk (add_events es (disk w)) w) = Done tt w1 ->
  forall d,
    hourly_total_on d (hourly_usage (disk w1))
    = event_total_on d (events (disk w) ++ es).
Proof.
  intros Hreach Hcomplete Hoff Hnew Hrun d.
  set (w0 := set_disk (add_events es (disk w)) w) in *.
  pose proof (process_hourly_body_post w0) as P.
  unfold post in P. rewrite Hrun in P. destruct P as (D1 & _ & M1 & _).
  cbn [disk manager set_disk w0] in D1, M1.
  assert (Hreach1 : reachable w1).
  { assert (E : w1 = state_of (_process_hourly_aggregations w0))
      by (unfold _process_hourly_aggregations, try_except; now rewrite Hrun).
    rewrite E. eapply reachable_step; [|constructor].
    now apply reachable_add_events. }
  assert (Hev : events (disk w1) = events (disk w) ++ es)
    by (rewrite D1; apply (add_events_tables es (disk w))).
  rewrite <- Hev.
  apply (complete_totals (self := manager w)).
  - rewrite D1. now apply in_time_pass_complete.
  - pose proof (reachable_invariant one_row_per_key) as Hone.
    destruct (Hone (fun evs => conj (NoDup_nil _)
                                 (conj (NoDup_nil _) (NoDup_nil _)))
                   (fun e db H => H) (fun t db H => H)
                   hourly_pass_one_row_per_key daily_pass_one_row_per_key
                   w1 Hreach1) as [H _].
    exact H.
  - now apply reachable_buckets_have_events.
Qed.

Lemma hourly_totals_match_the_events_witness :
  let w := state_of (_process_hourly_aggregations
                       (fresh Missing morning_events no_fault)) in
  let w1 := state_of (process_hourly_body
                        (set_disk (add_events [late_morning_event] (disk w))
                                  w)) in
  hourly_total_on 19723 (hourly_usage (disk w1)) = 27.
Proof.
  intros w w1.
  assert (Hreach : reachable w)
    by exact (reachable_step
                (reachable_fresh Missing morning_events no_fault)
                (step_hourly (fresh Missing morning_events no_fault))).
  assert (Hev : events (disk w) = morning_events)
    by (vm_compute; reflexivity).
  assert (Hcomplete : hourly_complete (manager w) (disk w)).
  { intros e He. rewrite Hev in He. destruct He as [<- | [<- | []]].
    - vm_compute. left. reflexivity.
    - vm_compute. right. left. reflexivity. }
  assert (Hoff : forall e, In e (events (disk w) ++ [late_morning_event]) ->
                           off_boundary e).
  { intros e He. rewrite Hev in He.
    destruct He as [<- | [<- | [<- | []]]]; split; vm_compute; discriminate. }
  assert (Hnew : forall e, In e [late_morning_event] ->
                           hourly_start (disk w) < timestamp e).
  { intros e [<- | []]. vm_compute. reflexivity. }
  assert (Hrun : process_hourly_body
                   (set_disk (add_events [late_morning_event] (disk w)) w)
                 = Done tt w1)
    by (vm_compute; reflexivity).
  assert (Ht : event_total_on 19723 (events (disk w) ++ [late_morning_event])
               = 27)
    by (vm_compute; reflexivity).
  rewrite <- Ht.
  exact (@hourly_totals_match_the_events w w1 [late_morning_event]
           Hreach Hcomplete Hoff Hnew Hrun 19723).
Defined.
